(** * RMTC: regularized minimal-energy tensor-product cubic Hermite splines

    A shallow embedding of [smt/methods/rmtc.py] (class [RMTC]) and of the
    library routines it calls, with the properties of the specification
    stated and proved over it.

    Conventions of the embedding.
    - The interpreter is Python 3 on a 64-bit Linux (x86-64): a NumPy
      integer scalar is no instance of [int], and the C [long] has 64
      bits.
    - NumPy integers ([np.array(.., int)], [np.prod], [np.ones(.., int)])
      are 64-bit two's complement: they are carried as [Z] and every
      operation wraps explicitly (module [NumPy]).
    - Python integers (array shapes, [2 ** nx], the entries of an option
      given as a number or a list) are unbounded; the array NumPy makes
      of them has the type NumPy finds for them ([int64], [uint64],
      [float64] or [object]).
    - Floating-point data is carried as exact rationals [Q]; rounding is
      not modelled.
    - Python exceptions are values of [exn]; a method that can raise
      returns in the monad [M]. *)

From Stdlib Require Import ZArith QArith Qround List Lia Bool Arith PeanoNat.
From Stdlib Require Import Permutation.
Import ListNotations.

Set Implicit Arguments.

(* ------------------------------------------------------------------ *)
(** ** NumPy's default integer *)

Module NumPy.
Local Open Scope Z_scope.

(** [int] as a dtype is the C [long]: 64 bits two's complement. *)
Definition int_min : Z := - 2 ^ 63.
Definition int_max : Z := 2 ^ 63 - 1.

Definition fits (z : Z) : bool := (int_min <=? z) && (z <=? int_max).

(** Reduction of a mathematical integer to its 64-bit representative. *)
Definition wrap (z : Z) : Z := (z + 2 ^ 63) mod 2 ^ 64 - 2 ^ 63.

Definition add (a b : Z) : Z := wrap (a + b).
Definition mul (a b : Z) : Z := wrap (a * b).

(** [a ** 2] on an integer scalar. *)
Definition square (a : Z) : Z := mul a a.

(** [np.prod] over an integer array: a left-to-right product in the
    array's own type, starting from 1. *)
Definition prod (l : list Z) : Z := fold_left mul l 1.

(** [np.ones(n, int)] and scalar-times-array, array-plus-scalar. *)
Definition ones (n : nat) : list Z := repeat 1 n.
Definition scale (k : Z) (l : list Z) : list Z := map (mul k) l.
Definition shift (l : list Z) (k : Z) : list Z := map (fun e => add e k) l.

(** The element types an array of numbers can get from Python
    integers. *)
Inductive dtype : Type := int64 | uint64 | float64 | object.

Definition uint_max : Z := 2 ^ 64 - 1.

(** The type NumPy finds for one Python integer: the C [long] when it
    fits, else the unsigned 64-bit integer, else a Python object. *)
Definition discover (z : Z) : dtype :=
  if fits z then int64
  else if (0 <=? z) && (z <=? uint_max) then uint64
  else object.

(** The common type of two entries: signed and unsigned 64-bit integers
    only meet in [float64]. *)
Definition promote (a b : dtype) : dtype :=
  match a, b with
  | object, _ | _, object => object
  | float64, _ | _, float64 => float64
  | int64, int64 => int64
  | uint64, uint64 => uint64
  | _, _ => float64
  end.

(** The type of [np.array(l)] for a list of Python integers; the empty
    list gives [float64]. *)
Definition result_type (l : list Z) : dtype :=
  match l with
  | [] => float64
  | z :: l' => fold_left (fun d e => promote d (discover e)) l' (discover z)
  end.

(** The double nearest to an integer, ties to even: 53 significant
    bits are kept. *)
Definition to_float (z : Z) : Z :=
  let a := Z.abs z in
  let e := Z.log2 a - 52 in
  if e <=? 0 then z
  else
    let q := Z.shiftr a e in
    let r := a - Z.shiftl q e in
    let half := Z.shiftl 1 (e - 1) in
    let q' := if (half <? r) || ((half =? r) && Z.odd q) then q + 1 else q in
    Z.sgn z * Z.shiftl q' e.

(** The C conversion of a double of integer value to [long]; out of
    range it is what x86-64 gives, the most negative integer. *)
Definition float_to_int (d : Z) : Z := if fits d then d else int_min.
End NumPy.

(* ------------------------------------------------------------------ *)
(** ** Exceptions and the method monad *)

Inductive exn : Type :=
| KeyError
| AttributeError
| OverflowError
| LinAlgError
| ValueError.

(** The library calls a method makes, in order; a call is recorded when it
    is made, whether it returns or raises. *)
Inductive call : Type :=
| Call_compute_coeff2nodal
| Call_linalg_inv
| Call_compute_uniq2elem
| Call_compute_full_from_block
| Call_compute_jac.

Inductive result (A : Type) : Type :=
| Ok (a : A)
| Raise (e : exn).
Arguments Raise {A} e.

(** A computation yields the calls it made and how it ended. *)
Definition M (A : Type) : Type := (list call * result A)%type.

Definition ret {A} (a : A) : M A := ([], Ok a).
Definition bind {A B} (m : M A) (k : A -> M B) : M B :=
  match m with
  | (tr, Ok a) => let '(tr', r) := k a in (tr ++ tr', r)
  | (tr, Raise e) => (tr, Raise e)
  end.
Definition traced {A} (c : call) (r : result A) : M A := ([c], r).
Definition lift {A} (e : exn) (o : option A) : result A :=
  match o with Some a => Ok a | None => Raise e end.

Definition calls {A} (m : M A) : list call := fst m.
Definition outcome {A} (m : M A) : result A := snd m.

Declare Scope rmtc_scope.
Delimit Scope rmtc_scope with rmtc.
Notation "x <- m ;; k" := (bind m (fun x => k))
  (at level 61, m at next level, right associativity) : rmtc_scope.

(* ------------------------------------------------------------------ *)
(** ** Arrays, options, the model object *)

(** A two-dimensional array of floats: its shape and its row-major
    buffer. *)
Record ndarray2 : Type := {
  shape0 : nat;
  shape1 : nat;
  buffer : list Q
}.

(** An option value as the user may give it (Python 3): one Python
    number, an instance of [int] or [float]; a NumPy scalar that is no
    such instance ([np.int64], [np.uint64], ...), with its type; a list
    of Python numbers; an ndarray, with its type. *)
Inductive option_value (A : Type) : Type :=
| Scalar (a : A)
| NpScalar (d : NumPy.dtype) (a : A)
| Sequence (l : list A)
| Array (d : NumPy.dtype) (l : list A).

(** The numbers an option value holds. *)
Definition values {A} (v : option_value A) : list A :=
  match v with
  | Scalar a | NpScalar _ a => [a]
  | Sequence l | Array _ l => l
  end.

(** [np.array(l)] for a list of Python integers: the type found for the
    entries, which are rounded when that type is [float64]. *)
Definition int_array (l : list Z) : NumPy.dtype * list Z :=
  match NumPy.result_type l with
  | NumPy.float64 => (NumPy.float64, map NumPy.to_float l)
  | d => (d, l)
  end.

(** [np.array(l)] for a list of Python floats. *)
Definition float_array (l : list Q) : NumPy.dtype * list Q :=
  (NumPy.float64, l).

(** [np.atleast_1d], as the type and the entries of the array it
    returns: an array is returned as it is, a NumPy scalar becomes an
    array of one entry of its type, anything else goes through
    [np.array] ([asarray]). *)
Definition atleast_1d {A} (asarray : list A -> NumPy.dtype * list A)
    (v : option_value A) : NumPy.dtype * list A :=
  match v with
  | Scalar a => asarray [a]
  | NpScalar d a => (d, [a])
  | Sequence l => asarray l
  | Array d l => (d, l)
  end.

(** One round of the loop of [_initialize] over the option names: when
    [isinstance(v, (int, float))] the value becomes [[v] * nx]; then
    [np.atleast_1d], and the array is stored as the option. *)
Definition normalize_option {A} (asarray : list A -> NumPy.dtype * list A)
    (nx : nat) (v : option_value A) : option_value A :=
  let v1 := match v with
            | Scalar a => Sequence (repeat a nx)
            | _ => v
            end in
  let '(d, l) := atleast_1d asarray v1 in
  Array d l.

Record Options : Type := {
  smoothness : option_value Q;
  num_elements : option_value Z;
  max_print_depth : Z;
  xlimits : list (Q * Q)
}.

(** The dictionary [num] that [_initialize] builds. *)
Record Num : Type := {
  num_x : nat;
  num_y : nat;
  num_elem_list : list Z;
  num_elem : Z;
  num_term_list : list Z;
  num_term : Z;
  num_uniq_list : list Z;
  num_uniq : Z;
  num_t : nat;
  num_coeff : Z;
  num_support : Z;
  num_dof : Z
}.

(** [self.training_points[None]]: derivative index [kx] to the pair
    [(xt, yt)]; keys are distinct, lookup takes the first binding. *)
Definition training_set : Type := list (nat * (ndarray2 * ndarray2)).

Fixpoint tp_lookup (kx : nat) (tp : training_set)
  : option (ndarray2 * ndarray2) :=
  match tp with
  | [] => None
  | (k, v) :: tp' => if Nat.eqb k kx then Some v else tp_lookup kx tp'
  end.

Record RMTC : Type := {
  options : Options;
  training_points : training_set;
  printer_max_print_depth : Z;
  num : option Num
}.

(** [np.array(a, int)] on an array: the conversion of its entries to
    the C [long]. Signed and unsigned 64-bit integers keep their 64
    bits, doubles go through the C conversion, and Python objects are
    converted one by one, an integer outside the 64-bit range raising
    OverflowError. *)
Definition np_array_int (a : NumPy.dtype * list Z) : result (list Z) :=
  match a with
  | (NumPy.object, l) =>
      if forallb NumPy.fits l then Ok l else Raise OverflowError
  | (NumPy.float64, l) => Ok (map NumPy.float_to_int l)
  | (_, l) => Ok (map NumPy.wrap l)
  end.

(** A NumPy integer scalar times a Python integer: the Python integer is
    converted to the scalar's type first.  One that does not fit raises
    OverflowError under NumPy 2 (NumPy 1 leaves the integers there, for
    float64 or object); the model follows NumPy 2. *)
Definition np_mul_pyint (a : Z) (b : Z) : result Z :=
  if NumPy.fits b then Ok (NumPy.mul a b) else Raise OverflowError.

Local Open Scope rmtc_scope.

Definition _initialize (self : RMTC) : M RMTC :=
  let opts := options self in
  xy <- ([], lift KeyError (tp_lookup 0 (training_points self))) ;;
  let nx := shape1 (fst xy) in
  let smooth := normalize_option float_array nx (smoothness opts) in
  let nelems := normalize_option int_array nx (num_elements opts) in
  let opts' := {| smoothness := smooth;
                  num_elements := nelems;
                  max_print_depth := max_print_depth opts;
                  xlimits := xlimits opts |} in
  let x := shape1 (fst xy) in
  let y := shape1 (snd xy) in
  elem_list <- ([], np_array_int (atleast_1d int_array nelems)) ;;
  let elem := NumPy.prod elem_list in
  let term_list := NumPy.scale 4 (NumPy.ones x) in
  let term := NumPy.prod term_list in
  let uniq_list := NumPy.shift elem_list 1 in
  let uniq := NumPy.prod uniq_list in
  let t := fold_left (fun acc kv => (acc + shape0 (fst (snd kv)))%nat)
                     (training_points self) 0%nat in
  let coeff := NumPy.mul term elem in
  let support := term in
  dof <- ([], np_mul_pyint uniq (2 ^ Z.of_nat x)%Z) ;;
  ret {| options := opts';
         training_points := training_points self;
         printer_max_print_depth := max_print_depth opts;
         num := Some {| num_x := x; num_y := y;
                        num_elem_list := elem_list; num_elem := elem;
                        num_term_list := term_list; num_term := term;
                        num_uniq_list := uniq_list; num_uniq := uniq;
                        num_t := t; num_coeff := coeff;
                        num_support := support; num_dof := dof |} |}.

(* ------------------------------------------------------------------ *)
(** ** Sparse matrices (scipy.sparse) and dense blocks *)

(** A dense matrix, by rows. *)
Definition matrix : Type := list (list Q).

(** The parallel arrays [(data, rows, cols)] of a sparse assembly, kept
    entry by entry. *)
Definition coo : Type := list (Q * (nat * nat)).

Definition e_val (e : Q * (nat * nat)) : Q := fst e.
Definition e_row (e : Q * (nat * nat)) : nat := fst (snd e).
Definition e_col (e : Q * (nat * nat)) : nat := snd (snd e).

Record csc : Type := {
  nrows : nat;
  ncols : nat;
  stored : coo
}.

Definition in_shape (m n : nat) (e : Q * (nat * nat)) : bool :=
  (e_row e <? m)%nat && (e_col e <? n)%nat.

(** [scipy.sparse.csc_matrix((data, (rows, cols)), shape=(m, n))]: a
    negative dimension or an index outside the shape raises ValueError. *)
Definition csc_matrix (t : coo) (shape : Z * Z) : result csc :=
  let '(m, n) := shape in
  if ((0 <=? m)%Z && (0 <=? n)%Z
      && forallb (in_shape (Z.to_nat m) (Z.to_nat n)) t)%bool
  then Ok {| nrows := Z.to_nat m; ncols := Z.to_nat n; stored := t |}
  else Raise ValueError.

(** The stored entries at one position, and the value of the matrix
    there: entries given more than once add up. *)
Definition at_pos (r c : nat) (e : Q * (nat * nat)) : bool :=
  (e_row e =? r)%nat && (e_col e =? c)%nat.

Definition Qsum (l : list Q) : Q := fold_right Qplus 0%Q l.

Definition coo_entry (t : coo) (r c : nat) : Q :=
  Qsum (map e_val (filter (at_pos r c) t)).

Definition entry (A : csc) (r c : nat) : Q := coo_entry (stored A) r c.

Definition row_entries (t : coo) (r : nat) : coo :=
  filter (fun e => (e_row e =? r)%nat) t.
Definition col_entries (t : coo) (c : nat) : coo :=
  filter (fun e => (e_col e =? c)%nat) t.

(** The product of two sparse matrices: every pair of stored entries
    meeting on the inner index contributes one term; ValueError on a
    dimension mismatch. *)
Definition sp_terms (a : Q * (nat * nat)) (B : coo) : coo :=
  flat_map (fun b => if (e_col a =? e_row b)%nat
                     then [((e_val a * e_val b)%Q, (e_row a, e_col b))]
                     else []) B.

Definition sp_mul (A B : csc) : result csc :=
  if (ncols A =? nrows B)%nat
  then Ok {| nrows := nrows A; ncols := ncols B;
             stored := flat_map (fun a => sp_terms a (stored B)) (stored A) |}
  else Raise ValueError.

(** Matrix-vector product. *)
Definition sp_apply (t : coo) (m : nat) (v : list Q) : list Q :=
  map (fun r => Qsum (map (fun e => (e_val e * nth (e_col e) v 0)%Q)
                          (row_entries t r)))
      (seq 0 m).

(* ------------------------------------------------------------------ *)
(** ** The compiled library [RMTClib] and [np.linalg.inv] *)

(** The four routines [rmtc.py] calls in [smt.methods.RMTClib]. *)
Record RMTClib : Type := {
  compute_coeff2nodal : nat -> Z -> matrix;
  compute_uniq2elem : Z -> nat -> list Z -> coo;
  compute_full_from_block : Z -> Z -> Z -> matrix -> coo;
  compute_jac : nat -> nat -> Z -> nat -> nat -> list Z -> list (Q * Q)
                -> ndarray2 -> coo
}.

Section Methods.

Variable lib : RMTClib.

(** [np.linalg.inv]: [None] is LinAlgError (singular, or not square). *)
Variable linalg_inv : matrix -> option matrix.

(** [self.num]; the attribute exists once [_initialize] has run. *)
Definition the_num (self : RMTC) : M Num :=
  ([], lift AttributeError (num self)).

Definition _compute_jac_raw (self : RMTC) (ix1 ix2 : nat) (x : ndarray2)
  : M coo :=
  nm <- the_num self ;;
  let n := shape0 x in
  nnz <- ([], np_mul_pyint (num_term nm) (Z.of_nat n)) ;;
  traced Call_compute_jac
    (Ok (compute_jac lib ix1 ix2 nnz (num_x nm) n (num_elem_list nm)
           (xlimits (options self)) x)).

Definition _compute_dof2coeff (self : RMTC) : M csc :=
  nm <- the_num self ;;
  elem_coeff2nodal <-
    traced Call_compute_coeff2nodal
      (Ok (compute_coeff2nodal lib (num_x nm) (num_term nm))) ;;
  elem_nodal2coeff <-
    traced Call_linalg_inv (lift LinAlgError (linalg_inv elem_coeff2nodal)) ;;
  let nnz := NumPy.mul (num_elem nm) (num_term nm) in
  let num_coeff_elem := NumPy.mul (num_term nm) (num_elem nm) in
  num_coeff_uniq <-
    ([], np_mul_pyint (num_uniq nm) (2 ^ Z.of_nat (num_x nm))%Z) ;;
  t <- traced Call_compute_uniq2elem
         (Ok (compute_uniq2elem lib nnz (num_x nm) (num_elem_list nm))) ;;
  full_uniq2elem <- ([], csc_matrix t (num_coeff_elem, num_coeff_uniq)) ;;
  let nnz := NumPy.mul (NumPy.square (num_term nm)) (num_elem nm) in
  let num_coeff := NumPy.mul (num_term nm) (num_elem nm) in
  t <- traced Call_compute_full_from_block
         (Ok (compute_full_from_block lib nnz (num_term nm) (num_elem nm)
                elem_nodal2coeff)) ;;
  full_nodal2coeff <- ([], csc_matrix t (num_coeff, num_coeff)) ;;
  full_dof2coeff <- ([], sp_mul full_nodal2coeff full_uniq2elem) ;;
  ret full_dof2coeff.

End Methods.

(* ------------------------------------------------------------------ *)
(** ** The library routines, after the specification

    [RMTClib] is compiled code outside [rmtc.py]; its four routines are
    modelled here from sections 4.1 to 4.5 of the specification, with one
    flat-index convention (row-major) shared by all of them. *)

Module Lib.
Local Open Scope nat_scope.

(** Modelled from the spec: the number of cells of a grid (Mesh
    Topology, 4.1), the product of its per-axis sizes. *)
Fixpoint prodn (dims : list nat) : nat :=
  match dims with
  | [] => 1
  | d :: ds => d * prodn ds
  end.

(** Modelled from the spec: the linear index to multi-index half of the
    row-major bijection of Mesh Topology (4.1); the last axis runs
    fastest. *)
Fixpoint expand_index (dims : list nat) (k : nat) : list nat :=
  match dims with
  | [] => []
  | _ :: ds => (k / prodn ds) :: expand_index ds (k mod prodn ds)
  end.

(** Modelled from the spec: the multi-index to linear index half of the
    row-major bijection of Mesh Topology (4.1). *)
Fixpoint contract_index (dims idx : list nat) : nat :=
  match dims, idx with
  | _ :: ds, i :: idx' => i * prodn ds + contract_index ds idx'
  | _, _ => 0
  end.

(** Modelled from the spec: componentwise sum of two multi-indices, the
    node at corner [c] of element [e] (Mesh Topology, 4.1). *)
Fixpoint vadd (e c : list nat) : list nat :=
  match e, c with
  | x :: e', y :: c' => (x + y) :: vadd e' c'
  | _, _ => []
  end.

(** Modelled from the spec: the number of elements per axis, the [nx]
    entries of [elem_list] (Data Model, 3). *)
Definition nelem_list (nx : nat) (elem_list : list Z) : list nat :=
  firstn nx (map Z.to_nat elem_list).

(** Modelled from the spec: the number of nodes per axis, [elem_list + 1]
    (Data Model, 3). *)
Definition nuniq_list (nx : nat) (elem_list : list Z) : list nat :=
  map S (nelem_list nx elem_list).

(** Modelled from the spec: the two corners per axis of an element, and
    the two derivative orders per axis of a degree of freedom (Data
    Model, 3). *)
Definition twos (nx : nat) : list nat := repeat 2 nx.

(** Modelled from the spec: the four terms per axis of the cubic (Data
    Model, 3). *)
Definition fours (nx : nat) : list nat := repeat 4 nx.

(** Modelled from the spec: the unique node at corner [inode] of element
    [ielem], as a linear index over the node grid (Mesh Topology, 4.1). *)
Definition corner_node (nx : nat) (elem_list : list Z) (ielem inode : nat)
  : nat :=
  contract_index (nuniq_list nx elem_list)
    (vadd (expand_index (nelem_list nx elem_list) ielem)
          (expand_index (twos nx) inode)).

(** Modelled from the spec: [RMTClib.compute_uniq2elem], the Node
    Sharing Map (4.3). For every (element, corner, derivative-subset)
    triple a 1 at the row of the element's local nodal slot and the
    column of the (shared node, derivative-subset) degree of freedom. *)
Definition compute_uniq2elem (nnz : Z) (nx : nat) (elem_list : list Z)
  : coo :=
  let nelem := prodn (nelem_list nx elem_list) in
  let nnode := prodn (twos nx) in
  let nderiv := prodn (twos nx) in
  let nterm := nnode * nderiv in
  flat_map (fun ielem =>
    flat_map (fun inode =>
      map (fun ideriv =>
             (1%Q, (ielem * nterm + inode * nderiv + ideriv,
                    corner_node nx elem_list ielem inode * nderiv + ideriv)))
          (seq 0 nderiv))
      (seq 0 nnode))
    (seq 0 nelem).

(** Modelled from the spec: the factor [p (p-1) ... (p-order+1)] a
    derivative of order [order] brings down from [t ^ p] (Local Basis
    Transform, 4.2; Basis Evaluator, 4.5: order 0 is the cubic factor
    itself, order 1 its first derivative). *)
Fixpoint falling (p order : nat) : nat :=
  match order with
  | O => 1
  | S o => p * falling (p - 1) o
  end.

(** Modelled from the spec: the value at [t] of the derivative of order
    [order] of [t ^ p]: [p (p-1) ... (p-order+1) t ^ (p-order)], zero
    when the order exceeds the power. *)
Definition dpow (order p : nat) (t : Q) : Q :=
  if (p <? order)%nat then 0%Q
  else (inject_Z (Z.of_nat (falling p order)) * t ^ Z.of_nat (p - order))%Q.

(** Modelled from the spec: a product of per-axis factors. *)
Definition Qprod (l : list Q) : Q := fold_right Qmult 1%Q l.

(** Modelled from the spec: one entry of the Local Basis Transform
    (4.2). Row [inodal] is the nodal quantity (corner, derivative
    subset), column [icoeff] the coefficient of the tensor-product
    monomial with per-axis powers in 0..3; the entry is the product over
    the axes of the monomial factor, differentiated where the subset
    says so, at the corner's endpoint [t = 0] or [t = 1]. *)
Definition coeff2nodal_entry (nx inodal icoeff : nat) : Q :=
  let nderiv := prodn (twos nx) in
  let corner := expand_index (twos nx) (inodal / nderiv) in
  let deriv := expand_index (twos nx) (inodal mod nderiv) in
  let power := expand_index (fours nx) icoeff in
  Qprod (map (fun cdp : nat * (nat * nat) =>
                dpow (fst (snd cdp)) (snd (snd cdp))
                     (inject_Z (Z.of_nat (fst cdp))))
             (combine corner (combine deriv power))).

(** Modelled from the spec: [RMTClib.compute_coeff2nodal], the dense
    [term x term] Local Basis Transform (4.2). *)
Definition compute_coeff2nodal (nx : nat) (term : Z) : matrix :=
  map (fun inodal =>
         map (fun icoeff => coeff2nodal_entry nx inodal icoeff)
             (seq 0 (Z.to_nat term)))
      (seq 0 (Z.to_nat term)).

(** Modelled from the spec: [RMTClib.compute_full_from_block], the
    block-diagonal operator of 4.4: the same [term x term] block once
    per element. *)
Definition compute_full_from_block (nnz term elem : Z) (mtx : matrix)
  : coo :=
  let nterm := Z.to_nat term in
  flat_map (fun ielem =>
    flat_map (fun i =>
      map (fun j => (nth j (nth i mtx []) 0%Q,
                     (ielem * nterm + i, ielem * nterm + j)))
          (seq 0 nterm))
      (seq 0 nterm))
    (seq 0 (Z.to_nat elem)).

(** Modelled from the spec: a coordinate in units of the element width
    from the low bound (Mesh Topology, 4.1: uniform elements, the axis
    length divided by [elem_list[axis]]). *)
Definition scaled (ab : Q * Q) (nelem : nat) (x : Q) : Q :=
  ((x - fst ab) / (snd ab - fst ab) * inject_Z (Z.of_nat nelem))%Q.

(** Modelled from the spec: the element of a coordinate on one axis
    (Mesh Topology, 4.1): the scaled coordinate rounded down, clamped
    into the grid, so that a shared boundary goes to the element it
    starts and the upper bound of the domain to the last element. *)
Definition locate (ab : Q * Q) (nelem : nat) (x : Q) : nat :=
  Z.to_nat (Z.max 0 (Z.min (Z.of_nat nelem - 1) (Qfloor (scaled ab nelem x)))).

(** Modelled from the spec: the local coordinate in [0, 1] of a
    coordinate inside its element (Mesh Topology, 4.1). *)
Definition local_coord (ab : Q * Q) (nelem : nat) (x : Q) : Q :=
  (scaled ab nelem x - inject_Z (Z.of_nat (locate ab nelem x)))%Q.

(** Modelled from the spec: row [i] of the query points, [nx]
    coordinates of a row-major buffer. *)
Definition point (nx : nat) (x : ndarray2) (i : nat) : list Q :=
  map (fun k => nth (i * nx + k) (buffer x) 0%Q) (seq 0 nx).

(** Modelled from the spec: the derivative order asked on axis [k] by
    the request [(ix1, ix2)]; 0 in a request means no derivative, [k+1]
    one derivative along axis [k]. *)
Definition order_on (ix1 ix2 k : nat) : nat :=
  (if (ix1 =? S k)%nat then 1 else 0) + (if (ix2 =? S k)%nat then 1 else 0).

(** Modelled from the spec: the containing element of a point, as a
    multi-index with one located element per axis (4.1). *)
Definition element_of (nx : nat) (elem_list : list Z) (xl : list (Q * Q))
    (p : list Q) : list nat :=
  map (fun abnx : (Q * Q) * (nat * Q) =>
         locate (fst abnx) (fst (snd abnx)) (snd (snd abnx)))
      (combine xl (combine (nelem_list nx elem_list) p)).

(** Modelled from the spec: the local coordinates of a point inside its
    containing element, per axis (4.1). *)
Definition local_of (nx : nat) (elem_list : list Z) (xl : list (Q * Q))
    (p : list Q) : list Q :=
  map (fun abnx : (Q * Q) * (nat * Q) =>
         local_coord (fst abnx) (fst (snd abnx)) (snd (snd abnx)))
      (combine xl (combine (nelem_list nx elem_list) p)).

(** Modelled from the spec: the value of local basis function [iterm]
    at local coordinates [t] under the request [(ix1, ix2)]: the product
    over the axes of the requested derivative of the factor (4.5). *)
Definition basis_value (nx ix1 ix2 iterm : nat) (t : list Q) : Q :=
  Qprod (map (fun kpt : nat * (nat * Q) =>
                dpow (order_on ix1 ix2 (fst kpt))
                     (fst (snd kpt)) (snd (snd kpt)))
             (combine (seq 0 nx)
                      (combine (expand_index (fours nx) iterm) t))).

(** Modelled from the spec: [RMTClib.compute_jac], the Basis Evaluator
    (4.5). Per point, the [term] basis values, in the point's row, at
    the columns of the containing element's coefficient block. *)
Definition compute_jac (ix1 ix2 : nat) (nnz : Z) (nx n : nat)
    (elem_list : list Z) (xl : list (Q * Q)) (x : ndarray2) : coo :=
  let nterm := prodn (fours nx) in
  flat_map (fun i =>
    let p := point nx x i in
    let ielem := contract_index (nelem_list nx elem_list)
                                (element_of nx elem_list xl p) in
    let t := local_of nx elem_list xl p in
    map (fun iterm =>
           (basis_value nx ix1 ix2 iterm t, (i, ielem * nterm + iterm)))
        (seq 0 nterm))
    (seq 0 n).

(** Modelled from the spec: the library [RMTClib] as a whole, the four
    routines above. *)
Definition rmtclib : RMTClib :=
  Build_RMTClib compute_coeff2nodal compute_uniq2elem
                compute_full_from_block compute_jac.
End Lib.

(* ------------------------------------------------------------------ *)
(** ** An exact inverse

    The methods take the inversion routine as a parameter. This module
    gives one instance, in exact arithmetic: Gauss-Jordan elimination on
    the matrix extended by the identity, [None] when a column has no
    pivot. It is not NumPy's routine: [np.linalg.inv] factors in
    floating point and raises only on a pivot that is exactly zero, so
    it can return a matrix for a singular input. The two agree, up to
    rounding, on invertible matrices, and the examples use the exact
    routine only there or where the singular matrix has an exactly zero
    pivot. *)

Module Exact.

Definition identity_row (n i : nat) : list Q :=
  map (fun j => if (i =? j)%nat then 1%Q else 0%Q) (seq 0 n).

Definition augment (m : matrix) : matrix :=
  map (fun ir : nat * list Q => snd ir ++ identity_row (length m) (fst ir))
      (combine (seq 0 (length m)) m).

Fixpoint find_pivot (k : nat) (rows : matrix) : option (list Q * matrix) :=
  match rows with
  | [] => None
  | r :: rs =>
      if Qeq_bool (nth k r 0%Q) 0%Q
      then match find_pivot k rs with
           | None => None
           | Some (p, rest) => Some (p, r :: rest)
           end
      else Some (r, rs)
  end.

Definition row_scale (c : Q) (r : list Q) : list Q :=
  map (fun x => Qred (c * x)) r.

Definition row_sub (r : list Q) (c : Q) (p : list Q) : list Q :=
  map (fun xy : Q * Q => Qred (fst xy - c * snd xy)) (combine r p).

Fixpoint eliminate (steps k : nat) (done todo : matrix) : option matrix :=
  match steps with
  | O => Some done
  | S s =>
      match find_pivot k todo with
      | None => None
      | Some (p, rest) =>
          let p' := row_scale (/ nth k p 0%Q) p in
          let elim := fun r => row_sub r (nth k r 0%Q) p' in
          eliminate s (S k) (map elim done ++ [p']) (map elim rest)
      end
  end.

Definition linalg_inv (m : matrix) : option matrix :=
  let n := length m in
  if forallb (fun r => (length r =? n)%nat) m
  then match eliminate n 0 [] (augment m) with
       | Some rows => Some (map (skipn n) rows)
       | None => None
       end
  else None.

End Exact.

(* ------------------------------------------------------------------ *)
(** ** Vocabulary of the properties *)

Module Counts.
Import NumPy.
Local Open Scope Z_scope.

(** The mathematical product, against which [NumPy.prod] is compared. *)
Definition Zprod (l : list Z) : Z := fold_right Z.mul 1 l.

(** The element list [_initialize] reads from the options, for [nx]
    inputs. *)
Definition configured_elements (self : RMTC) (nx : nat) : list Z :=
  values (normalize_option int_array nx (num_elements (options self))).

(** The same as the array [_initialize] converts, and the conversion's
    result, which becomes [elem_list]. *)
Definition configured_array (self : RMTC) (nx : nat) : dtype * list Z :=
  atleast_1d int_array
    (normalize_option int_array nx (num_elements (options self))).

Definition converted_elements (self : RMTC) (nx : nat) : result (list Z) :=
  np_array_int (configured_array self nx).

(** A valid configuration: at least one input, one positive element count
    per input. *)
Definition valid_configuration (nx : nat) (elem_list : list Z) : Prop :=
  (0 < nx)%nat /\ length elem_list = nx /\ Forall (fun e => 0 < e) elem_list.

(** The relations between the counts, over the mathematical integers. *)
Definition derived_counts (nm : Num) : Prop :=
  num_term nm = 4 ^ Z.of_nat (num_x nm) /\
  num_uniq nm = Zprod (map (fun e => e + 1) (num_elem_list nm)) /\
  num_dof nm = num_uniq nm * 2 ^ Z.of_nat (num_x nm) /\
  num_elem nm = Zprod (num_elem_list nm) /\
  num_coeff nm = num_term nm * num_elem nm /\
  num_support nm = num_term nm.

(** The counts are representable when the two largest, [coeff] and
    [dof], are. *)
Definition representable (nx : nat) (elem_list : list Z) : Prop :=
  4 ^ Z.of_nat nx * Zprod elem_list <= int_max /\
  Zprod (map (fun e => e + 1) elem_list) * 2 ^ Z.of_nat nx <= int_max.

(** What [_initialize] returns, as a function of the number of inputs
    and outputs and of the element list. *)
Definition num_of (x y : nat) (t : nat) (elem_list : list Z) (dof : Z) : Num :=
  {| num_x := x; num_y := y;
     num_elem_list := elem_list; num_elem := prod elem_list;
     num_term_list := scale 4 (ones x);
     num_term := prod (scale 4 (ones x));
     num_uniq_list := shift elem_list 1;
     num_uniq := prod (shift elem_list 1);
     num_t := t;
     num_coeff := mul (prod (scale 4 (ones x))) (prod elem_list);
     num_support := prod (scale 4 (ones x));
     num_dof := dof |}.

Definition rows_total (tp : training_set) : nat :=
  fold_left (fun acc kv => (acc + shape0 (fst (snd kv)))%nat) tp 0%nat.

(** A multi-index inside a grid. *)
Definition in_grid (idx dims : list nat) : Prop := Forall2 lt idx dims.

(** An element shares a node when the node is one of its corners: on
    every axis the node index is the element index or the next one. *)
Definition shares (e u : list nat) : bool :=
  forallb (fun eu : nat * nat =>
             (fst eu <=? snd eu)%nat && (snd eu <=? S (fst eu))%nat)
          (combine e u).

(** The number of elements of the grid that share the node of linear
    index [iuniq]. *)
Definition sharing_elements (nx : nat) (elem_list : list Z) (iuniq : nat)
  : nat :=
  length
    (filter (fun ielem =>
               shares (Lib.expand_index (Lib.nelem_list nx elem_list) ielem)
                      (Lib.expand_index (Lib.nuniq_list nx elem_list) iuniq))
            (seq 0 (Lib.prodn (Lib.nelem_list nx elem_list)))).

(** The column of the Node Sharing Map that holds the 1 of row [r]: the
    row names an element, a corner and a derivative subset; the column is
    the corner's node with the same subset. *)
Definition uniq2elem_col (nx : nat) (elem_list : list Z) (r : nat) : nat :=
  let nderiv := Lib.prodn (Lib.twos nx) in
  let nterm := (nderiv * nderiv)%nat in
  (Lib.corner_node nx elem_list (r / nterm) ((r mod nterm) / nderiv) * nderiv
   + (r mod nterm) mod nderiv)%nat.

(** The element nearest to a node from below, inside the grid. *)
Fixpoint clamp_below (u ne : list nat) : list nat :=
  match u, ne with
  | x :: u', n :: ne' => Nat.min x (n - 1) :: clamp_below u' ne'
  | _, _ => []
  end.

(** Componentwise difference of two multi-indices. *)
Fixpoint vsub (u e : list nat) : list nat :=
  match u, e with
  | x :: u', y :: e' => (x - y)%nat :: vsub u' e'
  | _, _ => []
  end.

(** The shapes of the stored training arrays, all that [_initialize]
    reads of them. *)
Definition shape (a : ndarray2) : nat * nat := (shape0 a, shape1 a).
Definition shapes (tp : training_set) : list (nat * ((nat * nat) * (nat * nat))) :=
  map (fun kv => (fst kv, (shape (fst (snd kv)), shape (snd (snd kv))))) tp.

(** The statement of the specification: the relations hold for every
    valid configuration [_initialize] accepts. *)
Definition counts_hold_always : Prop :=
  forall self s' nm,
    outcome (_initialize self) = Ok s' -> num s' = Some nm ->
    valid_configuration (num_x nm) (num_elem_list nm) ->
    derived_counts nm.

(** The run of [_compute_dof2coeff] after a successful inversion. *)
Definition assemble (lib : RMTClib) (nm : Num) (inv_block : matrix) : M csc :=
  (num_coeff_uniq <-
     ([], np_mul_pyint (num_uniq nm) (2 ^ Z.of_nat (num_x nm))%Z) ;;
   t <- traced Call_compute_uniq2elem
          (Ok (compute_uniq2elem lib (NumPy.mul (num_elem nm) (num_term nm))
                 (num_x nm) (num_elem_list nm))) ;;
   full_uniq2elem <-
     ([], csc_matrix t (NumPy.mul (num_term nm) (num_elem nm), num_coeff_uniq)) ;;
   t <- traced Call_compute_full_from_block
          (Ok (compute_full_from_block lib
                 (NumPy.mul (NumPy.square (num_term nm)) (num_elem nm))
                 (num_term nm) (num_elem nm) inv_block)) ;;
   full_nodal2coeff <-
     ([], csc_matrix t (NumPy.mul (num_term nm) (num_elem nm),
                        NumPy.mul (num_term nm) (num_elem nm))) ;;
   full_dof2coeff <- ([], sp_mul full_nodal2coeff full_uniq2elem) ;;
   ret full_dof2coeff)%rmtc.

(** The two sparse matrices [_compute_dof2coeff] builds before it
    multiplies them: [full_uniq2elem], the Node Sharing Map, and
    [full_nodal2coeff], the block-diagonal operator. *)
Definition full_uniq2elem (lib : RMTClib) (nm : Num) : result csc :=
  match np_mul_pyint (num_uniq nm) (2 ^ Z.of_nat (num_x nm))%Z with
  | Ok num_coeff_uniq =>
      csc_matrix
        (compute_uniq2elem lib (NumPy.mul (num_elem nm) (num_term nm))
           (num_x nm) (num_elem_list nm))
        (NumPy.mul (num_term nm) (num_elem nm), num_coeff_uniq)
  | Raise e => Raise e
  end.

Definition full_nodal2coeff (lib : RMTClib) (nm : Num) (inv_block : matrix)
  : result csc :=
  csc_matrix
    (compute_full_from_block lib
       (NumPy.mul (NumPy.square (num_term nm)) (num_elem nm))
       (num_term nm) (num_elem nm) inv_block)
    (NumPy.mul (num_term nm) (num_elem nm),
     NumPy.mul (num_term nm) (num_elem nm)).

(** The block-diagonal matrix of the specification: [blocks] copies of
    one [size x size] block along the diagonal, zero elsewhere. *)
Definition block_diagonal (blocks size : nat) (blk : matrix) (r c : nat) : Q :=
  if ((r <? blocks * size) && (c <? blocks * size)
      && (r / size =? c / size))%nat
  then nth (c mod size) (nth (r mod size) blk []) 0%Q
  else 0%Q.

(** Geometry of the grid. On one axis with bounds [ab] cut into [nelem]
    equal elements, element [e] is the closed interval from
    [lo + e * h] to [lo + (e + 1) * h], with [h] the element width. *)
Definition width (ab : Q * Q) (nelem : nat) : Q :=
  ((snd ab - fst ab) / inject_Z (Z.of_nat nelem))%Q.

Definition axis_contains (ab : Q * Q) (nelem e : nat) (x : Q) : Prop :=
  (fst ab + inject_Z (Z.of_nat e) * width ab nelem <= x
   /\ x <= fst ab + (inject_Z (Z.of_nat e) + 1) * width ab nelem)%Q.

(** A coordinate on the boundary between elements [j - 1] and [j]. *)
Definition on_shared_boundary (ab : Q * Q) (nelem j : nat) (x : Q) : Prop :=
  (0 < j < nelem)%nat
  /\ (x == fst ab + inject_Z (Z.of_nat j) * width ab nelem)%Q.

(** An element, by its multi-index, contains a point when it does on
    every axis. *)
Inductive element_contains
  : list (Q * Q) -> list nat -> list nat -> list Q -> Prop :=
| contains_nil : element_contains [] [] [] []
| contains_cons ab xl n ns e es x p :
    axis_contains ab n e x -> element_contains xl ns es p ->
    element_contains (ab :: xl) (n :: ns) (e :: es) (x :: p).

(** A point inside the bounds, and well-formed bounds: one pair
    [low < high] per input. *)
Definition in_domain (xl : list (Q * Q)) (p : list Q) : Prop :=
  Forall2 (fun ab x => (fst ab <= x /\ x <= snd ab)%Q) xl p.

Definition valid_xlimits (nx : nat) (xl : list (Q * Q)) : Prop :=
  length xl = nx /\ Forall (fun ab => (fst ab < snd ab)%Q) xl.

(** The query array is [n x nx] and every row is in the domain. *)
Definition valid_query (nx : nat) (xl : list (Q * Q)) (x : ndarray2) : Prop :=
  shape1 x = nx /\
  forall i, (i < shape0 x)%nat -> in_domain xl (Lib.point nx x i).

(** The column block of element [ielem]. *)
Definition in_block (nterm ielem col : nat) : Prop :=
  (ielem * nterm <= col < (ielem + 1) * nterm)%nat.

(** A cubic polynomial and its derivative. *)
Definition cubic (c0 c1 c2 c3 : Q) (t : Q) : Q :=
  (c0 + c1 * t + c2 * t ^ 2 + c3 * t ^ 3)%Q.

Definition cubic' (c1 c2 c3 : Q) (t : Q) : Q :=
  (c1 + 2 * c2 * t + 3 * c3 * t ^ 2)%Q.

(** The inverse of the Local Basis Transform in one dimension: from the
    values and derivatives at the two ends to the coefficients of
    [1, t, t^2, t^3]. *)
Definition hermite_nodal2coeff : matrix :=
  [[1; 0; 0; 0]; [0; 1; 0; 0]; [-3; -2; 3; -1]; [2; 1; -2; 1]]%Q.

(** The product of two dense matrices, the second given by columns
    through its transpose. *)
Definition dot (u v : list Q) : Q :=
  Qsum (map (fun uv : Q * Q => (fst uv * snd uv)%Q) (combine u v)).

Definition column (m : matrix) (j : nat) : list Q :=
  map (fun row => nth j row 0%Q) m.

Definition mat_mul (a b : matrix) : matrix :=
  map (fun row => map (fun j => Qred (dot row (column b j)))
                      (seq 0 (length (nth 0 b []))))
      a.

Definition identity (n : nat) : matrix :=
  map (fun i => map (fun j => if (i =? j)%nat then 1%Q else 0%Q) (seq 0 n))
      (seq 0 n).

(** The numerically nonzero entries of a row and of a column. *)
Definition nonzero (q : Q) : bool := negb (Qeq_bool q 0).

Definition nonzeros_in_row (A : csc) (r : nat) : list nat :=
  filter (fun c => nonzero (entry A r c)) (seq 0 (ncols A)).

Definition nonzeros_in_col (A : csc) (c : nat) : list nat :=
  filter (fun r => nonzero (entry A r c)) (seq 0 (nrows A)).

(** A matrix is reported singular by an inversion routine when the
    routine raises LinAlgError on it. *)
Definition reported_singular (linalg_inv : matrix -> option matrix)
    (m : matrix) : Prop :=
  linalg_inv m = None.

(** A matrix is singular when it sends some nonzero vector to zero, and
    invertible when it has a right inverse. *)
Definition singular (m : matrix) : Prop :=
  exists v, length v = length m /\ ~ Forall (fun x => (x == 0)%Q) v /\
            Forall (fun row => (dot row v == 0)%Q) m.

Definition invertible (m : matrix) : Prop :=
  exists b, mat_mul m b = identity (length m).

(** An inversion routine is exact when what it returns is an inverse. *)
Definition exact_inverse (linalg_inv : matrix -> option matrix) : Prop :=
  forall m b, linalg_inv m = Some b -> mat_mul m b = identity (length m).

(** The statement of the specification on a singular Local Basis
    Transform: no operator comes out of it, whatever the library and the
    inversion routine. *)
Definition singular_is_fatal : Prop :=
  forall lib linalg_inv self nm op,
    num self = Some nm ->
    singular (compute_coeff2nodal lib (num_x nm) (num_term nm)) ->
    outcome (_compute_dof2coeff lib linalg_inv self) <> Ok op.

(** An option given as one number, of Python or of NumPy. *)
Definition is_scalar {A} (v : option_value A) : Prop :=
  match v with
  | Scalar _ | NpScalar _ _ => True
  | _ => False
  end.

(** The statement of the specification on scalar options: whenever
    [num_elements] is one number, [elem_list] has one entry per input. *)
Definition scalars_replicated : Prop :=
  forall self s' nm,
    is_scalar (num_elements (options self)) ->
    outcome (_initialize self) = Ok s' -> num s' = Some nm ->
    length (num_elem_list nm) = num_x nm.

(** An object is initialized when it is what [_initialize] returned. *)
Definition initialized (s : RMTC) : Prop :=
  exists s0, outcome (_initialize s0) = Ok s.

Definition call_eqb (a b : call) : bool :=
  match a, b with
  | Call_compute_coeff2nodal, Call_compute_coeff2nodal
  | Call_linalg_inv, Call_linalg_inv
  | Call_compute_uniq2elem, Call_compute_uniq2elem
  | Call_compute_full_from_block, Call_compute_full_from_block
  | Call_compute_jac, Call_compute_jac => true
  | _, _ => false
  end.

(** How many times a run called one routine. *)
Definition times_called (c : call) (tr : list call) : nat :=
  length (filter (call_eqb c) tr).

End Counts.

(* ------------------------------------------------------------------ *)
(** ** Example objects *)

Module Examples.

Definition empty_array (rows cols : nat) : ndarray2 :=
  {| shape0 := rows; shape1 := cols; buffer := repeat 0%Q (rows * cols) |}.

(** A model over [nx] inputs and one output with [rows] training points,
    before [_initialize]. *)
Definition model (nx rows : nat) (elems : option_value Z)
    (xl : list (Q * Q)) : RMTC :=
  {| options := {| smoothness := Scalar 1%Q;
                   num_elements := elems;
                   max_print_depth := 5%Z;
                   xlimits := xl |};
     training_points := [(0%nat, (empty_array rows nx, empty_array rows 1))];
     printer_max_print_depth := 0%Z;
     num := None |}.

(** One element per axis over 32 inputs. *)
Definition wide : RMTC := model 32 1 (Scalar 1%Z) (repeat (0%Q, 1%Q) 32).

(** Three by two elements over the unit square. *)
Definition square_grid : RMTC :=
  model 2 5 (Sequence [3%Z; 2%Z]) [(0%Q, 1%Q); (0%Q, 1%Q)].

(** Two elements over the unit interval. *)
Definition interval : RMTC := model 1 5 (Scalar 2%Z) [(0%Q, 1%Q)].

(** The same grid with other training data, smoothness and print depth,
    and a stale [num]. *)
Definition interval_again : RMTC :=
  {| options := {| smoothness := Sequence [7 # 2];
                   num_elements := Sequence [2%Z];
                   max_print_depth := 1%Z;
                   xlimits := [(0%Q, 1%Q)] |};
     training_points :=
       [(0%nat, ({| shape0 := 2; shape1 := 1; buffer := [1 # 3; 2 # 3] |},
                 {| shape0 := 2; shape1 := 3;
                    buffer := [1; 2; 3; 4; 5; 6] |}));
        (1%nat, (empty_array 4 1, empty_array 4 3))];
     printer_max_print_depth := 9%Z;
     num := None |}.

(** Three query points of the unit square: a corner, a point on the
    boundary between the first two elements of the first axis, and the
    opposite corner. *)
Definition query : ndarray2 :=
  {| shape0 := 3; shape1 := 2;
     buffer := [0; 0; 1 # 3; 1 # 4; 1; 1]%Q |}.

(** The three nodes of two elements over the unit interval. *)
Definition nodes : ndarray2 :=
  {| shape0 := 3; shape1 := 1; buffer := [0; 1 # 2; 1]%Q |}.

(** An object after [_initialize]. *)
Definition ready (self : RMTC) : RMTC :=
  match outcome (_initialize self) with
  | Ok s => s
  | Raise _ => self
  end.

(** A library whose Local Basis Transform is a singular matrix. *)
Definition degenerate_lib : RMTClib :=
  {| compute_coeff2nodal := fun _ _ => [[1; 2]; [2; 4]]%Q;
     compute_uniq2elem := compute_uniq2elem Lib.rmtclib;
     compute_full_from_block := compute_full_from_block Lib.rmtclib;
     compute_jac := compute_jac Lib.rmtclib |}.

(** The operator on two elements of one dimension, as the methods
    compute it with the exact inversion. *)
Definition interval_dof2coeff : csc := Eval vm_compute in
  match outcome (_compute_dof2coeff Lib.rmtclib Exact.linalg_inv
                   (ready interval)) with
  | Ok op => op
  | Raise _ => {| nrows := 0; ncols := 0; stored := [] |}
  end.

(** The Basis Evaluator at the three nodes, for the value and for the
    first derivative. *)
Definition nodes_jac (ix1 : nat) : coo :=
  match outcome (_compute_jac_raw Lib.rmtclib (ready interval) ix1 0 nodes) with
  | Ok t => t
  | Raise _ => []
  end.

Definition nodes_jac_value : coo := Eval vm_compute in nodes_jac 0.
Definition nodes_jac_deriv : coo := Eval vm_compute in nodes_jac 1.

End Examples.

(* ------------------------------------------------------------------ *)
(** ** Vocabulary of the runs *)

Module Runs.

(** The library calls of a run of [_compute_dof2coeff] that reaches its
    end, in order. *)
Definition complete_run : list call :=
  [Call_compute_coeff2nodal; Call_linalg_inv;
   Call_compute_uniq2elem; Call_compute_full_from_block].

(** What [full_nodal2coeff * full_uniq2elem] stores when the inner
    dimensions agree. *)
Definition product (N U : csc) : csc :=
  {| nrows := nrows N; ncols := ncols U;
     stored := flat_map (fun a => sp_terms a (stored U)) (stored N) |}.

(** The entries of an option given in Python numbers, one number or a
    list of them, before NumPy makes an array of them. *)
Definition python_entries (v : option_value Z) (nx : nat) : option (list Z) :=
  match v with
  | Scalar a => Some (repeat a nx)
  | Sequence l => Some l
  | _ => None
  end.

(** An integer that a signed or an unsigned 64-bit integer can hold. *)
Definition in_64_bits (z : Z) : bool :=
  (NumPy.int_min <=? z)%Z && (z <=? NumPy.uint_max)%Z.

(** Entry [r] of a vector, zero outside it. *)
Definition component (v : list Q) (r : nat) : Q := nth r v 0%Q.

End Runs.

(* ------------------------------------------------------------------ *)
(** ** Objects at the edges of the configuration space *)

Module EdgeCases.

(** Option sequences that do not match the single input: two element
    counts, one of them negative. *)
Definition uneven : RMTC :=
  {| options := {| smoothness := Sequence [1%Q; 2%Q; 3%Q];
                   num_elements := Sequence [3%Z; (-2)%Z];
                   max_print_depth := 5%Z;
                   xlimits := [(0%Q, 1%Q)] |};
     training_points :=
       [(0%nat, (Examples.empty_array 5 1, Examples.empty_array 5 1))];
     printer_max_print_depth := 0%Z;
     num := None |}.

(** An element count one past the largest 64-bit integer. *)
Definition oversized : RMTC :=
  Examples.model 1 5 (Sequence [(2 ^ 63)%Z]) [(0%Q, 1%Q)].

(** Four elements per axis over three inputs, given as one Python
    number. *)
Definition uniform : RMTC :=
  Examples.model 3 5 (Scalar 4%Z) (repeat (0%Q, 1%Q) 3).

(** Three elements per axis meant over two inputs, given as one NumPy
    integer, [np.int64(3)]. *)
Definition numpy_count : RMTC :=
  Examples.model 2 5 (NpScalar NumPy.int64 3%Z) [(0%Q, 1%Q); (0%Q, 1%Q)].

(** A Python number of 65 bits as the element count. *)
Definition huge_count : RMTC :=
  Examples.model 2 5 (Scalar (2 ^ 64)%Z) [(0%Q, 1%Q); (0%Q, 1%Q)].

(** A library whose Local Basis Transform is singular, its first two
    rows being proportional, without an exactly zero pivot once the
    division by 9 is rounded; and an inversion routine that, as a
    factorization in floating point does on such a matrix, finds no zero
    pivot and returns a matrix. On invertible matrices the routine is
    the exact one. *)
Definition singular_block : matrix :=
  [[9; 9; 0; 0]; [7; 7; 0; 0]; [0; 0; 1; 0]; [0; 0; 0; 1]]%Q.

Definition singular_lib : RMTClib :=
  {| compute_coeff2nodal := fun _ _ => singular_block;
     compute_uniq2elem := compute_uniq2elem Lib.rmtclib;
     compute_full_from_block := compute_full_from_block Lib.rmtclib;
     compute_jac := compute_jac Lib.rmtclib |}.

Definition lenient_inv (m : matrix) : option matrix :=
  match Exact.linalg_inv m with
  | Some b => Some b
  | None => Some m
  end.

(** No element along the second axis. *)
Definition flat : RMTC :=
  Examples.model 2 5 (Sequence [3%Z; 0%Z]) [(0%Q, 1%Q); (0%Q, 1%Q)].

(** No training data for the function values, only for a derivative. *)
Definition derivatives_only : RMTC :=
  {| options := options Examples.interval;
     training_points :=
       [(1%nat, (Examples.empty_array 4 1, Examples.empty_array 4 1))];
     printer_max_print_depth := 0%Z;
     num := None |}.

(** The training data of [Examples.interval_again] with the derivative
    entered first. *)
Definition reordered : RMTC :=
  {| options := options Examples.interval_again;
     training_points := rev (training_points Examples.interval_again);
     printer_max_print_depth := 9%Z;
     num := None |}.

End EdgeCases.

(* ------------------------------------------------------------------ *)
(** * Properties *)

(** ** 64-bit arithmetic *)

Module NumPyFacts.
Import NumPy Counts.
Local Open Scope Z_scope.

Lemma Zprod_cons e l : Zprod (e :: l) = e * Zprod l.
Proof. reflexivity. Qed.

Lemma fits_iff z : fits z = true <-> int_min <= z <= int_max.
Proof. unfold fits. rewrite andb_true_iff, !Z.leb_le. tauto. Qed.

Lemma wrap_small z : int_min <= z <= int_max -> wrap z = z.
Proof.
  unfold wrap, int_min, int_max. intros H.
  rewrite Z.mod_small by lia. lia.
Qed.

Lemma wrap_range z : int_min <= wrap z <= int_max.
Proof.
  unfold wrap, int_min, int_max.
  pose proof (Z.mod_pos_bound (z + 2 ^ 63) (2 ^ 64) ltac:(lia)). lia.
Qed.

Lemma Zprod_pos l : Forall (fun e => 0 < e) l -> 0 < Zprod l.
Proof.
  induction 1 as [|e l He _ IH]; rewrite ?Zprod_cons; [reflexivity | nia].
Qed.

Lemma Zprod_repeat k n : Zprod (repeat k n) = k ^ Z.of_nat n.
Proof.
  induction n as [|n IH].
  - reflexivity.
  - cbn [repeat Zprod fold_right]. fold (Zprod (repeat k n)). rewrite IH.
    rewrite Nat2Z.inj_succ, Z.pow_succ_r by lia. reflexivity.
Qed.

Lemma prod_from a l :
  0 <= a -> Forall (fun e => 0 < e) l -> a * Zprod l <= int_max ->
  fold_left mul l a = a * Zprod l.
Proof.
  intros Ha Hl. revert a Ha.
  induction Hl as [|e l He Hl IH]; intros a Ha Hb;
    rewrite ?Zprod_cons in *; simpl.
  - lia.
  - pose proof (Zprod_pos Hl) as Hp.
    assert (Hae : a * e <= a * (e * Zprod l)) by nia.
    assert (Hm : mul a e = a * e).
    { unfold mul. apply wrap_small. unfold int_min. nia. }
    rewrite Hm, IH; [ring | nia | ].
    replace (a * e * Zprod l) with (a * (e * Zprod l)) by ring. exact Hb.
Qed.

Lemma prod_exact l :
  Forall (fun e => 0 < e) l -> Zprod l <= int_max -> prod l = Zprod l.
Proof.
  intros Hl Hb. unfold prod. rewrite prod_from; lia || assumption.
Qed.

Lemma mul_exact a b : 0 <= a -> 0 <= b -> a * b <= int_max -> mul a b = a * b.
Proof.
  intros. unfold mul. apply wrap_small. unfold int_min. nia.
Qed.

Lemma scale_ones k n : scale k (ones n) = repeat (mul k 1) n.
Proof.
  unfold scale, ones. induction n; simpl; congruence.
Qed.

Lemma four_ones n : scale 4 (ones n) = repeat 4 n.
Proof. rewrite scale_ones. reflexivity. Qed.

Lemma shift_exact l :
  Forall (fun e => 0 < e) l -> Forall (fun e => e < int_max) l ->
  shift l 1 = map (fun e => e + 1) l.
Proof.
  intros Hp Hb. unfold shift. apply map_ext_in. intros e He.
  rewrite Forall_forall in Hp, Hb. specialize (Hp e He). specialize (Hb e He).
  unfold add. apply wrap_small. unfold int_min in *. lia.
Qed.

Lemma Zprod_ge_member l e :
  Forall (fun x => 0 < x) l -> In e l -> e <= Zprod l.
Proof.
  induction 1 as [|x l Hx Hl IH]; [simpl; tauto|].
  rewrite Zprod_cons. pose proof (Zprod_pos Hl). intros [->|Hin]; [nia|].
  specialize (IH Hin). nia.
Qed.

Lemma Zprod_succ_pos l :
  Forall (fun e => 0 < e) l -> Forall (fun e => 0 < e) (map (fun e => e + 1) l).
Proof. intros H. apply Forall_map. eapply Forall_impl; [|exact H]. simpl. lia. Qed.

Lemma Zprod_le_succ l :
  Forall (fun e => 0 < e) l -> Zprod l <= Zprod (map (fun e => e + 1) l).
Proof.
  induction 1 as [|x l Hx Hl IH]; [simpl; lia|].
  pose proof (Zprod_pos Hl). cbn [map]. rewrite !Zprod_cons. nia.
Qed.

End NumPyFacts.

(** ** The derived counts of [_initialize] *)

Module InitializeFacts.
Import NumPy Counts NumPyFacts.
Local Open Scope Z_scope.

Lemma promote_same d : promote d d = d.
Proof. destruct d; reflexivity. Qed.

Lemma normalized_array {A} (asarray : list A -> dtype * list A) nx v :
  atleast_1d asarray (normalize_option asarray nx v)
  = (match normalize_option asarray nx v with
     | Array d _ => d
     | _ => float64
     end, values (normalize_option asarray nx v)).
Proof.
  unfold normalize_option.
  destruct v; cbn [atleast_1d]; try reflexivity;
    destruct (asarray _); reflexivity.
Qed.

Lemma configured_array_values self nx :
  snd (configured_array self nx) = configured_elements self nx.
Proof.
  unfold configured_array, configured_elements.
  rewrite normalized_array. reflexivity.
Qed.

(** Entries inside the 64-bit range are converted to themselves,
    whatever the type of the array. *)
Lemma np_array_int_fits d l :
  forallb fits l = true -> np_array_int (d, l) = Ok l.
Proof.
  intros H. assert (Hw : map wrap l = l /\ map float_to_int l = l).
  { rewrite forallb_forall in H. split.
    - rewrite <- (map_id l) at 2. apply map_ext_in. intros e He.
      apply wrap_small, fits_iff, H, He.
    - rewrite <- (map_id l) at 2. apply map_ext_in. intros e He.
      unfold float_to_int. rewrite (H e He). reflexivity. }
  destruct Hw as [Hw Hf]. unfold np_array_int.
  destruct d; rewrite ?Hw, ?Hf, ?H; reflexivity.
Qed.

Lemma converted_fits self nx :
  forallb fits (configured_elements self nx) = true ->
  converted_elements self nx = Ok (configured_elements self nx).
Proof.
  intros H. unfold converted_elements.
  rewrite (surjective_pairing (configured_array self nx)),
    configured_array_values.
  apply np_array_int_fits, H.
Qed.

(** The conversion yields 64-bit integers. *)
Lemma np_array_int_range a l :
  np_array_int a = Ok l -> forallb fits l = true.
Proof.
  destruct a as [d l0]. unfold np_array_int.
  assert (Hw : forallb fits (map wrap l0) = true).
  { apply forallb_forall. intros e He. apply in_map_iff in He.
    destruct He as (z & <- & _). apply fits_iff, wrap_range. }
  assert (Hf : forallb fits (map float_to_int l0) = true).
  { apply forallb_forall. intros e He. apply in_map_iff in He.
    destruct He as (z & <- & _). unfold float_to_int.
    destruct (fits z) eqn:E; [exact E | reflexivity]. }
  destruct d; try (intros [= <-]; assumption).
  destruct (forallb fits l0) eqn:E; [|discriminate].
  intros [= <-]. exact E.
Qed.

Lemma _initialize_stored self s' :
  outcome (_initialize self) = Ok s' ->
  exists xt yt el,
    tp_lookup 0 (training_points self) = Some (xt, yt) /\
    converted_elements self (shape1 xt) = Ok el /\
    fits (2 ^ Z.of_nat (shape1 xt)) = true /\
    options s' =
      {| smoothness :=
           normalize_option float_array (shape1 xt) (smoothness (options self));
         num_elements :=
           normalize_option int_array (shape1 xt) (num_elements (options self));
         max_print_depth := max_print_depth (options self);
         xlimits := xlimits (options self) |} /\
    training_points s' = training_points self /\
    num s' = Some (num_of (shape1 xt) (shape1 yt)
                     (rows_total (training_points self)) el
                     (mul (prod (shift el 1)) (2 ^ Z.of_nat (shape1 xt)))).
Proof.
  unfold _initialize, outcome, converted_elements, configured_array.
  destruct (tp_lookup 0 (training_points self)) as [[xt yt]|] eqn:Hl;
    [|discriminate].
  cbn [lift bind fst snd].
  destruct (np_array_int _) as [el|] eqn:Hf; [|discriminate].
  cbn [bind]. unfold np_mul_pyint.
  destruct (fits (2 ^ Z.of_nat (shape1 xt))) eqn:H2; [|discriminate].
  cbn [bind ret snd app]. intros [= <-].
  exists xt, yt, el. repeat split; assumption || reflexivity.
Qed.

Lemma _initialize_returns self xt yt el :
  tp_lookup 0 (training_points self) = Some (xt, yt) ->
  converted_elements self (shape1 xt) = Ok el ->
  fits (2 ^ Z.of_nat (shape1 xt)) = true ->
  exists s', _initialize self = ([], Ok s').
Proof.
  intros Hl Hf H2. unfold _initialize, converted_elements, configured_array in *.
  rewrite Hl. cbn [lift bind fst snd]. rewrite Hf.
  cbn [bind]. unfold np_mul_pyint. rewrite H2.
  cbn [bind ret app]. eexists. reflexivity.
Qed.

Lemma _initialize_total self xt yt :
  tp_lookup 0 (training_points self) = Some (xt, yt) ->
  forallb fits (configured_elements self (shape1 xt)) = true ->
  fits (2 ^ Z.of_nat (shape1 xt)) = true ->
  exists s', _initialize self = ([], Ok s').
Proof.
  intros Hl Hf H2.
  exact (_initialize_returns self Hl (converted_fits _ _ Hf) H2).
Qed.

Lemma pow2_le_pow4 n : 2 ^ Z.of_nat n <= 4 ^ Z.of_nat n.
Proof. apply Z.pow_le_mono_l. lia. Qed.

Lemma representable_fits nx el :
  Forall (fun e => 0 < e) el -> representable nx el ->
  forallb fits el = true /\ fits (2 ^ Z.of_nat nx) = true /\
  Forall (fun e => e < int_max) el /\
  Zprod el <= int_max /\ 4 ^ Z.of_nat nx <= int_max /\
  Zprod (map (fun e => e + 1) el) <= int_max.
Proof.
  intros Hp [Hc Hd].
  pose proof (Zprod_pos Hp) as Hpe.
  pose proof (Zprod_pos (Zprod_succ_pos Hp)) as Hpu.
  pose proof (Zprod_le_succ Hp) as Hle.
  assert (H4 : 0 < 4 ^ Z.of_nat nx) by (apply Z.pow_pos_nonneg; lia).
  assert (H2 : 0 < 2 ^ Z.of_nat nx) by (apply Z.pow_pos_nonneg; lia).
  assert (Hu : Zprod (map (fun e => e + 1) el) <= int_max) by nia.
  assert (He : Forall (fun e => e < int_max) el).
  { rewrite Forall_forall. intros e Hin.
    assert (Hin' : In (e + 1) (map (fun e => e + 1) el))
      by (apply in_map_iff; eauto).
    pose proof (@Zprod_ge_member _ _ (Zprod_succ_pos Hp) Hin'). lia. }
  repeat split; try lia; try assumption; try nia.
  - apply forallb_forall. intros e Hin. apply fits_iff.
    rewrite Forall_forall in Hp, He. specialize (Hp e Hin).
    specialize (He e Hin). unfold int_min. lia.
  - apply fits_iff. unfold int_min. nia.
Qed.

End InitializeFacts.

(** ** Claims on [_initialize] *)

Module InitializeClaims.
Import NumPy Counts NumPyFacts InitializeFacts.
Local Open Scope Z_scope.

Lemma term_exact nx :
  4 ^ Z.of_nat nx <= int_max -> prod (scale 4 (ones nx)) = 4 ^ Z.of_nat nx.
Proof.
  intros H. rewrite four_ones, prod_exact, Zprod_repeat; trivial.
  - apply Forall_forall. intros e He. apply repeat_spec in He. lia.
  - rewrite Zprod_repeat. exact H.
Qed.

Lemma initialize_representable self xt yt :
  tp_lookup 0 (training_points self) = Some (xt, yt) ->
  valid_configuration (shape1 xt) (configured_elements self (shape1 xt)) ->
  representable (shape1 xt) (configured_elements self (shape1 xt)) ->
  exists s' nm,
    _initialize self = ([], Ok s') /\ num s' = Some nm /\
    num_x nm = shape1 xt /\
    num_elem_list nm = configured_elements self (shape1 xt) /\
    derived_counts nm.
Proof.
  intros Hl (Hnx & Hlen & Hpos) Hrep.
  destruct (representable_fits Hpos Hrep) as (Hf & H2 & Hlt & He & H4 & Hu).
  destruct (_initialize_total self Hl Hf H2) as [s' Hs'].
  assert (Ho : outcome (_initialize self) = Ok s') by (rewrite Hs'; reflexivity).
  destruct (_initialize_stored _ Ho)
    as (xt' & yt' & el' & Hl' & Hel & _ & _ & _ & Hnum).
  rewrite Hl in Hl'. injection Hl' as <- <-.
  rewrite (converted_fits _ _ Hf) in Hel. injection Hel as <-.
  eexists s', _. split; [exact Hs'|]. split; [exact Hnum|].
  split; [reflexivity|]. split; [reflexivity|].
  destruct Hrep as [Hc Hd].
  set (el := configured_elements self (shape1 xt)) in *.
  pose proof (Zprod_pos Hpos) as Hpe.
  pose proof (Zprod_pos (Zprod_succ_pos Hpos)) as Hpu.
  assert (Hp4 : 0 < 4 ^ Z.of_nat (shape1 xt)) by (apply Z.pow_pos_nonneg; lia).
  assert (Hp2 : 0 < 2 ^ Z.of_nat (shape1 xt)) by (apply Z.pow_pos_nonneg; lia).
  unfold derived_counts, num_of; cbn [num_term num_x num_uniq num_elem_list
    num_dof num_elem num_coeff num_support].
  rewrite (term_exact _ H4), (shift_exact Hpos Hlt).
  rewrite (prod_exact (Zprod_succ_pos Hpos) Hu), (prod_exact Hpos He).
  repeat split; apply mul_exact; lia.
Qed.

(** C1, as amended: for every valid configuration whose counts [coeff]
    and [dof] fit NumPy's 64-bit integer, [_initialize] returns and the
    counts it stores satisfy [term = 4**nx], [uniq] = the product of
    [elem_list + 1], [dof = uniq * 2**nx], [coeff = term * elem] with
    [elem] the product of [elem_list], and [support = term]. *)
Theorem counts_of_representable_configuration self xt yt :
  tp_lookup 0 (training_points self) = Some (xt, yt) ->
  valid_configuration (shape1 xt) (configured_elements self (shape1 xt)) ->
  representable (shape1 xt) (configured_elements self (shape1 xt)) ->
  exists s' nm,
    _initialize self = ([], Ok s') /\ num s' = Some nm /\
    num_x nm = shape1 xt /\
    num_elem_list nm = configured_elements self (shape1 xt) /\
    derived_counts nm.
Proof. exact (@initialize_representable self xt yt). Qed.

Lemma counts_of_representable_configuration_witness :
  exists s' nm,
    _initialize Examples.square_grid = ([], Ok s') /\ num s' = Some nm /\
    num_x nm = 2%nat /\ num_elem_list nm = [3; 2] /\ derived_counts nm.
Proof.
  apply (@counts_of_representable_configuration Examples.square_grid
           (Examples.empty_array 5 2) (Examples.empty_array 5 1)).
  - reflexivity.
  - repeat split; [simpl; lia | repeat constructor].
  - split; vm_compute; discriminate.
Defined.

(** C1, as stated, fails: over 32 inputs with one element per axis, a
    valid configuration, [_initialize] returns and the stored [term] is
    [4**32] reduced to 64 bits, which is 0 and not [4**32]. *)
Lemma counts_overflow_at_32_inputs :
  exists s' nm,
    _initialize Examples.wide = ([], Ok s') /\ num s' = Some nm /\
    valid_configuration (num_x nm) (num_elem_list nm) /\
    num_x nm = 32%nat /\ num_term nm = 0 /\
    4 ^ Z.of_nat (num_x nm) = 18446744073709551616 /\
    ~ derived_counts nm /\ ~ counts_hold_always.
Proof.
  assert (Hrun : _initialize Examples.wide
                 = ([], Ok (Examples.ready Examples.wide)))
    by (vm_compute; reflexivity).
  destruct (num (Examples.ready Examples.wide)) as [nm|] eqn:Hn;
    [|vm_compute in Hn; discriminate].
  assert (Hx : num_x nm = 32%nat)
    by (vm_compute in Hn; injection Hn as <-; reflexivity).
  assert (Hel : num_elem_list nm = repeat 1 32)
    by (vm_compute in Hn; injection Hn as <-; reflexivity).
  assert (Ht : num_term nm = 0)
    by (vm_compute in Hn; injection Hn as <-; reflexivity).
  assert (Hv : valid_configuration (num_x nm) (num_elem_list nm)).
  { rewrite Hx, Hel. repeat split; [lia|]. apply Forall_forall.
    intros e He. apply repeat_spec in He. lia. }
  assert (Hnot : ~ derived_counts nm).
  { intros [Hd _]. rewrite Ht, Hx in Hd. vm_compute in Hd. discriminate. }
  exists (Examples.ready Examples.wide), nm.
  split; [exact Hrun|]. split; [exact Hn|]. split; [exact Hv|].
  split; [exact Hx|]. split; [exact Ht|].
  split; [rewrite Hx; reflexivity|]. split; [exact Hnot|].
  intros H. apply Hnot.
  apply (H Examples.wide (Examples.ready Examples.wide) nm);
    [rewrite Hrun; reflexivity | exact Hn | exact Hv].
Qed.

Lemma pow2_fits n : (n < 63)%nat -> fits (2 ^ Z.of_nat n) = true.
Proof.
  intros H. apply fits_iff. unfold int_min, int_max.
  assert (2 ^ Z.of_nat n <= 2 ^ 62) by (apply Z.pow_le_mono_r; lia).
  assert (0 < 2 ^ Z.of_nat n) by (apply Z.pow_pos_nonneg; lia). lia.
Qed.

Lemma result_type_repeat a n : result_type (repeat a (S n)) = discover a.
Proof.
  cbn [repeat result_type]. induction n as [|n IH]; [reflexivity|].
  cbn [repeat fold_left]. rewrite promote_same. exact IH.
Qed.

(** The array made of one Python number repeated: its entries are not
    rounded, and its conversion, when there is one, reduces the number
    to 64 bits. *)
Lemma repeated_array a n :
  snd (int_array (repeat a n)) = repeat a n /\
  (forall el, np_array_int (int_array (repeat a n)) = Ok el ->
     el = repeat (wrap a) n) /\
  (int_min <= a <= uint_max ->
   exists el, np_array_int (int_array (repeat a n)) = Ok el).
Proof.
  destruct n as [|n].
  - cbn. repeat split; [intros el [= <-]; reflexivity | eauto].
  - unfold int_array. rewrite result_type_repeat. unfold discover.
    destruct (fits a) eqn:Hf.
    + cbn [snd np_array_int]. rewrite map_repeat.
      repeat split; [intros el [= <-]; reflexivity | eauto].
    + destruct ((0 <=? a) && (a <=? uint_max)) eqn:Hu.
      * cbn [snd np_array_int]. rewrite map_repeat.
        repeat split; [intros el [= <-]; reflexivity | eauto].
      * cbn [snd np_array_int repeat forallb]. rewrite Hf. cbn [andb].
        repeat split; [discriminate|].
        intros [Hlo Hhi]. exfalso.
        apply andb_false_iff in Hu. rewrite Z.leb_gt, Z.leb_gt in Hu.
        assert (Hn : ~ (int_min <= a <= int_max))
          by (rewrite <- fits_iff, Hf; discriminate).
        unfold int_min, int_max, uint_max in *. lia.
Qed.

Lemma configured_scalar self nx a :
  num_elements (options self) = Scalar a ->
  configured_array self nx = int_array (repeat a nx) /\
  normalize_option int_array nx (num_elements (options self))
  = Array (fst (int_array (repeat a nx))) (snd (int_array (repeat a nx))).
Proof.
  intros Ha. unfold configured_array. rewrite Ha.
  unfold normalize_option. cbn [atleast_1d].
  destruct (int_array (repeat a nx)) as [d l]. split; reflexivity.
Qed.

(** C9, as amended: a num_elements (or smoothness) option given as one
    Python number (an instance of int or float) is replicated by
    [_initialize] into an array of nx entries; elem_list has one entry
    per input, that number converted to the 64-bit integer (the number
    itself when it fits), and the counts elem, uniq, coeff and dof are
    computed from that list. [_initialize] returns whenever the number
    lies between [-2**63] and [2**64 - 1] and nx is below 63. *)
Theorem scalar_options_replicated self xt yt :
  tp_lookup 0 (training_points self) = Some (xt, yt) ->
  (forall a, num_elements (options self) = Scalar a ->
     (int_min <= a <= uint_max -> (shape1 xt < 63)%nat ->
      exists s', _initialize self = ([], Ok s')) /\
     forall s', outcome (_initialize self) = Ok s' ->
       exists nm,
         num s' = Some nm /\
         values (num_elements (options s')) = repeat a (shape1 xt) /\
         num_elem_list nm = repeat (wrap a) (shape1 xt) /\
         (fits a = true -> num_elem_list nm = repeat a (shape1 xt)) /\
         length (num_elem_list nm) = num_x nm /\
         num_elem nm = prod (num_elem_list nm) /\
         num_uniq_list nm = shift (num_elem_list nm) 1 /\
         num_uniq nm = prod (shift (num_elem_list nm) 1) /\
         num_coeff nm = mul (num_term nm) (prod (num_elem_list nm)) /\
         num_dof nm = mul (prod (shift (num_elem_list nm) 1))
                          (2 ^ Z.of_nat (shape1 xt))) /\
  (forall q, smoothness (options self) = Scalar q ->
     forall s', outcome (_initialize self) = Ok s' ->
       smoothness (options s') = Array float64 (repeat q (shape1 xt)) /\
       exists nm,
         num s' = Some nm /\
         length (values (smoothness (options s'))) = num_x nm).
Proof.
  intros Hl. split.
  - intros a Ha.
    destruct (configured_scalar self (shape1 xt) Ha) as [Hca Hno].
    destruct (repeated_array a (shape1 xt)) as (Hval & Hconv & Hret).
    split.
    + intros Hr Hnx. destruct (Hret Hr) as [el Hel].
      apply (_initialize_returns self Hl (el := el)); [|exact (pow2_fits Hnx)].
      unfold converted_elements. rewrite Hca. exact Hel.
    + intros s' Ho.
      destruct (_initialize_stored _ Ho)
        as (xt' & yt' & el & Hl' & Hel & _ & Hopt & _ & Hnum).
      rewrite Hl in Hl'. injection Hl' as <- <-.
      unfold converted_elements in Hel. rewrite Hca in Hel.
      apply Hconv in Hel. subst el.
      eexists. split; [exact Hnum|].
      rewrite Hopt. cbn [num_elements]. rewrite Hno. cbn [values].
      cbn [num_of num_elem_list num_x num_elem num_uniq_list num_uniq
           num_coeff num_dof num_term].
      rewrite repeat_length.
      split; [exact Hval|]. split; [reflexivity|]. split.
      * intros Hf. rewrite wrap_small by (apply fits_iff; exact Hf).
        reflexivity.
      * repeat split; reflexivity.
  - intros q Hq s' Ho.
    destruct (_initialize_stored _ Ho)
      as (xt' & yt' & el & Hl' & _ & _ & Hopt & _ & Hnum).
    rewrite Hl in Hl'. injection Hl' as <- <-.
    rewrite Hopt. cbn [smoothness]. rewrite Hq.
    cbn [normalize_option atleast_1d float_array values].
    split; [reflexivity|].
    eexists. split; [exact Hnum|]. cbn [num_of num_x].
    apply repeat_length.
Qed.

Lemma scalar_options_replicated_witness :
  exists s' nm,
    _initialize EdgeCases.uniform = ([], Ok s') /\ num s' = Some nm /\
    num_x nm = 3%nat /\
    values (num_elements (options s')) = [4; 4; 4] /\
    num_elem_list nm = [4; 4; 4] /\
    smoothness (options s') = Array float64 [1%Q; 1%Q; 1%Q].
Proof.
  destruct (@scalar_options_replicated EdgeCases.uniform
              (Examples.empty_array 5 3) (Examples.empty_array 5 1) eq_refl)
    as [Helems Hsmooth].
  destruct (Helems 4 eq_refl) as [Htotal Hpartial].
  destruct (Htotal ltac:(vm_compute; split; discriminate)
                   ltac:(simpl; lia)) as [s' Hs'].
  assert (Ho : outcome (_initialize EdgeCases.uniform) = Ok s')
    by (rewrite Hs'; reflexivity).
  destruct (Hpartial s' Ho) as (nm & Hn & Hv & _ & He & _).
  destruct (Hsmooth 1%Q eq_refl s' Ho) as (Hq & _).
  exists s', nm. split; [exact Hs'|]. split; [exact Hn|].
  split; [|split; [exact Hv|split; [exact (He eq_refl)|exact Hq]]].
  destruct (_initialize_stored _ Ho)
    as (xt & yt & el & Hl & _ & _ & _ & _ & Hnum).
  rewrite Hnum in Hn. injection Hn as <-.
  injection Hl as <- <-. reflexivity.
Defined.

(** C9, as stated, fails: an element count of 65 bits given as one
    Python number makes [_initialize] raise OverflowError, so that no
    elem_list comes out of the replicated array; and one NumPy integer,
    [np.int64(3)], which the replication test does not take for a
    number, is not replicated: over two inputs elem_list is [[3]]. *)
Lemma scalar_not_always_replicated :
  outcome (_initialize EdgeCases.huge_count) = Raise OverflowError /\
  (exists s' nm,
     _initialize EdgeCases.numpy_count = ([], Ok s') /\ num s' = Some nm /\
     num_x nm = 2%nat /\ num_elem_list nm = [3]) /\
  ~ scalars_replicated.
Proof.
  split; [reflexivity|].
  assert (Hrun : _initialize EdgeCases.numpy_count
                 = ([], Ok (Examples.ready EdgeCases.numpy_count)))
    by (vm_compute; reflexivity).
  split.
  - eexists. eexists. split; [exact Hrun|]. repeat split.
  - intros H.
    specialize (H EdgeCases.numpy_count (Examples.ready EdgeCases.numpy_count)
                  _ I ltac:(rewrite Hrun; reflexivity) eq_refl).
    vm_compute in H. discriminate.
Qed.

Lemma shapes_lookup tp1 tp2 k xt yt :
  shapes tp1 = shapes tp2 -> tp_lookup k tp1 = Some (xt, yt) ->
  exists xt' yt', tp_lookup k tp2 = Some (xt', yt') /\
                  shape xt' = shape xt /\ shape yt' = shape yt.
Proof.
  revert tp2. induction tp1 as [|[k1 [x1 y1]] tp1 IH];
    intros [|[k2 [x2 y2]] tp2] Hs Hl; try discriminate.
  cbn in Hs. injection Hs as Hk Hx0 Hx1 Hy0 Hy1 Hs. subst k2.
  cbn [tp_lookup] in *. destruct (Nat.eqb k1 k).
  - injection Hl as <- <-. exists x2, y2. unfold shape.
    rewrite Hx0, Hx1, Hy0, Hy1. auto.
  - apply IH; assumption.
Qed.

Lemma rows_total_shapes tp1 tp2 :
  shapes tp1 = shapes tp2 -> rows_total tp1 = rows_total tp2.
Proof.
  unfold rows_total. generalize 0%nat. revert tp2.
  induction tp1 as [|[k1 [x1 y1]] tp1 IH];
    intros [|[k2 [x2 y2]] tp2] acc Hs; try discriminate; [reflexivity|].
  cbn in Hs. injection Hs as Hk Hx0 Hx1 Hy0 Hy1 Hs.
  cbn [fold_left fst snd]. rewrite Hx0.
  apply IH. exact Hs.
Qed.

(** C10: the number of inputs nx that [_initialize] uses is the number of
    columns of the stored training inputs and the number of outputs is the
    number of columns of the training outputs; neither is read from the
    options, and the whole of [num] depends on the training data through
    the shapes of its arrays only: an object with arrays of the same
    shapes and the same num_elements gets the same [num]. *)
Theorem dimensions_from_training_data self xt yt :
  tp_lookup 0 (training_points self) = Some (xt, yt) ->
  (forallb fits (configured_elements self (shape1 xt)) = true ->
   (shape1 xt < 63)%nat ->
   exists s', _initialize self = ([], Ok s')) /\
  forall s', outcome (_initialize self) = Ok s' ->
    exists nm,
      num s' = Some nm /\
      num_x nm = shape1 xt /\ num_y nm = shape1 yt /\
      num_term_list nm = scale 4 (ones (shape1 xt)) /\
      num_term nm = prod (scale 4 (ones (shape1 xt))) /\
      forall other,
        shapes (training_points other) = shapes (training_points self) ->
        num_elements (options other) = num_elements (options self) ->
        exists o', _initialize other = ([], Ok o') /\ num o' = Some nm.
Proof.
  intros Hl. split.
  - intros Hf Hnx. exact (_initialize_total self Hl Hf (pow2_fits Hnx)).
  - intros s' Ho.
    destruct (_initialize_stored _ Ho)
      as (xt' & yt' & el & Hl' & Hel & H2 & _ & _ & Hnum).
    rewrite Hl in Hl'. injection Hl' as <- <-.
    eexists. split; [exact Hnum|].
    repeat (split; [reflexivity|]).
    intros other Hsh Hne.
    destruct (@shapes_lookup _ _ _ _ _ (eq_sym Hsh) Hl)
      as (xo & yo & Hlo & Hxo & Hyo).
    unfold shape in Hxo, Hyo.
    injection Hxo as Hx0 Hx1. injection Hyo as Hy0 Hy1.
    assert (Hce : converted_elements other (shape1 xo) = Ok el).
    { unfold converted_elements, configured_array in *.
      rewrite Hne, Hx1. exact Hel. }
    assert (H2o : fits (2 ^ Z.of_nat (shape1 xo)) = true)
      by (rewrite Hx1; exact H2).
    destruct (_initialize_returns other Hlo Hce H2o) as [o' Ho'].
    exists o'. split; [exact Ho'|].
    assert (Hoo : outcome (_initialize other) = Ok o')
      by (rewrite Ho'; reflexivity).
    destruct (_initialize_stored _ Hoo)
      as (xo' & yo' & el' & Hlo' & Hel' & _ & _ & _ & Hnumo).
    rewrite Hlo in Hlo'. injection Hlo' as <- <-.
    rewrite Hce in Hel'. injection Hel' as <-.
    rewrite Hnumo, Hx1, Hy1, (@rows_total_shapes _ _ Hsh). reflexivity.
Qed.

Lemma dimensions_from_training_data_witness :
  exists s' nm,
    _initialize Examples.square_grid = ([], Ok s') /\ num s' = Some nm /\
    num_x nm = 2%nat /\ num_y nm = 1%nat.
Proof.
  destruct (@dimensions_from_training_data Examples.square_grid
              (Examples.empty_array 5 2) (Examples.empty_array 5 1) eq_refl)
    as [Htotal Hpartial].
  destruct (Htotal eq_refl ltac:(simpl; lia)) as [s' Hs'].
  destruct (Hpartial s' ltac:(rewrite Hs'; reflexivity))
    as (nm & Hn & Hx & Hy & _).
  exists s', nm. repeat split; assumption.
Defined.

Lemma num_of_counts x y t el :
  valid_configuration x el -> representable x el ->
  derived_counts (num_of x y t el (mul (prod (shift el 1)) (2 ^ Z.of_nat x))).
Proof.
  intros (Hnx & Hlen & Hpos) Hrep.
  destruct (representable_fits Hpos Hrep) as (Hf & H2 & Hlt & He & H4 & Hu).
  destruct Hrep as [Hc Hd].
  pose proof (Zprod_pos Hpos) as Hpe.
  pose proof (Zprod_pos (Zprod_succ_pos Hpos)) as Hpu.
  assert (Hp4 : (0 < 4 ^ Z.of_nat x)%Z) by (apply Z.pow_pos_nonneg; lia).
  assert (Hp2 : (0 < 2 ^ Z.of_nat x)%Z) by (apply Z.pow_pos_nonneg; lia).
  unfold derived_counts, num_of; cbn [num_term num_x num_uniq num_elem_list
    num_dof num_elem num_coeff num_support].
  rewrite (term_exact _ H4), (shift_exact Hpos Hlt).
  rewrite (prod_exact (Zprod_succ_pos Hpos) Hu), (prod_exact Hpos He).
  repeat split; apply mul_exact; lia.
Qed.

Lemma initialized_counts s nm :
  initialized s -> num s = Some nm ->
  valid_configuration (num_x nm) (num_elem_list nm) ->
  representable (num_x nm) (num_elem_list nm) ->
  derived_counts nm.
Proof.
  intros [s0 H0] Hn.
  destruct (_initialize_stored _ H0)
    as (xt & yt & el & _ & _ & _ & _ & _ & Hnum).
  rewrite Hnum in Hn. injection Hn as <-.
  cbn [num_of num_x num_elem_list]. apply num_of_counts.
Qed.

End InitializeClaims.

(** ** Claims on the methods, for any library *)

Module MethodClaims.
Import NumPy Counts NumPyFacts InitializeFacts.

(** Case analysis on the next step of a run that can raise. *)
Ltac step_result :=
  match goal with
  | |- context [match ?x with Ok _ => _ | Raise _ => _ end] =>
      destruct x eqn:?
  end.

Section AnyLibrary.

Variable lib : RMTClib.
Variable linalg_inv : matrix -> option matrix.

Lemma _compute_dof2coeff_unfold self nm :
  num self = Some nm ->
  _compute_dof2coeff lib linalg_inv self =
  match linalg_inv (compute_coeff2nodal lib (num_x nm) (num_term nm)) with
  | None => ([Call_compute_coeff2nodal; Call_linalg_inv], Raise LinAlgError)
  | Some inv_block =>
      ([Call_compute_coeff2nodal; Call_linalg_inv] ++ calls (assemble lib nm inv_block),
       outcome (assemble lib nm inv_block))
  end.
Proof.
  intros Hn. unfold _compute_dof2coeff, assemble, the_num. rewrite Hn.
  cbn [lift bind traced app].
  destruct (linalg_inv _) as [b|]; cbn [lift]; [|reflexivity].
  repeat (step_result; cbn; [|reflexivity]). reflexivity.
Qed.

Lemma assemble_never_inverts nm b :
  times_called Call_linalg_inv (calls (assemble lib nm b)) = 0%nat.
Proof.
  unfold assemble, calls, times_called, bind, traced, ret.
  repeat (step_result; cbn; [|reflexivity]). reflexivity.
Qed.

(** C4, as amended: when [np.linalg.inv] raises LinAlgError on the Local
    Basis Transform, [_compute_dof2coeff] ends in that error right after
    the call, having called the inversion once and assembled nothing, so
    no operator is produced and nothing is retried. The method has no
    test of its own for a singular matrix: in every run the inversion is
    called exactly once, and an operator is returned only when the
    inversion returned a matrix, which is an inverse, and the transform
    invertible, when the inversion routine is exact. *)
Theorem singular_transform_is_fatal self nm :
  num self = Some nm ->
  (reported_singular linalg_inv
     (compute_coeff2nodal lib (num_x nm) (num_term nm)) ->
   _compute_dof2coeff lib linalg_inv self
   = ([Call_compute_coeff2nodal; Call_linalg_inv], Raise LinAlgError) /\
   forall op, outcome (_compute_dof2coeff lib linalg_inv self) <> Ok op) /\
  times_called Call_linalg_inv (calls (_compute_dof2coeff lib linalg_inv self))
  = 1%nat /\
  (forall op, outcome (_compute_dof2coeff lib linalg_inv self) = Ok op ->
     exists inv_block,
       linalg_inv (compute_coeff2nodal lib (num_x nm) (num_term nm))
       = Some inv_block /\
       (exact_inverse linalg_inv ->
        invertible (compute_coeff2nodal lib (num_x nm) (num_term nm)))).
Proof.
  intros Hn. rewrite (_compute_dof2coeff_unfold _ Hn).
  unfold reported_singular.
  destruct (linalg_inv _) as [b|] eqn:Hb.
  - split; [discriminate|]. split.
    + cbn [calls fst]. unfold times_called in *.
      rewrite filter_app, length_app.
      pose proof (assemble_never_inverts nm b) as H0.
      unfold times_called in H0. rewrite H0. reflexivity.
    + intros op _. exists b. split; [reflexivity|].
      intros Hex. exists b. exact (Hex _ _ Hb).
  - split; [|split].
    + intros _. split; [reflexivity|]. intros op. discriminate.
    + reflexivity.
    + intros op. discriminate.
Qed.

Lemma initialized_num s nm :
  initialized s -> num s = Some nm ->
  num_term nm = prod (scale 4 (ones (num_x nm))) /\
  num_elem nm = prod (num_elem_list nm) /\
  num_uniq nm = prod (shift (num_elem_list nm) 1).
Proof.
  intros [s0 H0] Hn.
  destruct (_initialize_stored _ H0)
    as (xt & yt & el & _ & _ & _ & _ & _ & Hnum).
  rewrite Hnum in Hn. injection Hn as <-. repeat split.
Qed.

(** C8: the operator of [_compute_dof2coeff] is a function of the grid
    configuration (nx, elem_list) alone, and the result of
    [_compute_jac_raw] a function of (ix1, ix2, x, elem_list, xlimits)
    alone: two initialized objects that agree on these give identical
    results, calls and exceptions included, whatever else differs between
    them (training data, other options, printer). *)
Theorem results_depend_on_inputs_only s1 s2 nm1 nm2 :
  initialized s1 -> initialized s2 ->
  num s1 = Some nm1 -> num s2 = Some nm2 ->
  num_elem_list nm1 = num_elem_list nm2 ->
  (num_x nm1 = num_x nm2 ->
   _compute_dof2coeff lib linalg_inv s1 = _compute_dof2coeff lib linalg_inv s2)
  /\
  (length (num_elem_list nm1) = num_x nm1 ->
   length (num_elem_list nm2) = num_x nm2 ->
   xlimits (options s1) = xlimits (options s2) ->
   forall ix1 ix2 x,
     _compute_jac_raw lib s1 ix1 ix2 x = _compute_jac_raw lib s2 ix1 ix2 x).
Proof.
  intros I1 I2 H1 H2 He.
  destruct (initialized_num I1 H1) as (Ht1 & Hm1 & Hu1).
  destruct (initialized_num I2 H2) as (Ht2 & Hm2 & Hu2).
  split.
  - intros Hx.
    rewrite (_compute_dof2coeff_unfold _ H1), (_compute_dof2coeff_unfold _ H2).
    unfold assemble.
    rewrite Ht1, Hm1, Hu1, Ht2, Hm2, Hu2, He, Hx. reflexivity.
  - intros L1 L2 Hxl ix1 ix2 x.
    assert (Hx : num_x nm1 = num_x nm2) by congruence.
    unfold _compute_jac_raw, the_num. rewrite H1, H2. cbn [lift bind].
    rewrite Ht1, Ht2, He, Hx, Hxl. reflexivity.
Qed.

End AnyLibrary.

Lemma singular_transform_is_fatal_witness :
  _compute_dof2coeff Examples.degenerate_lib Exact.linalg_inv
    (Examples.ready Examples.interval)
  = ([Call_compute_coeff2nodal; Call_linalg_inv], Raise LinAlgError).
Proof.
  refine (proj1 (proj1 (@singular_transform_is_fatal
            Examples.degenerate_lib Exact.linalg_inv
            (Examples.ready Examples.interval) _ _) _)).
  - reflexivity.
  - reflexivity.
Defined.

(** C4, as stated, fails: the method trusts the inversion routine. A
    Local Basis Transform with two proportional rows is singular, and
    with an inversion routine that finds no zero pivot in it and returns
    a matrix, as a factorization in floating point can, the method
    assembles and returns an operator. *)
Lemma singular_transform_can_pass :
  singular EdgeCases.singular_block /\
  (exists op,
     _compute_dof2coeff EdgeCases.singular_lib EdgeCases.lenient_inv
       (Examples.ready Examples.interval)
     = ([Call_compute_coeff2nodal; Call_linalg_inv;
         Call_compute_uniq2elem; Call_compute_full_from_block], Ok op)) /\
  ~ singular_is_fatal.
Proof.
  assert (Hs : singular EdgeCases.singular_block).
  { exists [1; -1 # 1; 0; 0]%Q. split; [reflexivity|]. split.
    - intros H. apply Forall_inv in H. vm_compute in H. discriminate.
    - repeat constructor; vm_compute; reflexivity. }
  assert (Hrun : exists op,
     _compute_dof2coeff EdgeCases.singular_lib EdgeCases.lenient_inv
       (Examples.ready Examples.interval)
     = ([Call_compute_coeff2nodal; Call_linalg_inv;
         Call_compute_uniq2elem; Call_compute_full_from_block], Ok op))
    by (eexists; vm_compute; reflexivity).
  split; [exact Hs|]. split; [exact Hrun|].
  destruct Hrun as [op Hop]. intros H.
  apply (H EdgeCases.singular_lib EdgeCases.lenient_inv
           (Examples.ready Examples.interval) _ op eq_refl).
  - exact Hs.
  - rewrite Hop. reflexivity.
Qed.

Lemma rmtclib_uniq2elem :
  compute_uniq2elem Lib.rmtclib = Lib.compute_uniq2elem.
Proof. reflexivity. Qed.

Lemma rmtclib_full_from_block :
  compute_full_from_block Lib.rmtclib = Lib.compute_full_from_block.
Proof. reflexivity. Qed.

Lemma rmtclib_coeff2nodal :
  compute_coeff2nodal Lib.rmtclib = Lib.compute_coeff2nodal.
Proof. reflexivity. Qed.

Lemma rmtclib_jac : compute_jac Lib.rmtclib = Lib.compute_jac.
Proof. reflexivity. Qed.

Lemma ready_initialized self s :
  outcome (_initialize self) = Ok s -> initialized (Examples.ready self).
Proof.
  intros H. exists self. unfold Examples.ready. rewrite H. reflexivity.
Qed.

Lemma results_depend_on_inputs_only_witness :
  _compute_dof2coeff Lib.rmtclib Exact.linalg_inv
    (Examples.ready Examples.interval)
  = _compute_dof2coeff Lib.rmtclib Exact.linalg_inv
      (Examples.ready Examples.interval_again)
  /\
  forall ix1 ix2 x,
    _compute_jac_raw Lib.rmtclib (Examples.ready Examples.interval) ix1 ix2 x
    = _compute_jac_raw Lib.rmtclib (Examples.ready Examples.interval_again)
        ix1 ix2 x.
Proof.
  destruct (@results_depend_on_inputs_only Lib.rmtclib Exact.linalg_inv
              (Examples.ready Examples.interval)
              (Examples.ready Examples.interval_again) _ _
              (ready_initialized Examples.interval eq_refl)
              (ready_initialized Examples.interval_again eq_refl)
              eq_refl eq_refl eq_refl) as [Hd Hj].
  split.
  - apply Hd. reflexivity.
  - apply Hj; reflexivity.
Defined.

End MethodClaims.

(** ** Row-major indexing *)

Module IndexFacts.
Import Lib Counts.
Local Open Scope nat_scope.

Lemma expand_index_length dims k : length (expand_index dims k) = length dims.
Proof.
  revert k. induction dims as [|d ds IH]; intros k; simpl; [reflexivity|].
  now rewrite IH.
Qed.

Lemma expand_in_grid dims k :
  k < prodn dims -> in_grid (expand_index dims k) dims.
Proof.
  revert k. induction dims as [|d ds IH]; intros k Hk; simpl in *.
  - constructor.
  - assert (Hp : prodn ds <> 0) by (intros E; rewrite E in Hk; lia).
    constructor.
    + apply Nat.Div0.div_lt_upper_bound. lia.
    + apply IH. apply Nat.mod_upper_bound. exact Hp.
Qed.

Lemma contract_expand dims k :
  k < prodn dims -> contract_index dims (expand_index dims k) = k.
Proof.
  revert k. induction dims as [|d ds IH]; intros k Hk; simpl in *.
  - lia.
  - assert (Hp : prodn ds <> 0) by (intros E; rewrite E in Hk; lia).
    rewrite IH by (apply Nat.mod_upper_bound; exact Hp).
    pose proof (Nat.div_mod_eq k (prodn ds)). lia.
Qed.

Lemma contract_lt dims idx :
  in_grid idx dims -> contract_index dims idx < prodn dims.
Proof.
  induction 1 as [|i d idx ds Hi _ IH]; simpl; [lia|]. nia.
Qed.

Lemma expand_contract dims idx :
  in_grid idx dims -> expand_index dims (contract_index dims idx) = idx.
Proof.
  induction 1 as [|i d idx ds Hi Hr IH]; simpl; [reflexivity|].
  pose proof (contract_lt Hr) as Hlt.
  assert (Hp : prodn ds <> 0) by lia.
  replace (i * prodn ds + contract_index ds idx)
    with (contract_index ds idx + i * prodn ds) by lia.
  rewrite Nat.div_add, Nat.Div0.mod_add by exact Hp.
  rewrite Nat.div_small, Nat.mod_small by exact Hlt.
  simpl. now rewrite IH.
Qed.

Lemma contract_inj dims idx1 idx2 :
  in_grid idx1 dims -> in_grid idx2 dims ->
  contract_index dims idx1 = contract_index dims idx2 -> idx1 = idx2.
Proof.
  intros H1 H2 E.
  rewrite <- (expand_contract H1), <- (expand_contract H2). now rewrite E.
Qed.

Lemma prodn_repeat d n : prodn (repeat d n) = d ^ n.
Proof. induction n as [|n IH]; simpl; [reflexivity|]. now rewrite IH. Qed.

Lemma prodn_twos_pos nx : 0 < prodn (twos nx).
Proof.
  unfold twos. rewrite prodn_repeat.
  apply Nat.neq_0_lt_0, Nat.pow_nonzero. discriminate.
Qed.

Lemma prodn_fours nx : prodn (fours nx) = prodn (twos nx) * prodn (twos nx).
Proof.
  unfold fours, twos. rewrite !prodn_repeat.
  change 4 with (2 * 2). now rewrite Nat.pow_mul_l.
Qed.

Lemma seq_offset a m : seq a m = map (Nat.add a) (seq 0 m).
Proof.
  revert a. induction m as [|m IH]; intros a; [reflexivity|].
  cbn [seq map]. rewrite Nat.add_0_r. f_equal.
  rewrite <- (seq_shift m 0), map_map, (IH (S a)).
  apply map_ext. intros j. lia.
Qed.

(** Two nested loops over a row-major pair of indices visit the linear
    indices in order. *)
Lemma flat_map_seq_rows {A} (f : nat -> A) n m :
  flat_map (fun i => map (fun j => f (i * m + j)) (seq 0 m)) (seq 0 n)
  = map f (seq 0 (n * m)).
Proof.
  induction n as [|n IH].
  - reflexivity.
  - rewrite seq_S, flat_map_app, IH. cbn [flat_map]. rewrite app_nil_r.
    replace (S n * m) with (n * m + m) by lia.
    rewrite seq_app, map_app. f_equal. cbn [plus].
    rewrite (seq_offset (n * m)), map_map. reflexivity.
Qed.

End IndexFacts.

(** ** Counting in lists *)

Module CountFacts.
Local Open Scope nat_scope.

Lemma list_sum_cons a l : list_sum (a :: l) = a + list_sum l.
Proof. reflexivity. Qed.

Lemma filter_length_flat_map {A B} (P : B -> bool) (f : A -> list B) l :
  length (filter P (flat_map f l))
  = list_sum (map (fun x => length (filter P (f x))) l).
Proof.
  induction l as [|x l IH]; [reflexivity|].
  cbn [flat_map map]. rewrite list_sum_cons, filter_app, length_app, IH.
  reflexivity.
Qed.

Lemma filter_map_swap {A B} (P : B -> bool) (f : A -> B) l :
  filter P (map f l) = map f (filter (fun x => P (f x)) l).
Proof.
  induction l as [|x l IH]; [reflexivity|].
  cbn [map filter]. destruct (P (f x)); cbn [map]; now rewrite IH.
Qed.

Lemma filter_length_indicator {A} (P : A -> bool) l :
  length (filter P l) = list_sum (map (fun x => if P x then 1 else 0) l).
Proof.
  induction l as [|x l IH]; [reflexivity|].
  cbn [filter map]. rewrite list_sum_cons.
  destruct (P x); cbn [length]; lia.
Qed.

Lemma list_sum_ext_in {A} (f g : A -> nat) l :
  (forall x, In x l -> f x = g x) ->
  list_sum (map f l) = list_sum (map g l).
Proof. intros H. f_equal. apply map_ext_in. exact H. Qed.

Lemma filter_none {A} (P : A -> bool) l :
  (forall x, In x l -> P x = false) -> filter P l = [].
Proof.
  induction l as [|x l IH]; intros H; [reflexivity|].
  cbn [filter]. rewrite (H x (or_introl eq_refl)).
  apply IH. intros y Hy. apply H. now right.
Qed.

(** A predicate that holds at exactly one index below [n] keeps that
    index alone. *)
Lemma filter_seq_unique (P : nat -> bool) n k :
  k < n -> (forall i, i < n -> (P i = true <-> i = k)) ->
  filter P (seq 0 n) = [k].
Proof.
  intros Hk HP.
  replace n with (k + (1 + (n - S k))) by lia.
  rewrite !seq_app, !filter_app. cbn [seq filter plus].
  assert (Hpk : P k = true) by (apply HP; [lia|reflexivity]).
  rewrite Hpk.
  rewrite (@filter_none _ P (seq 0 k)), (@filter_none _ P (seq (k + 1) _)).
  - reflexivity.
  - intros i Hi. apply in_seq in Hi.
    destruct (P i) eqn:E; [|reflexivity].
    apply HP in E; lia.
  - intros i Hi. apply in_seq in Hi.
    destruct (P i) eqn:E; [|reflexivity].
    apply HP in E; lia.
Qed.

Lemma filter_seq_at_most_one (P : nat -> bool) n :
  (forall i j, i < n -> j < n -> P i = true -> P j = true -> i = j) ->
  length (filter P (seq 0 n)) <= 1.
Proof.
  intros H.
  destruct (filter P (seq 0 n)) as [|k l] eqn:E; [simpl; lia|].
  assert (Hk : In k (filter P (seq 0 n))) by (rewrite E; now left).
  apply filter_In in Hk. destruct Hk as [Hk Pk]. apply in_seq in Hk.
  rewrite (@filter_seq_unique P n k) in E.
  - injection E as <-. simpl. lia.
  - lia.
  - intros i Hi. split; [intros Pi; apply H; assumption || lia|].
    intros ->. exact Pk.
Qed.

Lemma NoDup_map_on {A B} (f : A -> B) l :
  (forall x y, In x l -> In y l -> f x = f y -> x = y) ->
  NoDup l -> NoDup (map f l).
Proof.
  intros Hinj Hnd. induction Hnd as [|x l Hx Hnd IH]; [constructor|].
  cbn [map]. constructor.
  - intros Hin. apply in_map_iff in Hin. destruct Hin as (y & Hy & Hyl).
    assert (y = x) by (apply Hinj; [now right | now left | exact Hy]).
    subst y. contradiction.
  - apply IH. intros a b Ha Hb. apply Hinj; now right.
Qed.

End CountFacts.

(** ** Corners, nodes and sharing *)

Module SharingFacts.
Import Lib Counts IndexFacts CountFacts.
Local Open Scope nat_scope.

Lemma shares_cons a e b u :
  shares (a :: e) (b :: u) = ((a <=? b) && (b <=? S a)) && shares e u.
Proof. reflexivity. Qed.

Lemma vadd_length e c :
  length e = length c -> length (vadd e c) = length e.
Proof.
  revert c. induction e as [|x e IH]; intros [|y c] H; simpl in *;
    try discriminate; [reflexivity|]. now rewrite IH by lia.
Qed.

Lemma vadd_in_grid e c dims :
  in_grid e dims -> in_grid c (repeat 2 (length dims)) ->
  in_grid (vadd e c) (map S dims).
Proof.
  intros He. revert c. induction He as [|x d e ds Hx _ IH]; intros c Hc.
  - constructor.
  - inversion Hc as [|y two c' twos' Hy Hc']; subst.
    cbn [vadd map]. constructor; [lia|]. apply IH. exact Hc'.
Qed.

(** A corner of an element is a node the element shares. *)
Lemma vadd_shares e c u :
  in_grid c (repeat 2 (length e)) -> vadd e c = u -> shares e u = true.
Proof.
  revert c u. induction e as [|x e IH]; intros c u Hc Hu.
  - reflexivity.
  - inversion Hc as [|y two c' twos' Hy Hc']; subst.
    cbn [vadd shares combine forallb fst snd].
    apply andb_true_iff. split.
    + apply andb_true_iff. split; apply Nat.leb_le; lia.
    + apply (IH c'); [exact Hc'|reflexivity].
Qed.

(** A shared node is the corner given by the difference of the indices. *)
Lemma shares_corner e u :
  length e = length u -> shares e u = true ->
  in_grid (vsub u e) (repeat 2 (length e)) /\ vadd e (vsub u e) = u.
Proof.
  revert u. induction e as [|x e IH]; intros [|y u] Hl Hs;
    try discriminate.
  - split; [constructor|reflexivity].
  - cbn [shares combine forallb fst snd] in Hs.
    apply andb_true_iff in Hs. destruct Hs as [Hxy Hs].
    apply andb_true_iff in Hxy. destruct Hxy as [H1 H2].
    apply Nat.leb_le in H1, H2.
    destruct (IH u) as [Hg Ha]; [simpl in Hl; lia | exact Hs |].
    cbn [vsub vadd length repeat]. split.
    + constructor; [lia|exact Hg].
    + rewrite Ha. f_equal. lia.
Qed.

Lemma vadd_cancel e c u :
  length e = length c -> vadd e c = u -> c = vsub u e.
Proof.
  revert c u. induction e as [|x e IH]; intros [|y c] u Hl Hu;
    try discriminate; subst u.
  - reflexivity.
  - cbn [vadd vsub]. f_equal; [lia|].
    apply IH; [simpl in Hl; lia|reflexivity].
Qed.

Lemma vadd_cancel_l e1 e2 c :
  length e1 = length c -> length e2 = length c ->
  vadd e1 c = vadd e2 c -> e1 = e2.
Proof.
  revert e2 c. induction e1 as [|x e1 IH]; intros [|y e2] [|z c] H1 H2 H;
    try discriminate; [reflexivity|].
  cbn [vadd] in H. injection H as Hx Hr. f_equal; [lia|].
  apply (IH e2 c); simpl in *; lia || assumption.
Qed.

Lemma flat_map_ext_on {A B} (f g : A -> list B) l :
  (forall x, In x l -> f x = g x) -> flat_map f l = flat_map g l.
Proof.
  induction l as [|x l IH]; intros H; [reflexivity|].
  cbn [flat_map]. rewrite (H x (or_introl eq_refl)), IH; [reflexivity|].
  intros y Hy. apply H. now right.
Qed.

Lemma flat_map_seq_rows' {A} (g : nat -> list A) (f : nat -> A) n m :
  (forall i, i < n -> g i = map (fun j => f (i * m + j)) (seq 0 m)) ->
  flat_map g (seq 0 n) = map f (seq 0 (n * m)).
Proof.
  intros H. rewrite <- flat_map_seq_rows.
  apply flat_map_ext_on. intros i Hi. apply in_seq in Hi.
  apply H; lia.
Qed.

Section Grid.

Variable nx : nat.
Variable el : list Z.
Hypothesis el_length : length el = nx.

Let NEL := nelem_list nx el.
Let NUL := nuniq_list nx el.
Let ND := prodn (twos nx).
Let NT := ND * ND.

Lemma NEL_length : length NEL = nx.
Proof.
  unfold NEL, nelem_list. rewrite firstn_all2; rewrite length_map; lia.
Qed.

Lemma NUL_length : length NUL = nx.
Proof. unfold NUL, nuniq_list. rewrite length_map. exact NEL_length. Qed.

Lemma ND_pos : 0 < ND.
Proof. apply prodn_twos_pos. Qed.

Lemma corner_in_grid ielem inode :
  ielem < prodn NEL -> inode < ND ->
  in_grid (vadd (expand_index NEL ielem) (expand_index (twos nx) inode)) NUL.
Proof.
  intros He Hn. unfold NUL, nuniq_list. apply vadd_in_grid.
  - apply expand_in_grid. exact He.
  - fold NEL. rewrite NEL_length. apply expand_in_grid. exact Hn.
Qed.

Lemma corner_node_lt ielem inode :
  ielem < prodn NEL -> inode < ND -> corner_node nx el ielem inode < prodn NUL.
Proof.
  intros He Hn. unfold corner_node. apply contract_lt.
  apply corner_in_grid; assumption.
Qed.

(** The Node Sharing Map lists its entries by rows: entry [r] is the 1 of
    row [r]. *)
Lemma uniq2elem_by_rows nnz :
  Lib.compute_uniq2elem nnz nx el
  = map (fun r => (1%Q, (r, uniq2elem_col nx el r))) (seq 0 (prodn NEL * NT)).
Proof.
  unfold Lib.compute_uniq2elem. fold NEL ND NT.
  pose proof ND_pos as Hd.
  assert (HT : 0 < NT) by (unfold NT; nia).
  apply flat_map_seq_rows'. intros ielem He.
  change (seq 0 NT) with (seq 0 (ND * ND)).
  apply (@flat_map_seq_rows' _ _
           (fun q => (1%Q, (ielem * NT + q,
                            uniq2elem_col nx el (ielem * NT + q))))).
  intros inode Hn.
  apply map_ext_in. intros ideriv Hi. apply in_seq in Hi.
  unfold uniq2elem_col. fold ND NT.
  assert (Hq : inode * ND + ideriv < NT) by (unfold NT; nia).
  replace ((ielem * NT + (inode * ND + ideriv)) / NT) with ielem
    by (apply Nat.div_unique with (inode * ND + ideriv); lia).
  replace ((ielem * NT + (inode * ND + ideriv)) mod NT)
    with (inode * ND + ideriv)
    by (apply Nat.mod_unique with ielem; lia).
  replace ((inode * ND + ideriv) / ND) with inode
    by (apply Nat.div_unique with ideriv; lia).
  replace ((inode * ND + ideriv) mod ND) with ideriv
    by (apply Nat.mod_unique with inode; lia).
  rewrite Nat.add_assoc. reflexivity.
Qed.

Lemma uniq2elem_length nnz :
  length (Lib.compute_uniq2elem nnz nx el) = prodn NEL * NT.
Proof. rewrite uniq2elem_by_rows, length_map, length_seq. reflexivity. Qed.

Lemma uniq2elem_row nnz r :
  r < prodn NEL * NT ->
  row_entries (Lib.compute_uniq2elem nnz nx el) r
  = [(1%Q, (r, uniq2elem_col nx el r))].
Proof.
  intros Hr. rewrite uniq2elem_by_rows. unfold row_entries.
  rewrite filter_map_swap. cbn [e_row fst snd].
  rewrite (@filter_seq_unique _ _ r Hr); [reflexivity|].
  intros i _. apply Nat.eqb_eq.
Qed.

Lemma uniq2elem_col_lt r :
  r < prodn NEL * NT -> uniq2elem_col nx el r < prodn NUL * ND.
Proof.
  intros Hr. unfold uniq2elem_col. fold ND NT.
  pose proof ND_pos as Hd.
  assert (HT : 0 < NT) by (unfold NT; nia).
  assert (He : r / NT < prodn NEL)
    by (apply Nat.Div0.div_lt_upper_bound; lia).
  assert (Hq : r mod NT < NT) by (apply Nat.mod_upper_bound; lia).
  assert (Hn : r mod NT / ND < ND)
    by (apply Nat.Div0.div_lt_upper_bound; exact Hq).
  assert (Hm : (r mod NT) mod ND < ND) by (apply Nat.mod_upper_bound; lia).
  pose proof (corner_node_lt He Hn). fold NUL. nia.
Qed.

Lemma deriv_count x c :
  length (filter (fun d => x * ND + d =? c) (seq 0 ND))
  = if x =? c / ND then 1 else 0.
Proof.
  pose proof ND_pos as Hd.
  pose proof (Nat.div_mod_eq c ND) as Hc.
  pose proof (Nat.mod_upper_bound c ND ltac:(lia)) as Hm.
  destruct (Nat.eqb_spec x (c / ND)) as [->|Hx].
  - rewrite (@filter_seq_unique _ _ (c mod ND) Hm); [reflexivity|].
    intros i Hi. rewrite Nat.eqb_eq. lia.
  - rewrite filter_none; [reflexivity|].
    intros d Hin. apply in_seq in Hin. apply Nat.eqb_neq. intros E.
    apply Hx. apply Nat.div_unique with d; lia.
Qed.

(** Of the corners of one element, exactly one is a given node when the
    element shares the node, none otherwise. *)
Lemma corner_count ielem u :
  ielem < prodn NEL -> u < prodn NUL ->
  length (filter (fun inode => corner_node nx el ielem inode =? u) (seq 0 ND))
  = if shares (expand_index NEL ielem) (expand_index NUL u) then 1 else 0.
Proof.
  intros He Hu.
  set (E := expand_index NEL ielem). set (U := expand_index NUL u).
  assert (HlE : length E = nx)
    by (unfold E; rewrite expand_index_length; exact NEL_length).
  assert (HlU : length U = nx)
    by (unfold U; rewrite expand_index_length; exact NUL_length).
  assert (Hcu : contract_index NUL U = u) by (apply contract_expand; exact Hu).
  assert (HgU : in_grid U NUL) by (apply expand_in_grid; exact Hu).
  assert (Hstep : forall inode, inode < ND ->
            (corner_node nx el ielem inode = u
             <-> vadd E (expand_index (twos nx) inode) = U)).
  { intros inode Hn. unfold corner_node. fold NEL NUL E. split.
    - intros Hc. apply (@contract_inj NUL).
      + apply corner_in_grid; assumption.
      + exact HgU.
      + now rewrite Hcu.
    - intros ->. exact Hcu. }
  destruct (shares E U) eqn:Hs.
  - destruct (@shares_corner E U) as [Hg Ha]; [lia | exact Hs |].
    rewrite HlE in Hg. fold (twos nx) in Hg.
    assert (Hk : contract_index (twos nx) (vsub U E) < ND)
      by (apply contract_lt; exact Hg).
    rewrite (@filter_seq_unique _ _ _ Hk); [reflexivity|].
    intros inode Hn. rewrite Nat.eqb_eq, (Hstep inode Hn). split.
    + intros Hv. apply vadd_cancel in Hv.
      * rewrite <- Hv. symmetry. apply contract_expand. exact Hn.
      * rewrite expand_index_length. unfold twos. rewrite repeat_length. lia.
    + intros ->. rewrite expand_contract by exact Hg. exact Ha.
  - rewrite filter_none; [reflexivity|].
    intros inode Hin. apply in_seq in Hin. apply Nat.eqb_neq. intros Hc.
    apply Hstep in Hc; [|lia].
    apply vadd_shares in Hc; [congruence|].
    rewrite HlE. apply (@expand_in_grid (twos nx)). lia.
Qed.

(** A column of the Node Sharing Map holds one entry per element sharing
    its node. *)
Lemma uniq2elem_column nnz c :
  c < prodn NUL * ND ->
  length (col_entries (Lib.compute_uniq2elem nnz nx el) c)
  = sharing_elements nx el (c / ND).
Proof.
  intros Hc. pose proof ND_pos as Hd.
  assert (Hu : c / ND < prodn NUL)
    by (apply Nat.Div0.div_lt_upper_bound; lia).
  unfold col_entries, Lib.compute_uniq2elem, sharing_elements.
  fold NEL NUL ND.
  rewrite filter_length_flat_map, filter_length_indicator.
  apply list_sum_ext_in. intros ielem He. apply in_seq in He.
  rewrite filter_length_flat_map.
  rewrite <- (corner_count (u := c / ND)) by lia.
  rewrite filter_length_indicator.
  apply list_sum_ext_in. intros inode Hn.
  rewrite filter_map_swap, length_map. cbn [e_col fst snd].
  apply deriv_count.
Qed.

Lemma clamp_below_in_grid u ne :
  in_grid u (map S ne) -> Forall (fun n => 1 <= n) ne ->
  in_grid (clamp_below u ne) ne /\ shares (clamp_below u ne) u = true.
Proof.
  revert u. induction ne as [|n ne IH]; intros u Hu Hp;
    inversion Hu as [|x sn u' sne Hx Hu']; subst.
  - split; [constructor|reflexivity].
  - inversion Hp as [|? ? Hn Hp']; subst.
    destruct (IH u' Hu' Hp') as [Hg Hs].
    cbn [clamp_below]. rewrite shares_cons. split.
    + constructor; [lia|exact Hg].
    + rewrite Hs, andb_true_r. apply andb_true_iff.
      split; apply Nat.leb_le; lia.
Qed.

Hypothesis el_pos : Forall (fun e => (0 < e)%Z) el.

Lemma NEL_pos : Forall (fun n => 1 <= n) NEL.
Proof.
  unfold NEL, nelem_list. rewrite firstn_all2 by (rewrite length_map; lia).
  apply Forall_map. eapply Forall_impl; [|exact el_pos]. simpl. lia.
Qed.

(** Every node is shared by at least one element and by at most as many
    as an element has corners. *)
Lemma sharing_elements_bounds u :
  u < prodn NUL -> 1 <= sharing_elements nx el u <= ND.
Proof.
  intros Hu. unfold sharing_elements. fold NEL NUL.
  set (U := expand_index NUL u).
  assert (HgU : in_grid U NUL) by (apply expand_in_grid; exact Hu).
  assert (HlU : length U = nx)
    by (unfold U; rewrite expand_index_length; exact NUL_length).
  set (P := fun ielem => shares (expand_index NEL ielem) U).
  split.
  - destruct (@clamp_below_in_grid U NEL HgU NEL_pos) as [Hg Hs].
    assert (Hin : In (contract_index NEL (clamp_below U NEL))
                     (filter P (seq 0 (prodn NEL)))).
    { apply filter_In. split.
      - apply in_seq. pose proof (contract_lt Hg). lia.
      - unfold P. rewrite expand_contract by exact Hg. exact Hs. }
    destruct (filter P (seq 0 (prodn NEL))); [contradiction|simpl; lia].
  - set (g := fun ielem =>
                contract_index (twos nx) (vsub U (expand_index NEL ielem))).
    assert (Hfacts : forall e, In e (filter P (seq 0 (prodn NEL))) ->
              e < prodn NEL /\
              in_grid (vsub U (expand_index NEL e)) (twos nx) /\
              vadd (expand_index NEL e) (vsub U (expand_index NEL e)) = U).
    { intros e He. apply filter_In in He. destruct He as [He Hs].
      apply in_seq in He. unfold P in Hs.
      assert (Hl : length (expand_index NEL e) = nx)
        by (rewrite expand_index_length; exact NEL_length).
      destruct (@shares_corner (expand_index NEL e) U) as [Hg Ha];
        [lia | exact Hs |].
      rewrite Hl in Hg. repeat split; [lia | exact Hg | exact Ha]. }
    assert (Hle : length (map g (filter P (seq 0 (prodn NEL))))
                  <= length (seq 0 ND));
      [|rewrite length_map, length_seq in Hle; exact Hle].
    apply NoDup_incl_length.
    + apply NoDup_map_on; [|apply NoDup_filter, seq_NoDup].
      intros e1 e2 H1 H2 Hg.
      destruct (Hfacts e1 H1) as (L1 & G1 & A1).
      destruct (Hfacts e2 H2) as (L2 & G2 & A2).
      unfold g in Hg. apply (contract_inj G1 G2) in Hg.
      rewrite <- (@contract_expand NEL e1 L1), <- (@contract_expand NEL e2 L2).
      f_equal.
      apply (@vadd_cancel_l _ _ (vsub U (expand_index NEL e1))).
      * rewrite expand_index_length, NEL_length.
        apply Forall2_length in G1. rewrite G1. unfold twos.
        now rewrite repeat_length.
      * rewrite expand_index_length, NEL_length.
        apply Forall2_length in G1. rewrite G1. unfold twos.
        now rewrite repeat_length.
      * rewrite A1. rewrite Hg at 1. now rewrite A2.
    + intros k Hk. apply in_map_iff in Hk. destruct Hk as (e & <- & He).
      destruct (Hfacts e He) as (_ & G & _).
      apply in_seq. pose proof (contract_lt G) as Hlt.
      unfold g. fold ND in Hlt. lia.
Qed.

Lemma prodn_pos dims : Forall (fun n => 1 <= n) dims -> 0 < prodn dims.
Proof. induction 1 as [|d ds Hd _ IH]; simpl; [lia|nia]. Qed.

Lemma NUL_pos : Forall (fun n => 1 <= n) NUL.
Proof.
  unfold NUL, nuniq_list. apply Forall_map.
  apply Forall_forall. intros n _. lia.
Qed.

(** The assembly fills the last row and the last column: a shape that
    holds all its entries is at least as large as the grid's counts. *)
Lemma uniq2elem_fills nnz m n :
  forallb (in_shape m n) (Lib.compute_uniq2elem nnz nx el) = true ->
  prodn NEL * NT <= m /\ prodn NUL * ND <= n.
Proof.
  intros Hall. rewrite forallb_forall in Hall.
  pose proof (prodn_pos NEL_pos) as He. pose proof (prodn_pos NUL_pos) as Hu.
  pose proof ND_pos as Hd.
  assert (HT : 0 < NT) by (unfold NT; nia).
  split.
  - assert (Hin : In (1%Q, (prodn NEL * NT - 1,
                            uniq2elem_col nx el (prodn NEL * NT - 1)))
                     (Lib.compute_uniq2elem nnz nx el)).
    { rewrite uniq2elem_by_rows.
      apply (in_map (fun r => (1%Q, (r, uniq2elem_col nx el r)))).
      apply in_seq. fold NEL NT. nia. }
    apply Hall in Hin. unfold in_shape in Hin. cbn [e_row fst snd] in Hin.
    apply andb_true_iff in Hin. destruct Hin as [Hr _].
    apply Nat.ltb_lt in Hr. lia.
  - assert (Hc : prodn NUL * ND - 1 < prodn NUL * ND) by nia.
    pose proof (uniq2elem_column nnz Hc) as Hlen.
    assert (Hq : (prodn NUL * ND - 1) / ND < prodn NUL)
      by (apply Nat.Div0.div_lt_upper_bound; lia).
    pose proof (sharing_elements_bounds Hq) as [Hlow _].
    rewrite <- Hlen in Hlow.
    destruct (col_entries (Lib.compute_uniq2elem nnz nx el)
                (prodn NUL * ND - 1)) as [|e l] eqn:E;
      [simpl in Hlow; lia|].
    assert (Hin : In e (col_entries (Lib.compute_uniq2elem nnz nx el)
                          (prodn NUL * ND - 1))) by (rewrite E; now left).
    unfold col_entries in Hin. apply filter_In in Hin.
    destruct Hin as [Hin Hcol]. apply Nat.eqb_eq in Hcol.
    apply Hall in Hin. unfold in_shape in Hin.
    apply andb_true_iff in Hin. destruct Hin as [_ Hn].
    apply Nat.ltb_lt in Hn. lia.
Qed.

End Grid.

End SharingFacts.

(** ** From the 64-bit counts to the sizes of the grid *)

Module BridgeFacts.
Import NumPy Counts NumPyFacts InitializeFacts Lib IndexFacts.
Local Open Scope Z_scope.

Lemma nelem_list_all nx el :
  length el = nx -> nelem_list nx el = map Z.to_nat el.
Proof.
  intros H. unfold nelem_list. apply firstn_all2. rewrite length_map. lia.
Qed.

Lemma prodn_to_nat l :
  Forall (fun e => 0 < e) l -> Z.of_nat (prodn (map Z.to_nat l)) = Zprod l.
Proof.
  induction 1 as [|e l He Hl IH]; [reflexivity|].
  cbn [map prodn]. rewrite Zprod_cons, Nat2Z.inj_mul, IH, Z2Nat.id by lia.
  reflexivity.
Qed.

Lemma prodn_succ_to_nat l :
  Forall (fun e => 0 < e) l ->
  Z.of_nat (prodn (map S (map Z.to_nat l))) = Zprod (map (fun e => e + 1) l).
Proof.
  induction 1 as [|e l He Hl IH]; [reflexivity|].
  cbn [map prodn]. rewrite Zprod_cons, Nat2Z.inj_mul, IH.
  rewrite Nat2Z.inj_succ, Z2Nat.id by lia. reflexivity.
Qed.

Lemma prodn_twos_to_Z nx : Z.of_nat (prodn (twos nx)) = 2 ^ Z.of_nat nx.
Proof.
  unfold twos. rewrite prodn_repeat, Nat2Z.inj_pow. reflexivity.
Qed.

Lemma four_pow nx : 4 ^ Z.of_nat nx = 2 ^ Z.of_nat nx * 2 ^ Z.of_nat nx.
Proof.
  change 4 with (2 * 2). rewrite Z.pow_mul_l. reflexivity.
Qed.

(** The sizes the library derives agree with the counts of [num]. *)
Lemma sizes_agree nm :
  valid_configuration (num_x nm) (num_elem_list nm) ->
  derived_counts nm ->
  let nx := num_x nm in
  let el := num_elem_list nm in
  let nd := prodn (twos nx) in
  num_term nm * num_elem nm
  = Z.of_nat (prodn (nelem_list nx el) * (nd * nd)) /\
  num_uniq nm * 2 ^ Z.of_nat nx
  = Z.of_nat (prodn (nuniq_list nx el) * nd) /\
  num_term nm = Z.of_nat (nd * nd) /\
  num_elem nm = Z.of_nat (prodn (nelem_list nx el)).
Proof.
  intros (Hnx & Hlen & Hpos) (Ht & Hu & _ & He & _ & _). cbn zeta.
  unfold nuniq_list. rewrite (@nelem_list_all _ _ Hlen).
  rewrite !Nat2Z.inj_mul, prodn_twos_to_Z, (@prodn_to_nat _ Hpos),
    (@prodn_succ_to_nat _ Hpos), Ht, Hu, He, four_pow.
  repeat split; ring.
Qed.

(** The grid's own counts, as integers. *)
Lemma true_sizes nx el :
  length el = nx -> Forall (fun e => 0 < e) el ->
  Z.of_nat (prodn (nelem_list nx el) * (prodn (twos nx) * prodn (twos nx)))
  = 4 ^ Z.of_nat nx * Zprod el /\
  Z.of_nat (prodn (nuniq_list nx el) * prodn (twos nx))
  = Zprod (map (fun e => e + 1) el) * 2 ^ Z.of_nat nx.
Proof.
  intros Hlen Hpos. unfold nuniq_list. rewrite (@nelem_list_all _ _ Hlen).
  rewrite !Nat2Z.inj_mul, prodn_twos_to_Z, (@prodn_to_nat _ Hpos),
    (@prodn_succ_to_nat _ Hpos), four_pow.
  split; ring.
Qed.

End BridgeFacts.

(** ** The Node Sharing Map *)

Module NodeSharingClaims.
Import NumPy Counts NumPyFacts InitializeFacts InitializeClaims.
Import Lib IndexFacts CountFacts SharingFacts BridgeFacts.
Local Open Scope nat_scope.

Section ReadyGrid.

Variable nm : Num.
Hypothesis Hvalid : valid_configuration (num_x nm) (num_elem_list nm).
Hypothesis Hrepr : representable (num_x nm) (num_elem_list nm).
Hypothesis Hcounts : derived_counts nm.

Let nx := num_x nm.
Let el := num_elem_list nm.
Let ND := prodn (twos nx).
Let NR := prodn (nelem_list nx el) * (ND * ND).
Let NC := prodn (nuniq_list nx el) * ND.

Lemma el_length : length el = nx.
Proof. exact (proj1 (proj2 Hvalid)). Qed.

Lemma el_pos : Forall (fun e => (0 < e)%Z) el.
Proof. exact (proj2 (proj2 Hvalid)). Qed.

Lemma num_coeff_elem_exact :
  NumPy.mul (num_term nm) (num_elem nm) = Z.of_nat NR.
Proof.
  destruct (sizes_agree Hvalid Hcounts) as (Hr & _ & Ht & He).
  destruct Hrepr as [Hc _]. destruct Hcounts as (Ht' & _ & _ & He' & _).
  rewrite mul_exact.
  - exact Hr.
  - rewrite Ht. lia.
  - rewrite He. lia.
  - rewrite Ht', He'. exact Hc.
Qed.

Lemma num_coeff_uniq_exact :
  np_mul_pyint (num_uniq nm) (2 ^ Z.of_nat (num_x nm))%Z = Ok (Z.of_nat NC).
Proof.
  destruct (sizes_agree Hvalid Hcounts) as (_ & Hc & _ & _).
  destruct (representable_fits el_pos Hrepr) as (_ & H2 & _).
  destruct Hrepr as [_ Hd]. destruct Hcounts as (_ & Hu & _).
  unfold np_mul_pyint. rewrite H2. f_equal.
  pose proof (Zprod_pos (Zprod_succ_pos el_pos)) as Hpu.
  rewrite mul_exact.
  - exact Hc.
  - rewrite Hu. fold el. lia.
  - apply Z.pow_nonneg. lia.
  - rewrite Hu. exact Hd.
Qed.

(** The Node Sharing Map is built, with one row per local nodal slot and
    one column per degree of freedom. *)
Lemma full_uniq2elem_ok :
  full_uniq2elem Lib.rmtclib nm
  = Ok {| nrows := NR; ncols := NC;
          stored := Lib.compute_uniq2elem
                      (NumPy.mul (num_elem nm) (num_term nm)) nx el |}.
Proof.
  unfold full_uniq2elem. rewrite num_coeff_uniq_exact, num_coeff_elem_exact.
  rewrite MethodClaims.rmtclib_uniq2elem. fold nx el.
  unfold csc_matrix. rewrite !Nat2Z.id.
  replace (0 <=? Z.of_nat NR)%Z with true by (symmetry; apply Z.leb_le; lia).
  replace (0 <=? Z.of_nat NC)%Z with true by (symmetry; apply Z.leb_le; lia).
  cbn [andb].
  rewrite (proj2 (forallb_forall _ _)); [reflexivity|].
  intros e He. rewrite (@uniq2elem_by_rows _ _ el_length) in He.
  apply in_map_iff in He. destruct He as (r & <- & Hr). apply in_seq in Hr.
  unfold in_shape. cbn [e_row e_col fst snd].
  apply andb_true_iff. split; apply Nat.ltb_lt.
  - unfold NR, ND. lia.
  - apply (@uniq2elem_col_lt _ _ el_length). lia.
Qed.

Let U : csc :=
  {| nrows := NR; ncols := NC;
     stored := Lib.compute_uniq2elem
                 (NumPy.mul (num_elem nm) (num_term nm)) nx el |}.

Lemma U_entry r c :
  r < NR ->
  entry U r c = if uniq2elem_col nx el r =? c then 1%Q else 0%Q.
Proof.
  intros Hr. unfold entry, coo_entry, U. cbn [stored].
  rewrite (@uniq2elem_by_rows _ _ el_length), filter_map_swap.
  unfold at_pos. cbn [e_row e_col fst snd].
  destruct (Nat.eqb_spec (uniq2elem_col nx el r) c) as [Hc|Hc].
  - rewrite (@filter_seq_unique _ _ r); [reflexivity | exact Hr |].
    intros i _. rewrite andb_true_iff, !Nat.eqb_eq. split; [tauto|].
    intros ->. tauto.
  - rewrite filter_none; [reflexivity|].
    intros i _. apply andb_false_iff.
    destruct (Nat.eqb_spec i r) as [->|]; [right|left; reflexivity].
    apply Nat.eqb_neq. exact Hc.
Qed.

Lemma U_row r :
  r < NR ->
  uniq2elem_col nx el r < NC /\
  nonzeros_in_row U r = [uniq2elem_col nx el r] /\
  entry U r (uniq2elem_col nx el r) = 1%Q /\
  row_entries (stored U) r = [(1%Q, (r, uniq2elem_col nx el r))].
Proof.
  intros Hr.
  assert (Hc : uniq2elem_col nx el r < NC)
    by (apply (@uniq2elem_col_lt _ _ el_length); exact Hr).
  split; [exact Hc|]. split; [|split].
  - unfold nonzeros_in_row. cbn [ncols U].
    apply filter_seq_unique; [exact Hc|].
    intros c _. rewrite (U_entry _ Hr).
    destruct (Nat.eqb_spec (uniq2elem_col nx el r) c) as [->|Hn];
      cbn; split; congruence.
  - rewrite (U_entry _ Hr), Nat.eqb_refl. reflexivity.
  - apply (@uniq2elem_row _ _ el_length). exact Hr.
Qed.

Lemma U_col c :
  c < NC ->
  1 <= length (nonzeros_in_col U c) <= 2 ^ nx /\
  length (nonzeros_in_col U c) = sharing_elements nx el (c / 2 ^ nx).
Proof.
  intros Hc.
  assert (Hnd : ND = 2 ^ nx) by (unfold ND, twos; apply prodn_repeat).
  assert (Hlen : length (nonzeros_in_col U c)
                 = length (col_entries (stored U) c)).
  { unfold nonzeros_in_col, col_entries. cbn [nrows stored U].
    rewrite (@uniq2elem_by_rows _ _ el_length), filter_map_swap, length_map.
    cbn [e_col fst snd]. f_equal. apply filter_ext_in.
    intros r Hr. apply in_seq in Hr. rewrite U_entry by (unfold NR, ND; lia).
    destruct (uniq2elem_col nx el r =? c); reflexivity. }
  rewrite Hlen. cbn [stored U].
  rewrite (@uniq2elem_column _ _ el_length) by exact Hc.
  fold ND. rewrite <- Hnd. split; [|reflexivity].
  apply (@sharing_elements_bounds _ _ el_length el_pos).
  apply Nat.Div0.div_lt_upper_bound. unfold NC in Hc. fold ND. lia.
Qed.

End ReadyGrid.

(** When the Node Sharing Map is built, the counts of the grid were in
    the 64-bit range: a shape computed with overflow cannot hold the
    entries. *)
Lemma built_representable nm U :
  valid_configuration (num_x nm) (num_elem_list nm) ->
  full_uniq2elem Lib.rmtclib nm = Ok U ->
  representable (num_x nm) (num_elem_list nm).
Proof.
  intros (Hnx & Hlen & Hpos). unfold full_uniq2elem, np_mul_pyint.
  destruct (fits (2 ^ Z.of_nat (num_x nm))); [|discriminate].
  rewrite MethodClaims.rmtclib_uniq2elem. unfold csc_matrix.
  destruct (0 <=? NumPy.mul (num_term nm) (num_elem nm))%Z eqn:Hm;
    [|discriminate].
  destruct (0 <=? NumPy.mul (num_uniq nm) (2 ^ Z.of_nat (num_x nm)))%Z eqn:Hn;
    [|discriminate].
  cbn [andb]. destruct (forallb _ _) eqn:Hall; [|discriminate]. intros _.
  apply Z.leb_le in Hm, Hn.
  destruct (@uniq2elem_fills _ _ Hlen Hpos _ _ _ Hall) as [Hr Hc].
  destruct (true_sizes Hlen Hpos) as [H1 H2].
  pose proof (wrap_range (num_term nm * num_elem nm)) as W1.
  pose proof (wrap_range (num_uniq nm * 2 ^ Z.of_nat (num_x nm))) as W2.
  unfold NumPy.mul in *. split.
  - rewrite <- H1. lia.
  - rewrite <- H2. lia.
Qed.

(** C3: for every valid configuration the Node Sharing Map built by
    [_compute_dof2coeff] is a sparse [(term*elem) x (uniq*2**nx)] matrix;
    every row has exactly one nonzero entry and that entry is 1; every
    column has between 1 and [2**nx] nonzero entries, as many as there
    are elements sharing the column's node. The map is built whenever the
    counts fit the 64-bit integer, and only then. *)
Theorem node_sharing_map_structure s nm :
  initialized s -> num s = Some nm ->
  valid_configuration (num_x nm) (num_elem_list nm) ->
  (representable (num_x nm) (num_elem_list nm) ->
   exists U, full_uniq2elem Lib.rmtclib nm = Ok U) /\
  forall U, full_uniq2elem Lib.rmtclib nm = Ok U ->
    derived_counts nm /\
    Z.of_nat (nrows U) = (num_term nm * num_elem nm)%Z /\
    Z.of_nat (ncols U) = (num_uniq nm * 2 ^ Z.of_nat (num_x nm))%Z /\
    (forall r, r < nrows U ->
       exists c, c < ncols U /\
                 nonzeros_in_row U r = [c] /\ entry U r c = 1%Q /\
                 row_entries (stored U) r = [(1%Q, (r, c))]) /\
    (forall c, c < ncols U ->
       1 <= length (nonzeros_in_col U c) <= 2 ^ num_x nm /\
       length (nonzeros_in_col U c)
       = sharing_elements (num_x nm) (num_elem_list nm) (c / 2 ^ num_x nm)).
Proof.
  intros Hi Hn Hv. split.
  - intros Hr. eexists.
    apply (full_uniq2elem_ok Hv Hr (initialized_counts Hi Hn Hv Hr)).
  - intros U HU.
    pose proof (@built_representable nm U Hv HU) as Hr.
    pose proof (initialized_counts Hi Hn Hv Hr) as Hc.
    rewrite (full_uniq2elem_ok Hv Hr Hc) in HU. injection HU as <-.
    destruct (sizes_agree Hv Hc) as (H1 & H2 & _).
    cbn [nrows ncols stored]. split; [exact Hc|].
    split; [symmetry; exact H1|]. split; [symmetry; exact H2|]. split.
    + intros r Hlt. exists (uniq2elem_col (num_x nm) (num_elem_list nm) r).
      apply (@U_row nm Hv); exact Hlt.
    + intros c Hlt. apply (@U_col nm Hv); exact Hlt.
Qed.

Lemma node_sharing_map_structure_witness :
  exists U,
    full_uniq2elem Lib.rmtclib
      {| num_x := 1; num_y := 1; num_elem_list := [2%Z]; num_elem := 2;
         num_term_list := [4%Z]; num_term := 4; num_uniq_list := [3%Z];
         num_uniq := 3; num_t := 5; num_coeff := 8; num_support := 4;
         num_dof := 6 |} = Ok U /\
    Z.of_nat (nrows U) = (4 * 2)%Z /\
    Z.of_nat (ncols U) = (3 * 2 ^ Z.of_nat 1)%Z.
Proof.
  destruct (@node_sharing_map_structure
              (Examples.ready Examples.interval) _
              (MethodClaims.ready_initialized Examples.interval eq_refl)
              eq_refl)
    as [Hbuilt Hshape].
  - repeat split; [simpl; lia | repeat constructor].
  - destruct Hbuilt as [U HU]; [split; vm_compute; discriminate|].
    destruct (Hshape U HU) as (_ & Hrows & Hcols & _).
    exists U. repeat split; assumption.
Defined.

End NodeSharingClaims.

(** ** Sums of rationals and the sparse product *)

Module SparseFacts.
Import CountFacts.
Local Open Scope Q_scope.

Lemma Qsum_cons x l : Qsum (x :: l) = x + Qsum l.
Proof. reflexivity. Qed.

Lemma Qsum_app l1 l2 : Qsum (l1 ++ l2) == Qsum l1 + Qsum l2.
Proof.
  induction l1 as [|x l1 IH]; cbn [app].
  - cbn [Qsum fold_right]. ring.
  - rewrite !Qsum_cons, IH. ring.
Qed.

Lemma Qsum_map_ext {A} (f g : A -> Q) l :
  (forall x, In x l -> f x == g x) -> Qsum (map f l) == Qsum (map g l).
Proof.
  induction l as [|x l IH]; intros H; [reflexivity|].
  cbn [map]. rewrite !Qsum_cons, (H x (or_introl eq_refl)), IH;
    [reflexivity|].
  intros y Hy. apply H. now right.
Qed.

Lemma Qsum_map_zero {A} (f : A -> Q) l :
  (forall x, In x l -> f x == 0) -> Qsum (map f l) == 0.
Proof.
  induction l as [|x l IH]; intros H; [reflexivity|].
  cbn [map]. rewrite Qsum_cons, (H x (or_introl eq_refl)), IH; [ring|].
  intros y Hy. apply H. now right.
Qed.

Lemma Qsum_map_add {A} (f g : A -> Q) l :
  Qsum (map (fun x => f x + g x) l) == Qsum (map f l) + Qsum (map g l).
Proof.
  induction l as [|x l IH]; cbn [map].
  - cbn [Qsum fold_right]. ring.
  - rewrite !Qsum_cons, IH. ring.
Qed.

Lemma Qsum_map_scale {A} (a : Q) (f : A -> Q) l :
  Qsum (map (fun x => a * f x) l) == a * Qsum (map f l).
Proof.
  induction l as [|x l IH]; cbn [map].
  - cbn [Qsum fold_right]. ring.
  - rewrite !Qsum_cons, IH. ring.
Qed.

(** A sum whose only nonzero term is at index [k]. *)
Lemma Qsum_single (f : nat -> Q) n k :
  (k < n)%nat ->
  Qsum (map (fun i => if (k =? i)%nat then f i else 0) (seq 0 n)) == f k.
Proof.
  intros Hk.
  replace n with (k + (1 + (n - S k)))%nat by lia.
  rewrite !seq_app, !map_app, !Qsum_app. cbn [seq map plus].
  rewrite Nat.eqb_refl, Qsum_cons.
  rewrite (@Qsum_map_zero _ _ (seq 0 k)), (@Qsum_map_zero _ _ (seq (k + 1) _)).
  - cbn [Qsum fold_right]. ring.
  - intros i Hi. apply in_seq in Hi.
    destruct (Nat.eqb_spec k i); [lia|reflexivity].
  - intros i Hi. apply in_seq in Hi.
    destruct (Nat.eqb_spec k i); [lia|reflexivity].
Qed.

Lemma coo_entry_cons e t r c :
  coo_entry (e :: t) r c
  = (if at_pos r c e then e_val e + coo_entry t r c else coo_entry t r c).
Proof.
  unfold coo_entry. cbn [filter]. destruct (at_pos r c e); reflexivity.
Qed.

Lemma coo_entry_nil r c : coo_entry [] r c = 0.
Proof. reflexivity. Qed.

Lemma coo_entry_app t1 t2 r c :
  coo_entry (t1 ++ t2) r c == coo_entry t1 r c + coo_entry t2 r c.
Proof.
  unfold coo_entry. rewrite filter_app, map_app. apply Qsum_app.
Qed.

(** The terms one entry of the left factor contributes at [(r, c)]. *)
Lemma sp_terms_entry a B r c :
  coo_entry (sp_terms a B) r c
  == if (e_row a =? r)%nat then e_val a * coo_entry B (e_col a) c else 0.
Proof.
  induction B as [|b B IH].
  - unfold coo_entry. cbn. destruct (e_row a =? r)%nat; ring.
  - change (sp_terms a (b :: B))
      with ((if (e_col a =? e_row b)%nat
             then [((e_val a * e_val b)%Q, (e_row a, e_col b))]
             else []) ++ sp_terms a B).
    rewrite coo_entry_app, IH, (coo_entry_cons b B).
    unfold at_pos.
    rewrite (Nat.eqb_sym (e_row b) (e_col a)).
    destruct (e_col a =? e_row b)%nat.
    + rewrite coo_entry_cons. unfold at_pos. cbn [e_row e_col e_val fst snd].
      destruct (e_row a =? r)%nat, (e_col b =? c)%nat; cbn [andb];
        rewrite ?coo_entry_nil; ring.
    + cbn [andb]. rewrite coo_entry_nil.
      destruct (e_row a =? r)%nat; ring.
Qed.

(** The entries of a sparse product are the sums of products over the
    inner index. *)
Lemma sp_product_entry (A B : coo) n r c :
  (forall a, In a A -> (e_col a < n)%nat) ->
  coo_entry (flat_map (fun a => sp_terms a B) A) r c
  == Qsum (map (fun k => coo_entry A r k * coo_entry B k c) (seq 0 n)).
Proof.
  induction A as [|a A IH]; intros Hn.
  - cbn [flat_map]. rewrite coo_entry_nil.
    symmetry. apply Qsum_map_zero. intros k _.
    rewrite coo_entry_nil. ring.
  - cbn [flat_map]. rewrite coo_entry_app, IH, sp_terms_entry
      by (intros x Hx; apply Hn; now right).
    assert (Ha : (e_col a < n)%nat) by (apply Hn; now left).
    rewrite (@Qsum_map_ext _
               (fun k => coo_entry (a :: A) r k * coo_entry B k c)
               (fun k => (if (e_col a =? k)%nat
                          then (if (e_row a =? r)%nat
                                then e_val a * coo_entry B k c else 0)
                          else 0)
                         + coo_entry A r k * coo_entry B k c)).
    + rewrite Qsum_map_add,
        (Qsum_single (fun k => if (e_row a =? r)%nat
                               then e_val a * coo_entry B k c else 0) Ha).
      reflexivity.
    + intros k _. rewrite coo_entry_cons. unfold at_pos.
      destruct (e_row a =? r)%nat, (e_col a =? k)%nat; cbn [andb]; ring.
Qed.

Lemma sp_mul_entry A B op r c :
  sp_mul A B = Ok op ->
  (forall a, In a (stored A) -> (e_col a < ncols A)%nat) ->
  nrows op = nrows A /\ ncols op = ncols B /\
  entry op r c
  == Qsum (map (fun k => entry A r k * entry B k c) (seq 0 (ncols A))).
Proof.
  unfold sp_mul. destruct (ncols A =? nrows B)%nat; [|discriminate].
  intros [= <-] Hn. cbn [nrows ncols]. repeat split.
  unfold entry. cbn [stored]. apply sp_product_entry. exact Hn.
Qed.

End SparseFacts.

(** ** The block-diagonal operator *)

Module BlockFacts.
Import Counts CountFacts SparseFacts.
Local Open Scope nat_scope.

Lemma filter_flat_map {A B} (P : B -> bool) (f : A -> list B) l :
  filter P (flat_map f l) = flat_map (fun x => filter P (f x)) l.
Proof.
  induction l as [|x l IH]; [reflexivity|].
  cbn [flat_map]. now rewrite filter_app, IH.
Qed.

Lemma flat_map_nil {A B} (g : A -> list B) l :
  (forall x, In x l -> g x = []) -> flat_map g l = [].
Proof.
  induction l as [|x l IH]; intros H; [reflexivity|].
  cbn [flat_map]. rewrite (H x (or_introl eq_refl)), IH; [reflexivity|].
  intros y Hy. apply H. now right.
Qed.

Lemma flat_map_seq_single {A} (g : nat -> list A) n k :
  k < n -> (forall i, i < n -> i <> k -> g i = []) ->
  flat_map g (seq 0 n) = g k.
Proof.
  intros Hk H.
  replace n with (k + (1 + (n - S k))) by lia.
  rewrite !seq_app, !flat_map_app. cbn [seq flat_map plus].
  rewrite (@flat_map_nil _ _ g (seq 0 k)), (@flat_map_nil _ _ g (seq (k + 1) _)).
  - rewrite !app_nil_r. reflexivity.
  - intros i Hi. apply in_seq in Hi. apply H; lia.
  - intros i Hi. apply in_seq in Hi. apply H; lia.
Qed.

Section Block.

Variables (nnz term elem : Z) (blk : matrix).

Let NT := Z.to_nat term.
Let NE := Z.to_nat elem.

Lemma full_from_block_in e :
  In e (Lib.compute_full_from_block nnz term elem blk) ->
  exists ielem i j,
    ielem < NE /\ i < NT /\ j < NT /\
    e = (nth j (nth i blk []) 0%Q, (ielem * NT + i, ielem * NT + j)).
Proof.
  unfold Lib.compute_full_from_block. fold NT NE. intros H.
  apply in_flat_map in H. destruct H as (ielem & He & H).
  apply in_flat_map in H. destruct H as (i & Hi & H).
  apply in_map_iff in H. destruct H as (j & <- & Hj).
  apply in_seq in He, Hi, Hj. exists ielem, i, j.
  repeat split; lia || reflexivity.
Qed.

(** The assembled entries are those of the block-diagonal matrix. *)
Lemma full_from_block_entry r c :
  (coo_entry (Lib.compute_full_from_block nnz term elem blk) r c
   == block_diagonal NE NT blk r c)%Q.
Proof.
  unfold block_diagonal.
  destruct ((r <? NE * NT) && (c <? NE * NT) && (r / NT =? c / NT)) eqn:Hc.
  - apply andb_true_iff in Hc. destruct Hc as [Hc Hd].
    apply andb_true_iff in Hc. destruct Hc as [Hr Hc].
    apply Nat.ltb_lt in Hr, Hc. apply Nat.eqb_eq in Hd.
    assert (HT : 0 < NT) by nia.
    pose proof (Nat.div_mod_eq r NT) as Er.
    pose proof (Nat.div_mod_eq c NT) as Ec.
    pose proof (Nat.mod_upper_bound r NT ltac:(lia)) as Mr.
    pose proof (Nat.mod_upper_bound c NT ltac:(lia)) as Mc.
    assert (Hie : r / NT < NE) by (apply Nat.Div0.div_lt_upper_bound; lia).
    unfold coo_entry, Lib.compute_full_from_block. fold NT NE.
    rewrite filter_flat_map, (@flat_map_seq_single _ _ _ (r / NT) Hie).
    + rewrite filter_flat_map,
        (@flat_map_seq_single _ _ _ (r mod NT) Mr).
      * rewrite filter_map_swap,
          (@filter_seq_unique _ _ (c mod NT) Mc).
        -- cbn [map e_val fst Qsum fold_right]. ring.
        -- intros j Hj. unfold at_pos. cbn [e_row e_col fst snd].
           rewrite andb_true_iff, !Nat.eqb_eq. split; [lia|].
           intros ->. split; lia.
      * intros i Hi Hne. apply filter_none. intros e He.
        apply in_map_iff in He. destruct He as (j & <- & Hj).
        unfold at_pos. cbn [e_row e_col fst snd].
        apply andb_false_iff. left. apply Nat.eqb_neq. lia.
    + intros ie Hlt Hne. rewrite filter_flat_map.
      apply flat_map_nil. intros i Hi. apply in_seq in Hi.
      apply filter_none. intros e He.
      apply in_map_iff in He. destruct He as (j & <- & Hj).
      unfold at_pos. cbn [e_row e_col fst snd].
      apply andb_false_iff. left. apply Nat.eqb_neq. intros E.
      apply Hne. apply Nat.div_unique with i; lia.
  - unfold coo_entry. rewrite filter_none; [reflexivity|].
    intros e He. apply full_from_block_in in He.
    destruct He as (ielem & i & j & Hie & Hi & Hj & ->).
    unfold at_pos. cbn [e_row e_col fst snd].
    destruct (Nat.eqb_spec (ielem * NT + i) r) as [<-|]; [|reflexivity].
    destruct (Nat.eqb_spec (ielem * NT + j) c) as [<-|]; [|reflexivity].
    exfalso.
    assert (H1 : (ielem * NT + i) / NT = ielem)
      by (symmetry; apply Nat.div_unique with i; lia).
    assert (H2 : (ielem * NT + j) / NT = ielem)
      by (symmetry; apply Nat.div_unique with j; lia).
    rewrite H1, H2, Nat.eqb_refl, andb_true_r in Hc.
    apply andb_false_iff in Hc.
    destruct Hc as [Hc|Hc]; apply Nat.ltb_ge in Hc; nia.
Qed.

Lemma full_from_block_in_shape e :
  In e (Lib.compute_full_from_block nnz term elem blk) ->
  in_shape (NE * NT) (NE * NT) e = true.
Proof.
  intros He. apply full_from_block_in in He.
  destruct He as (ielem & i & j & Hie & Hi & Hj & ->).
  unfold in_shape. cbn [e_row e_col fst snd].
  apply andb_true_iff. split; apply Nat.ltb_lt; nia.
Qed.

End Block.

End BlockFacts.

(** ** The Dof-to-Coefficient operator *)

Module DofToCoeffClaims.
Import NumPy Counts NumPyFacts InitializeFacts InitializeClaims MethodClaims.
Import IndexFacts CountFacts SharingFacts BridgeFacts SparseFacts BlockFacts.
Import NodeSharingClaims.
Local Open Scope nat_scope.

Lemma assemble_outcome lib nm b :
  outcome (assemble lib nm b)
  = match full_uniq2elem lib nm with
    | Ok U => match full_nodal2coeff lib nm b with
              | Ok N => sp_mul N U
              | Raise e => Raise e
              end
    | Raise e => Raise e
    end.
Proof.
  unfold assemble, full_uniq2elem, full_nodal2coeff, outcome, bind, traced, ret.
  repeat (step_result; cbn; [|reflexivity]). reflexivity.
Qed.

Lemma assemble_calls lib nm b op :
  outcome (assemble lib nm b) = Ok op ->
  calls (assemble lib nm b)
  = [Call_compute_uniq2elem; Call_compute_full_from_block].
Proof.
  unfold assemble, outcome, calls, bind, traced, ret.
  repeat (step_result; cbn; [|discriminate]). reflexivity.
Qed.

Section ReadyGrid.

Variable nm : Num.
Hypothesis Hvalid : valid_configuration (num_x nm) (num_elem_list nm).
Hypothesis Hrepr : representable (num_x nm) (num_elem_list nm).
Hypothesis Hcounts : derived_counts nm.

Let NT := Z.to_nat (num_term nm).
Let NE := Z.to_nat (num_elem nm).

Lemma NENT :
  NE * NT = Lib.prodn (Lib.nelem_list (num_x nm) (num_elem_list nm))
            * (Lib.prodn (Lib.twos (num_x nm)) * Lib.prodn (Lib.twos (num_x nm))).
Proof.
  destruct (sizes_agree Hvalid Hcounts) as (_ & _ & Ht & He).
  unfold NE, NT. rewrite Ht, He, !Nat2Z.id. reflexivity.
Qed.

(** The block-diagonal operator is built, square of size [term*elem]. *)
Lemma full_nodal2coeff_ok b :
  full_nodal2coeff Lib.rmtclib nm b
  = Ok {| nrows := NE * NT; ncols := NE * NT;
          stored := Lib.compute_full_from_block
                      (NumPy.mul (NumPy.square (num_term nm)) (num_elem nm))
                      (num_term nm) (num_elem nm) b |}.
Proof.
  unfold full_nodal2coeff.
  rewrite (num_coeff_elem_exact Hvalid Hrepr Hcounts), <- NENT.
  rewrite rmtclib_full_from_block. unfold csc_matrix. rewrite !Nat2Z.id.
  replace (0 <=? Z.of_nat (NE * NT))%Z with true
    by (symmetry; apply Z.leb_le; lia).
  cbn [andb].
  rewrite (proj2 (forallb_forall _ _)); [reflexivity|].
  intros e He. apply full_from_block_in_shape in He. exact He.
Qed.

End ReadyGrid.

(** With counts in the 64-bit range and an inverse at hand, the method
    runs to the end and returns the product. *)
Lemma dof2coeff_product linalg_inv s nm inv_block :
  initialized s -> num s = Some nm ->
  valid_configuration (num_x nm) (num_elem_list nm) ->
  representable (num_x nm) (num_elem_list nm) ->
  linalg_inv (compute_coeff2nodal Lib.rmtclib (num_x nm) (num_term nm))
  = Some inv_block ->
  exists U op,
    full_uniq2elem Lib.rmtclib nm = Ok U /\
    _compute_dof2coeff Lib.rmtclib linalg_inv s
    = ([Call_compute_coeff2nodal; Call_linalg_inv;
        Call_compute_uniq2elem; Call_compute_full_from_block], Ok op) /\
    Z.of_nat (nrows op) = (num_term nm * num_elem nm)%Z /\
    Z.of_nat (ncols op) = (num_uniq nm * 2 ^ Z.of_nat (num_x nm))%Z /\
    forall r c,
      (entry op r c
       == Qsum (map (fun k =>
                       block_diagonal (Z.to_nat (num_elem nm))
                         (Z.to_nat (num_term nm)) inv_block r k
                       * entry U k c)
                    (seq 0 (nrows U))))%Q.
Proof.
  intros Hi Hn Hv Hr Hinv.
  pose proof (initialized_counts Hi Hn Hv Hr) as Hc.
  pose proof (full_uniq2elem_ok Hv Hr Hc) as HU.
  pose proof (full_nodal2coeff_ok Hv Hr Hc inv_block) as HN.
  pose proof (@NENT nm Hv Hc) as Hsz.
  destruct (sizes_agree Hv Hc) as (H1 & H2 & _).
  assert (Hmul : exists op, outcome (assemble Lib.rmtclib nm inv_block) = Ok op
            /\ op = {| nrows := Z.to_nat (num_elem nm) * Z.to_nat (num_term nm);
                       ncols := Lib.prodn (Lib.nuniq_list (num_x nm) (num_elem_list nm))
                                * Lib.prodn (Lib.twos (num_x nm));
                       stored := flat_map (fun a => sp_terms a
                                   (Lib.compute_uniq2elem
                                      (NumPy.mul (num_elem nm) (num_term nm))
                                      (num_x nm) (num_elem_list nm)))
                                   (Lib.compute_full_from_block
                                      (NumPy.mul (NumPy.square (num_term nm)) (num_elem nm))
                                      (num_term nm) (num_elem nm) inv_block) |}).
  { eexists. rewrite assemble_outcome, HU, HN. unfold sp_mul.
    cbn [nrows ncols stored]. rewrite Hsz, Nat.eqb_refl.
    split; reflexivity. }
  destruct Hmul as (op & Hop & Hshape).
  eexists. exists op. split; [exact HU|]. split; [|split; [|split]].
  - rewrite (@_compute_dof2coeff_unfold _ linalg_inv _ _ Hn), Hinv.
    rewrite (@assemble_calls _ _ _ _ Hop), Hop. reflexivity.
  - rewrite Hshape. cbn [nrows]. rewrite Hsz, <- H1. reflexivity.
  - rewrite Hshape. cbn [ncols]. rewrite <- H2. reflexivity.
  - intros r c. rewrite Hshape. unfold entry. cbn [stored nrows].
    rewrite (@sp_product_entry _ _ (Z.to_nat (num_elem nm) * Z.to_nat (num_term nm))).
    + rewrite <- Hsz. apply Qsum_map_ext. intros k _.
      rewrite full_from_block_entry. reflexivity.
    + intros a Ha. apply full_from_block_in_shape in Ha.
      unfold in_shape in Ha. apply andb_true_iff in Ha.
      destruct Ha as [_ Ha]. apply Nat.ltb_lt in Ha. exact Ha.
Qed.

(** C2: for every valid configuration, the operator returned by
    [_compute_dof2coeff] is the product of the block-diagonal matrix that
    repeats the inverted [term x term] Local Basis Transform once per
    element with the Node Sharing Map, and its shape is
    [(term*elem, uniq*2**nx)]. The operator is returned whenever the
    inversion succeeds and the counts fit the 64-bit integer. *)
Theorem dof2coeff_is_block_diagonal_times_sharing linalg_inv s nm :
  initialized s -> num s = Some nm ->
  valid_configuration (num_x nm) (num_elem_list nm) ->
  (forall inv_block,
     representable (num_x nm) (num_elem_list nm) ->
     linalg_inv (compute_coeff2nodal Lib.rmtclib (num_x nm) (num_term nm))
     = Some inv_block ->
     exists op,
       _compute_dof2coeff Lib.rmtclib linalg_inv s
       = ([Call_compute_coeff2nodal; Call_linalg_inv;
           Call_compute_uniq2elem; Call_compute_full_from_block], Ok op)) /\
  forall op,
    outcome (_compute_dof2coeff Lib.rmtclib linalg_inv s) = Ok op ->
    exists inv_block U,
      linalg_inv (compute_coeff2nodal Lib.rmtclib (num_x nm) (num_term nm))
      = Some inv_block /\
      full_uniq2elem Lib.rmtclib nm = Ok U /\
      derived_counts nm /\
      Z.of_nat (nrows op) = (num_term nm * num_elem nm)%Z /\
      Z.of_nat (ncols op) = (num_uniq nm * 2 ^ Z.of_nat (num_x nm))%Z /\
      forall r c,
        (entry op r c
         == Qsum (map (fun k =>
                         block_diagonal (Z.to_nat (num_elem nm))
                           (Z.to_nat (num_term nm)) inv_block r k
                         * entry U k c)
                      (seq 0 (nrows U))))%Q.
Proof.
  intros Hi Hn Hv. split.
  - intros b Hr Hinv.
    destruct (dof2coeff_product linalg_inv Hi Hn Hv Hr Hinv)
      as (U & op & _ & Hrun & _).
    exists op. exact Hrun.
  - intros op Hop.
    rewrite (@_compute_dof2coeff_unfold _ linalg_inv _ _ Hn) in Hop.
    destruct (linalg_inv _) as [b|] eqn:Hinv; [|discriminate].
    cbn [outcome snd] in Hop.
    change (outcome (assemble Lib.rmtclib nm b) = Ok op) in Hop.
    pose proof Hop as Hop'. rewrite assemble_outcome in Hop'.
    destruct (full_uniq2elem Lib.rmtclib nm) as [U|] eqn:HU; [|discriminate].
    pose proof (@built_representable nm U Hv HU) as Hr.
    destruct (dof2coeff_product linalg_inv Hi Hn Hv Hr Hinv)
      as (U' & op' & HU' & Hrun & Hrows & Hcols & Hentry).
    rewrite HU in HU'. injection HU' as <-.
    rewrite (@_compute_dof2coeff_unfold _ linalg_inv _ _ Hn), Hinv in Hrun.
    injection Hrun as _ Hrun.
    change (outcome (assemble Lib.rmtclib nm b) = Ok op') in Hrun.
    rewrite Hop in Hrun. injection Hrun as <-.
    exists b, U. split; [reflexivity|]. split; [reflexivity|].
    split; [exact (initialized_counts Hi Hn Hv Hr)|].
    split; [exact Hrows|]. split; [exact Hcols|]. exact Hentry.
Qed.

Lemma dof2coeff_is_block_diagonal_times_sharing_witness :
  exists op,
    _compute_dof2coeff Lib.rmtclib Exact.linalg_inv
      (Examples.ready Examples.interval)
    = ([Call_compute_coeff2nodal; Call_linalg_inv;
        Call_compute_uniq2elem; Call_compute_full_from_block], Ok op) /\
    Z.of_nat (nrows op) = (4 * 2)%Z /\
    Z.of_nat (ncols op) = (3 * 2 ^ Z.of_nat 1)%Z.
Proof.
  destruct (@dof2coeff_is_block_diagonal_times_sharing Exact.linalg_inv
              (Examples.ready Examples.interval) _
              (ready_initialized Examples.interval eq_refl) eq_refl)
    as [Hruns Hshape].
  - repeat split; [simpl; lia | repeat constructor].
  - destruct (Hruns hermite_nodal2coeff) as [op Hop].
    + split; vm_compute; discriminate.
    + vm_compute. reflexivity.
    + destruct (Hshape op ltac:(rewrite Hop; reflexivity))
        as (b & U & _ & _ & _ & Hrows & Hcols & _).
      exists op. repeat split; assumption.
Defined.

End DofToCoeffClaims.

(** ** Locating a point *)

Module LocateFacts.
Import Lib Counts.
Local Open Scope Q_scope.

Section Axis.

Variables (lo hi : Q) (n : nat).
Hypothesis lo_hi : lo < hi.
Hypothesis n_pos : (0 < n)%nat.

Let N : Q := inject_Z (Z.of_nat n).
Let h : Q := width (lo, hi) n.

Lemma N_pos : 0 < N.
Proof.
  unfold N. change 0 with (inject_Z 0). rewrite <- Zlt_Qlt. lia.
Qed.

Lemma span_pos : 0 < hi - lo.
Proof. unfold Qminus. rewrite <- (Qplus_opp_r lo).
  apply Qplus_lt_l. exact lo_hi.
Qed.

Lemma h_pos : 0 < h.
Proof.
  unfold h, width. cbn [fst snd]. fold N.
  apply Qlt_shift_div_l; [exact N_pos|]. rewrite Qmult_0_l. exact span_pos.
Qed.

(** A coordinate is the low bound plus the scaled coordinate times the
    element width. *)
Lemma scaled_spec x : x == lo + scaled (lo, hi) n x * h.
Proof.
  unfold scaled, h, width. cbn [fst snd]. fold N.
  pose proof N_pos as HN. pose proof span_pos as Hs.
  field. split; intros E; rewrite E in *.
  - apply (Qlt_irrefl 0). exact HN.
  - apply (Qlt_irrefl 0). exact Hs.
Qed.

Lemma scaled_range x : lo <= x <= hi -> 0 <= scaled (lo, hi) n x <= N.
Proof.
  intros [Hl Hu]. unfold scaled. cbn [fst snd]. fold N.
  pose proof N_pos as HN. pose proof span_pos as Hs.
  assert (H0 : 0 <= x - lo).
  { unfold Qminus. rewrite <- (Qplus_opp_r lo). apply Qplus_le_l. exact Hl. }
  assert (H1 : x - lo <= hi - lo).
  { unfold Qminus. apply Qplus_le_l. exact Hu. }
  assert (Hq0 : 0 <= (x - lo) / (hi - lo)).
  { apply Qle_shift_div_l; [exact Hs|]. rewrite Qmult_0_l. exact H0. }
  assert (Hq1 : (x - lo) / (hi - lo) <= 1).
  { apply Qle_shift_div_r; [exact Hs|]. rewrite Qmult_1_l. exact H1. }
  split.
  - apply Qmult_le_0_compat; [exact Hq0|]. apply Qlt_le_weak. exact HN.
  - rewrite <- (Qmult_1_l N) at 2.
    apply Qmult_le_compat_r; [exact Hq1|]. apply Qlt_le_weak. exact HN.
Qed.

(** Inside the domain the located element is in the grid and the local
    coordinate is in the unit interval. *)
Lemma locate_spec x :
  lo <= x <= hi ->
  let e := locate (lo, hi) n x in
  (e < n)%nat /\
  inject_Z (Z.of_nat e) <= scaled (lo, hi) n x <= inject_Z (Z.of_nat e) + 1.
Proof.
  intros Hx. cbn zeta.
  destruct (scaled_range Hx) as [H0 H1].
  set (s := scaled (lo, hi) n x) in *.
  pose proof (Qfloor_le s) as Hf. pose proof (Qlt_floor s) as Hc.
  assert (Hf0 : (0 <= Qfloor s)%Z).
  { rewrite <- (Qfloor_Z 0). apply Qfloor_resp_le. exact H0. }
  assert (Hfn : (Qfloor s <= Z.of_nat n)%Z).
  { rewrite <- (Qfloor_Z (Z.of_nat n)). apply Qfloor_resp_le. exact H1. }
  unfold locate. fold s.
  destruct (Z_le_gt_dec (Qfloor s) (Z.of_nat n - 1)) as [Hle|Hgt].
  - rewrite Z.min_r, Z.max_r, Z2Nat.id by lia. repeat split.
    + lia.
    + exact Hf.
    + apply Qlt_le_weak. rewrite inject_Z_plus in Hc. exact Hc.
  - assert (Hfe : Qfloor s = Z.of_nat n) by lia.
    rewrite Z.min_l, Z.max_r, Z2Nat.id by lia. repeat split.
    + lia.
    + apply Qle_trans with (inject_Z (Qfloor s)); [|exact Hf].
      rewrite <- Zle_Qle. lia.
    + change 1 with (inject_Z 1). rewrite <- inject_Z_plus.
      replace (Z.of_nat n - 1 + 1)%Z with (Z.of_nat n) by lia. exact H1.
Qed.

Lemma locate_contains x :
  lo <= x <= hi ->
  (locate (lo, hi) n x < n)%nat /\
  axis_contains (lo, hi) n (locate (lo, hi) n x) x.
Proof.
  intros Hx. destruct (locate_spec Hx) as (He & Hs0 & Hs1).
  split; [exact He|].
  pose proof h_pos as Hh. pose proof (scaled_spec x) as Hxs.
  unfold axis_contains. cbn [fst]. fold h. split.
  - rewrite Hxs at 2. apply Qplus_le_r.
    apply Qmult_le_compat_r; [exact Hs0|]. apply Qlt_le_weak. exact Hh.
  - rewrite Hxs at 1. apply Qplus_le_r.
    apply Qmult_le_compat_r; [exact Hs1|]. apply Qlt_le_weak. exact Hh.
Qed.

(** A coordinate on the boundary between elements [j - 1] and [j] is
    located in element [j]; both elements contain it. *)
Lemma locate_boundary j x :
  on_shared_boundary (lo, hi) n j x ->
  locate (lo, hi) n x = j /\
  axis_contains (lo, hi) n (j - 1) x /\ axis_contains (lo, hi) n j x.
Proof.
  intros [Hj Hx]. cbn [fst] in Hx. fold h in Hx.
  pose proof h_pos as Hh. pose proof N_pos as HN. pose proof span_pos as Hsp.
  assert (Hs : scaled (lo, hi) n x == inject_Z (Z.of_nat j)).
  { unfold scaled. cbn [fst snd]. rewrite Hx. unfold h, width.
    cbn [fst snd]. fold N. field. split; intros E; rewrite E in *.
    - apply (Qlt_irrefl 0). exact HN.
    - apply (Qlt_irrefl 0). exact Hsp. }
  split; [|split].
  - unfold locate. rewrite Hs, Qfloor_Z.
    rewrite Z.min_r, Z.max_r, Nat2Z.id by lia. reflexivity.
  - unfold axis_contains. cbn [fst]. fold h. rewrite Hx.
    replace (Z.of_nat (j - 1)) with (Z.of_nat j - 1)%Z by lia.
    unfold Zminus. rewrite inject_Z_plus.
    change (inject_Z (- (1))%Z) with (- (1))%Q.
    split.
    + apply Qplus_le_r. apply Qmult_le_compat_r.
      * rewrite <- (Qplus_0_r (inject_Z (Z.of_nat j))) at 2.
        apply Qplus_le_r. discriminate.
      * apply Qlt_le_weak. exact Hh.
    + apply Qplus_le_r. apply Qmult_le_compat_r.
      * apply Qle_lteq. right. ring.
      * apply Qlt_le_weak. exact Hh.
  - unfold axis_contains. cbn [fst]. fold h. rewrite Hx. split.
    + apply Qle_refl.
    + apply Qplus_le_r. apply Qmult_le_compat_r.
      * rewrite <- (Qplus_0_r (inject_Z (Z.of_nat j))) at 1.
        apply Qplus_le_r. discriminate.
      * apply Qlt_le_weak. exact Hh.
Qed.

End Axis.

End LocateFacts.

(** ** The Basis Evaluator *)

Module JacFacts.
Import Lib Counts IndexFacts CountFacts BlockFacts LocateFacts.
Local Open Scope nat_scope.

(** The located multi-index is in the grid and its element contains the
    point. *)
Lemma located_contains xl ns p :
  in_domain xl p -> Forall (fun ab => (fst ab < snd ab)%Q) xl ->
  Forall (fun n => 1 <= n) ns -> length ns = length xl ->
  let e := map (fun abnx : (Q * Q) * (nat * Q) =>
                  locate (fst abnx) (fst (snd abnx)) (snd (snd abnx)))
               (combine xl (combine ns p)) in
  in_grid e ns /\ element_contains xl ns e p.
Proof.
  intros Hd. revert ns.
  induction Hd as [|ab x xl p Hx Hd IH]; intros ns Hlt Hpos Hlen;
    destruct ns as [|n ns]; try discriminate; cbn zeta.
  - split; constructor.
  - inversion Hlt as [|? ? Hab Hlt']; subst.
    inversion Hpos as [|? ? Hn Hpos']; subst.
    destruct (IH ns Hlt' Hpos') as [Hg Hc]; [simpl in Hlen; lia|].
    destruct ab as [lo hi]. cbn [fst snd] in *.
    destruct (@locate_contains lo hi n Hab Hn x Hx) as [He Hcx].
    cbn [combine map fst snd]. split.
    + constructor; assumption.
    + constructor; assumption.
Qed.

Lemma located_nth xl ns p k :
  k < length xl -> length ns = length xl -> length p = length xl ->
  nth k (map (fun abnx : (Q * Q) * (nat * Q) =>
                locate (fst abnx) (fst (snd abnx)) (snd (snd abnx)))
             (combine xl (combine ns p))) 0
  = locate (nth k xl (0%Q, 0%Q)) (nth k ns 0) (nth k p 0%Q).
Proof.
  revert ns p k. induction xl as [|ab xl IH]; intros ns p k Hk Hn Hp;
    [simpl in Hk; lia|].
  destruct ns as [|n ns]; [discriminate|]. destruct p as [|x p]; [discriminate|].
  destruct k as [|k]; [reflexivity|].
  cbn [combine map nth]. apply IH; simpl in *; lia.
Qed.

Lemma point_length nx x i : length (point nx x i) = nx.
Proof. unfold point. now rewrite length_map, length_seq. Qed.

Lemma filter_all {A} (P : A -> bool) l :
  (forall x, In x l -> P x = true) -> filter P l = l.
Proof.
  induction l as [|x l IH]; intros H; [reflexivity|].
  cbn [filter]. rewrite (H x (or_introl eq_refl)), IH; [reflexivity|].
  intros y Hy. apply H. now right.
Qed.

Lemma flat_map_length_const {A B} (f : A -> list B) l m :
  (forall x, In x l -> length (f x) = m) ->
  length (flat_map f l) = length l * m.
Proof.
  induction l as [|x l IH]; intros H; [reflexivity|].
  cbn [flat_map length]. rewrite length_app, (H x (or_introl eq_refl)), IH.
  - lia.
  - intros y Hy. apply H. now right.
Qed.

Section Jac.

Variables (ix1 ix2 : nat) (nnz : Z) (nx n : nat) (el : list Z).
Variables (xl : list (Q * Q)) (x : ndarray2).

Let NT := prodn (fours nx).
Let NEL := nelem_list nx el.
Let T := Lib.compute_jac ix1 ix2 nnz nx n el xl x.

(** The element the evaluator chooses for point [i]. *)
Let chosen (i : nat) : nat :=
  contract_index NEL (element_of nx el xl (point nx x i)).

Lemma jac_length : length T = n * NT.
Proof.
  unfold T, Lib.compute_jac. fold NT.
  rewrite (@flat_map_length_const _ _ _ _ NT), length_seq; [reflexivity|].
  intros i _. now rewrite length_map, length_seq.
Qed.

Lemma jac_row i :
  i < n ->
  row_entries T i
  = map (fun iterm =>
           (basis_value nx ix1 ix2 iterm (local_of nx el xl (point nx x i)),
            (i, chosen i * NT + iterm)))
        (seq 0 NT).
Proof.
  intros Hi. unfold row_entries, T, Lib.compute_jac. fold NT NEL.
  rewrite filter_flat_map, (@flat_map_seq_single _ _ _ i Hi).
  - apply filter_all. intros e He. apply in_map_iff in He.
    destruct He as (iterm & <- & _). cbn [e_row fst snd]. apply Nat.eqb_refl.
  - intros i' _ Hne. apply filter_none. intros e He. apply in_map_iff in He.
    destruct He as (iterm & <- & _). cbn [e_row fst snd].
    apply Nat.eqb_neq. exact Hne.
Qed.

Lemma jac_in e :
  In e T ->
  exists i iterm, i < n /\ iterm < NT /\
                  e_row e = i /\ e_col e = chosen i * NT + iterm.
Proof.
  unfold T, Lib.compute_jac. fold NT NEL. intros H.
  apply in_flat_map in H. destruct H as (i & Hi & H).
  apply in_map_iff in H. destruct H as (iterm & <- & Ht).
  apply in_seq in Hi, Ht. exists i, iterm.
  repeat split; lia || reflexivity.
Qed.

End Jac.

End JacFacts.

Module JacClaims.
Import NumPy Counts NumPyFacts InitializeFacts InitializeClaims MethodClaims.
Import IndexFacts CountFacts SharingFacts BridgeFacts LocateFacts JacFacts.
Local Open Scope nat_scope.

Section ReadyGrid.

Variables (s : RMTC) (nm : Num).
Hypothesis Hnum : num s = Some nm.
Hypothesis Hvalid : valid_configuration (num_x nm) (num_elem_list nm).

Variable x : ndarray2.
Hypothesis Hxl : valid_xlimits (num_x nm) (xlimits (options s)).
Hypothesis Hquery : valid_query (num_x nm) (xlimits (options s)) x.
Hypothesis Hrows : fits (Z.of_nat (shape0 x)) = true.

Let nx := num_x nm.
Let el := num_elem_list nm.
Let xl := xlimits (options s).
Let NEL := Lib.nelem_list nx el.
Let NT := 4 ^ nx.

Lemma NT_fours : Lib.prodn (Lib.fours nx) = NT.
Proof. unfold Lib.fours. apply prodn_repeat. Qed.

Lemma NT_pos : 0 < NT.
Proof. unfold NT. apply Nat.neq_0_lt_0, Nat.pow_nonzero. discriminate. Qed.

Lemma jac_run ix1 ix2 :
  _compute_jac_raw Lib.rmtclib s ix1 ix2 x
  = ([Call_compute_jac],
     Ok (Lib.compute_jac ix1 ix2
           (NumPy.mul (num_term nm) (Z.of_nat (shape0 x)))
           nx (shape0 x) el xl x)).
Proof.
  unfold _compute_jac_raw, the_num. rewrite Hnum. cbn [lift bind].
  unfold np_mul_pyint. rewrite Hrows. cbn [bind traced app].
  rewrite rmtclib_jac. reflexivity.
Qed.

(** The element chosen for a point of the query is in the grid and
    contains the point. *)
Lemma chosen_contains i :
  i < shape0 x ->
  in_grid (Lib.element_of nx el xl (Lib.point nx x i)) NEL /\
  element_contains xl NEL (Lib.element_of nx el xl (Lib.point nx x i))
    (Lib.point nx x i).
Proof.
  intros Hi. destruct Hxl as [Hlen Hlt]. destruct Hquery as [_ Hdom].
  destruct Hvalid as (_ & Hel & Hpos).
  apply (@located_contains xl NEL (Lib.point nx x i)).
  - apply Hdom. exact Hi.
  - exact Hlt.
  - apply (@NEL_pos nx el Hel Hpos).
  - unfold NEL. rewrite (@NEL_length nx el Hel). symmetry. exact Hlen.
Qed.

(** What [_compute_jac_raw] returns: per point, the [term] basis values
    at the columns of the block of the element located for the point. *)
Lemma jac_rows ix1 ix2 :
  exists t,
    _compute_jac_raw Lib.rmtclib s ix1 ix2 x = ([Call_compute_jac], Ok t) /\
    length t = shape0 x * NT /\
    (forall e, In e t ->
       e_row e < shape0 x /\ e_col e < NT * Lib.prodn NEL) /\
    forall i, i < shape0 x ->
      row_entries t i
      = map (fun iterm =>
               (Lib.basis_value nx ix1 ix2 iterm
                  (Lib.local_of nx el xl (Lib.point nx x i)),
                (i, Lib.contract_index NEL
                      (Lib.element_of nx el xl (Lib.point nx x i)) * NT
                    + iterm)))
            (seq 0 NT).
Proof.
  eexists. split; [apply jac_run|]. split; [|split].
  - rewrite jac_length, NT_fours. reflexivity.
  - intros e He. apply jac_in in He.
    destruct He as (i & iterm & Hi & Ht & -> & ->). split; [exact Hi|].
    rewrite NT_fours in *. fold NEL.
    destruct (chosen_contains Hi) as [Hg _].
    pose proof (contract_lt Hg). nia.
  - intros i Hi. rewrite (jac_row _ _ _ _ _ _ _ Hi), NT_fours. reflexivity.
Qed.

End ReadyGrid.

(** With counts in the 64-bit range the sizes of the evaluator are the
    counts [term] and [elem] of [num]. *)
Lemma term_elem_counts s nm :
  initialized s -> num s = Some nm ->
  valid_configuration (num_x nm) (num_elem_list nm) ->
  representable (num_x nm) (num_elem_list nm) ->
  num_term nm = Z.of_nat (4 ^ num_x nm) /\
  num_elem nm
  = Z.of_nat (Lib.prodn (Lib.nelem_list (num_x nm) (num_elem_list nm))).
Proof.
  intros Hi Hn Hv Hr.
  destruct (sizes_agree Hv (initialized_counts Hi Hn Hv Hr))
    as (_ & _ & Ht & He).
  split; [|exact He].
  rewrite Ht. f_equal. rewrite <- prodn_fours. unfold Lib.fours.
  apply prodn_repeat.
Qed.

Lemma in_block_unique nterm ielem ielem' col :
  in_block nterm ielem col -> in_block nterm ielem' col -> ielem' = ielem.
Proof. unfold in_block. intros H1 H2. nia. Qed.

(** C5: for n query points inside the domain and any derivative request
    (ix1, ix2), the Basis Evaluator returns the entries of a sparse
    [n x (term*elem)] operator, [n*term] of them, with [term = 4**nx];
    every row holds exactly [term] entries, at the [term] distinct columns
    of the block of one element, and that element contains the point.
    With counts in the 64-bit range [term] and [elem] are the counts
    stored in [num]. *)
Theorem basis_evaluator_rows s nm ix1 ix2 x :
  num s = Some nm ->
  valid_configuration (num_x nm) (num_elem_list nm) ->
  valid_xlimits (num_x nm) (xlimits (options s)) ->
  valid_query (num_x nm) (xlimits (options s)) x ->
  fits (Z.of_nat (shape0 x)) = true ->
  let term := 4 ^ num_x nm in
  let NEL := Lib.nelem_list (num_x nm) (num_elem_list nm) in
  let elem := Lib.prodn NEL in
  (initialized s -> representable (num_x nm) (num_elem_list nm) ->
   num_term nm = Z.of_nat term /\ num_elem nm = Z.of_nat elem) /\
  exists t,
    _compute_jac_raw Lib.rmtclib s ix1 ix2 x = ([Call_compute_jac], Ok t) /\
    length t = shape0 x * term /\
    (forall e, In e t -> e_row e < shape0 x /\ e_col e < term * elem) /\
    forall i, i < shape0 x ->
      exists E,
        in_grid E NEL /\
        element_contains (xlimits (options s)) NEL E
          (Lib.point (num_x nm) x i) /\
        length (row_entries t i) = term /\
        map e_col (row_entries t i)
        = map (fun iterm => Lib.contract_index NEL E * term + iterm)
              (seq 0 term) /\
        NoDup (map e_col (row_entries t i)) /\
        forall e, In e (row_entries t i) ->
          in_block term (Lib.contract_index NEL E) (e_col e).
Proof.
  intros Hn Hv Hxl Hq Hf term NEL elem. split.
  - intros Hi Hr. exact (term_elem_counts Hi Hn Hv Hr).
  - destruct (@jac_rows s nm Hn Hv x Hxl Hq Hf ix1 ix2)
      as (t & Hrun & Hlen & Hshape & Hrow).
    exists t. split; [exact Hrun|]. split; [exact Hlen|].
    split; [exact Hshape|].
    intros i Hlt.
    destruct (@chosen_contains s nm Hv x Hxl Hq i Hlt) as [Hg Hc].
    eexists. split; [exact Hg|]. split; [exact Hc|].
    rewrite (Hrow i Hlt), length_map, length_seq, map_map.
    cbn [e_col fst snd]. split; [reflexivity|]. split; [reflexivity|].
    split.
    + apply NoDup_map_on; [|apply seq_NoDup]. intros a b _ _ Hab. lia.
    + intros e He. apply in_map_iff in He. destruct He as (iterm & <- & Ht).
      apply in_seq in Ht. unfold in_block. cbn [e_col fst snd].
      unfold term, NEL.
      set (T := 4 ^ num_x nm) in *.
      set (c := Lib.contract_index _ _). nia.
Qed.

(** Comparisons of rational constants. *)
Ltac q_compare := unfold Qle, Qlt; simpl; lia.

Lemma query_valid :
  valid_query 2 [(0%Q, 1%Q); (0%Q, 1%Q)] Examples.query.
Proof.
  split; [reflexivity|]. intros i Hi. cbn [shape0 Examples.query] in Hi.
  assert (Hc : i = 0 \/ i = 1 \/ i = 2) by lia.
  destruct Hc as [->|[->| ->]]; repeat constructor; cbn; q_compare.
Qed.

Lemma unit_square_valid : valid_xlimits 2 [(0%Q, 1%Q); (0%Q, 1%Q)].
Proof. split; [reflexivity|]. repeat constructor; cbn; q_compare. Qed.

Lemma square_valid : valid_configuration 2 [3%Z; 2%Z].
Proof. repeat split; [lia | repeat constructor]. Qed.

Lemma basis_evaluator_rows_witness :
  exists t,
    _compute_jac_raw Lib.rmtclib (Examples.ready Examples.square_grid) 1 0
      Examples.query = ([Call_compute_jac], Ok t) /\
    length t = 3 * 4 ^ 2.
Proof.
  destruct (@basis_evaluator_rows (Examples.ready Examples.square_grid) _ 1 0
              Examples.query eq_refl
              square_valid unit_square_valid query_valid eq_refl)
    as (_ & t & Hrun & Hlen & _).
  exists t. split; [exact Hrun | exact Hlen].
Defined.

Lemma row_in_block s nm ix1 ix2 x t i e :
  num s = Some nm ->
  valid_configuration (num_x nm) (num_elem_list nm) ->
  valid_xlimits (num_x nm) (xlimits (options s)) ->
  valid_query (num_x nm) (xlimits (options s)) x ->
  fits (Z.of_nat (shape0 x)) = true ->
  outcome (_compute_jac_raw Lib.rmtclib s ix1 ix2 x) = Ok t ->
  i < shape0 x -> In e (row_entries t i) ->
  in_block (4 ^ num_x nm)
    (Lib.contract_index (Lib.nelem_list (num_x nm) (num_elem_list nm))
       (Lib.element_of (num_x nm) (num_elem_list nm) (xlimits (options s))
          (Lib.point (num_x nm) x i)))
    (e_col e).
Proof.
  intros Hn Hv Hxl Hq Hf Hrun Hlt He.
  destruct (@jac_rows s nm Hn Hv x Hxl Hq Hf ix1 ix2)
    as (t' & Hrun' & _ & _ & Hrow).
  rewrite Hrun' in Hrun. injection Hrun as <-.
  rewrite (Hrow i Hlt) in He. apply in_map_iff in He.
  destruct He as (iterm & <- & Ht). apply in_seq in Ht.
  unfold in_block. cbn [e_col fst snd]. nia.
Qed.

(** C7: a query point on a boundary shared by two adjacent elements is
    resolved to exactly one element: all the entries of its row lie in
    the column block of one element and of no other; that element is the
    one located from the point's coordinates and the grid alone (the upper
    of the two neighbours on the boundary's axis), the same for any
    derivative request and any query holding the point. *)
Theorem boundary_point_resolves_to_one_element s nm ix1 ix2 x i k j :
  num s = Some nm ->
  valid_configuration (num_x nm) (num_elem_list nm) ->
  valid_xlimits (num_x nm) (xlimits (options s)) ->
  valid_query (num_x nm) (xlimits (options s)) x ->
  fits (Z.of_nat (shape0 x)) = true ->
  i < shape0 x -> k < num_x nm ->
  on_shared_boundary
    (nth k (xlimits (options s)) (0%Q, 0%Q))
    (nth k (Lib.nelem_list (num_x nm) (num_elem_list nm)) 0) j
    (nth k (Lib.point (num_x nm) x i) 0%Q) ->
  let term := 4 ^ num_x nm in
  let NEL := Lib.nelem_list (num_x nm) (num_elem_list nm) in
  let E := Lib.element_of (num_x nm) (num_elem_list nm)
             (xlimits (options s)) (Lib.point (num_x nm) x i) in
  let ielem := Lib.contract_index NEL E in
  exists t,
    _compute_jac_raw Lib.rmtclib s ix1 ix2 x = ([Call_compute_jac], Ok t) /\
    in_grid E NEL /\
    element_contains (xlimits (options s)) NEL E (Lib.point (num_x nm) x i) /\
    nth k E 0 = j /\
    axis_contains (nth k (xlimits (options s)) (0%Q, 0%Q)) (nth k NEL 0)
      (j - 1) (nth k (Lib.point (num_x nm) x i) 0%Q) /\
    length (row_entries t i) = term /\ 0 < term /\
    (forall e, In e (row_entries t i) -> in_block term ielem (e_col e)) /\
    (forall ielem',
       (forall e, In e (row_entries t i) -> in_block term ielem' (e_col e)) ->
       ielem' = ielem) /\
    (forall ix1' ix2' x' i' t',
       valid_query (num_x nm) (xlimits (options s)) x' ->
       fits (Z.of_nat (shape0 x')) = true ->
       i' < shape0 x' ->
       Lib.point (num_x nm) x' i' = Lib.point (num_x nm) x i ->
       outcome (_compute_jac_raw Lib.rmtclib s ix1' ix2' x') = Ok t' ->
       forall e, In e (row_entries t' i') -> in_block term ielem (e_col e)).
Proof.
  intros Hn Hv Hxl Hq Hf Hlt Hk Hb term NEL E ielem.
  destruct (@jac_rows s nm Hn Hv x Hxl Hq Hf ix1 ix2)
    as (t & Hrun & _ & _ & Hrow).
  destruct (@chosen_contains s nm Hv x Hxl Hq i Hlt) as [Hg Hc].
  pose proof (NT_pos nm) as Hpos.
  assert (Hout : outcome (_compute_jac_raw Lib.rmtclib s ix1 ix2 x) = Ok t)
    by (rewrite Hrun; reflexivity).
  assert (Hblock : forall e, In e (row_entries t i) ->
            in_block term ielem (e_col e)).
  { intros e He.
    apply (@row_in_block s nm ix1 ix2 x t i e); assumption. }
  assert (Hany : forall ix1' ix2' x' i' t',
            valid_query (num_x nm) (xlimits (options s)) x' ->
            fits (Z.of_nat (shape0 x')) = true ->
            i' < shape0 x' ->
            Lib.point (num_x nm) x' i' = Lib.point (num_x nm) x i ->
            outcome (_compute_jac_raw Lib.rmtclib s ix1' ix2' x') = Ok t' ->
            forall e, In e (row_entries t' i') ->
              in_block term ielem (e_col e)).
  { intros ix1' ix2' x' i' t' Hq' Hf' Hlt' Hp Hrun' e He.
    unfold ielem, E. rewrite <- Hp.
    apply (@row_in_block s nm ix1' ix2' x' t' i' e); assumption. }
  destruct Hxl as [Hxlen Hxlt]. destruct Hv as (Hnx & Hel & Hep).
  assert (HNl : length NEL = num_x nm) by (apply NEL_length; exact Hel).
  assert (Hnth : nth k E 0
                 = Lib.locate (nth k (xlimits (options s)) (0%Q, 0%Q))
                     (nth k NEL 0)
                     (nth k (Lib.point (num_x nm) x i) 0%Q)).
  { unfold E, NEL in *. apply located_nth.
    - lia.
    - lia.
    - rewrite point_length. lia. }
  destruct (nth k (xlimits (options s)) (0%Q, 0%Q)) as [lo hi] eqn:Hab.
  assert (Hlohi : (lo < hi)%Q).
  { rewrite Forall_forall in Hxlt.
    specialize (Hxlt (nth k (xlimits (options s)) (0%Q, 0%Q))).
    rewrite Hab in Hxlt. apply Hxlt. rewrite <- Hab. apply nth_In. lia. }
  assert (Hnk : 0 < nth k NEL 0)
    by (destruct Hb as [Hj _]; unfold NEL; lia).
  destruct (locate_boundary Hlohi Hnk Hb) as (Hloc & Hlow & _).
  exists t. split; [exact Hrun|]. split; [exact Hg|]. split; [exact Hc|].
  split; [rewrite Hnth; exact Hloc|]. split; [exact Hlow|].
  assert (Hfirst : In (Lib.basis_value (num_x nm) ix1 ix2 0
                         (Lib.local_of (num_x nm) (num_elem_list nm)
                            (xlimits (options s)) (Lib.point (num_x nm) x i)),
                       (i, ielem * term + 0))
                      (row_entries t i)).
  { rewrite (Hrow i Hlt). apply in_map_iff. exists 0.
    split; [reflexivity|]. apply in_seq. fold term. lia. }
  split; [rewrite (Hrow i Hlt), length_map, length_seq; reflexivity|].
  split; [exact Hpos|]. split; [exact Hblock|]. split; [|exact Hany].
  intros ielem' H'. specialize (H' _ Hfirst). specialize (Hblock _ Hfirst).
  apply (in_block_unique Hblock H').
Qed.

Lemma boundary_point_resolves_to_one_element_witness :
  exists t,
    _compute_jac_raw Lib.rmtclib (Examples.ready Examples.square_grid) 0 0
      Examples.query = ([Call_compute_jac], Ok t) /\
    nth 0 (Lib.element_of 2 [3%Z; 2%Z] [(0%Q, 1%Q); (0%Q, 1%Q)]
             (Lib.point 2 Examples.query 1)) 0 = 1.
Proof.
  destruct (@boundary_point_resolves_to_one_element
              (Examples.ready Examples.square_grid) _ 0 0 Examples.query 1 0 1
              eq_refl square_valid unit_square_valid query_valid eq_refl)
    as (t & Hrun & _ & _ & Hk & _).
  - vm_compute. lia.
  - vm_compute. lia.
  - split; [vm_compute; lia|]. vm_compute. reflexivity.
  - exists t. split; [exact Hrun | exact Hk].
Defined.

End JacClaims.

(** ** The round trip through the nodes *)

Module RoundTripClaims.
Import NumPy Counts NumPyFacts InitializeFacts MethodClaims.
Local Open Scope Q_scope.

(** [hermite_nodal2coeff] is the inverse of the one-dimensional Local
    Basis Transform, and the exact inversion finds it. *)
Lemma hermite_is_inverse :
  mat_mul hermite_nodal2coeff (Lib.compute_coeff2nodal 1 4) = identity 4 /\
  mat_mul (Lib.compute_coeff2nodal 1 4) hermite_nodal2coeff = identity 4 /\
  Exact.linalg_inv (Lib.compute_coeff2nodal 1 4) = Some hermite_nodal2coeff.
Proof. repeat split; vm_compute; reflexivity. Qed.

Section Interval.

Variable linalg_inv : matrix -> option matrix.
Variables (s : RMTC) (nm : Num).
Hypothesis Hinit : initialized s.
Hypothesis Hnum : num s = Some nm.
Hypothesis Hx : num_x nm = 1%nat.
Hypothesis Hel : num_elem_list nm = [2%Z].
Hypothesis Hxl : xlimits (options s) = [(0, 1)].
Hypothesis Hinv :
  linalg_inv (compute_coeff2nodal Lib.rmtclib 1 4) = Some hermite_nodal2coeff.

Lemma interval_counts :
  num_term nm = 4%Z /\ num_elem nm = 2%Z /\ num_uniq nm = 3%Z.
Proof.
  destruct (initialized_num Hinit Hnum) as (Ht & He & Hu).
  rewrite Ht, He, Hu, Hx, Hel. repeat split.
Qed.

Lemma interval_dof2coeff_run :
  outcome (_compute_dof2coeff Lib.rmtclib linalg_inv s) = Ok Examples.interval_dof2coeff.
Proof.
  destruct interval_counts as (Ht & He & Hu).
  rewrite (@_compute_dof2coeff_unfold Lib.rmtclib linalg_inv s nm Hnum).
  rewrite Ht, Hx, Hinv.
  cbn [outcome snd]. unfold assemble. rewrite Ht, He, Hu, Hx, Hel.
  vm_compute. reflexivity.
Qed.

Lemma nodes_jac_run ix1 :
  (ix1 = 0 \/ ix1 = 1)%nat ->
  outcome (_compute_jac_raw Lib.rmtclib s ix1 0 Examples.nodes)
  = Ok (if (ix1 =? 0)%nat then Examples.nodes_jac_value
        else Examples.nodes_jac_deriv).
Proof.
  destruct interval_counts as (Ht & He & Hu).
  unfold _compute_jac_raw, the_num. rewrite Hnum. cbn [lift bind].
  rewrite Ht, Hx, Hel, Hxl. intros [-> | ->]; vm_compute; reflexivity.
Qed.

End Interval.

(** Through the operator and back through the evaluator at the nodes,
    every degree of freedom is returned as it was given. *)
Lemma nodal_values_returned d0 d1 d2 d3 d4 d5 :
  let coeffs :=
    sp_apply (stored Examples.interval_dof2coeff)
             (nrows Examples.interval_dof2coeff) [d0; d1; d2; d3; d4; d5] in
  Forall2 Qeq (sp_apply Examples.nodes_jac_value 3 coeffs) [d0; d2; d4] /\
  Forall2 Qeq (sp_apply Examples.nodes_jac_deriv 3 coeffs) [d1; d3; d5].
Proof.
  cbv - [Qplus Qmult Qeq].
  split; repeat constructor; ring.
Qed.

(** C6: with nx = 1, elem_list = [2] and xlimits = [[0, 1]], for any
    cubic f, the degrees of freedom (f(node), f'(node)) at the three
    nodes, sent through the Dof-to-Coefficient operator and evaluated by
    the Basis Evaluator at the nodes, give back f at the nodes (request
    (0, 0)) and f' at the nodes (request (1, 0)); in exact arithmetic,
    with an inversion that returns the inverse. *)
Theorem cubic_round_trip linalg_inv s nm c0 c1 c2 c3 :
  initialized s -> num s = Some nm ->
  num_x nm = 1%nat -> num_elem_list nm = [2%Z] ->
  xlimits (options s) = [(0, 1)] ->
  linalg_inv (compute_coeff2nodal Lib.rmtclib 1 4)
  = Some hermite_nodal2coeff ->
  let f := cubic c0 c1 c2 c3 in
  let f' := cubic' c1 c2 c3 in
  let dofs := [f 0; f' 0; f (1 # 2); f' (1 # 2); f 1; f' 1] in
  exists op jv jd,
    outcome (_compute_dof2coeff Lib.rmtclib linalg_inv s) = Ok op /\
    outcome (_compute_jac_raw Lib.rmtclib s 0 0 Examples.nodes) = Ok jv /\
    outcome (_compute_jac_raw Lib.rmtclib s 1 0 Examples.nodes) = Ok jd /\
    let coeffs := sp_apply (stored op) (nrows op) dofs in
    Forall2 Qeq (sp_apply jv 3 coeffs) [f 0; f (1 # 2); f 1] /\
    Forall2 Qeq (sp_apply jd 3 coeffs) [f' 0; f' (1 # 2); f' 1].
Proof.
  intros Hi Hn Hx Hel Hxl Hinv f f' dofs.
  exists Examples.interval_dof2coeff, Examples.nodes_jac_value,
    Examples.nodes_jac_deriv.
  split; [apply (@interval_dof2coeff_run linalg_inv s nm Hi Hn Hx Hel Hinv)|].
  split; [apply (@nodes_jac_run s nm Hi Hn Hx Hel Hxl 0%nat (or_introl eq_refl))|].
  split; [apply (@nodes_jac_run s nm Hi Hn Hx Hel Hxl 1%nat (or_intror eq_refl))|].
  apply nodal_values_returned.
Qed.

Lemma cubic_round_trip_witness :
  exists op jv jd,
    outcome (_compute_dof2coeff Lib.rmtclib Exact.linalg_inv
               (Examples.ready Examples.interval)) = Ok op /\
    outcome (_compute_jac_raw Lib.rmtclib (Examples.ready Examples.interval)
               0 0 Examples.nodes) = Ok jv /\
    outcome (_compute_jac_raw Lib.rmtclib (Examples.ready Examples.interval)
               1 0 Examples.nodes) = Ok jd /\
    let f := cubic 1 2 3 4 in
    let f' := cubic' 2 3 4 in
    let coeffs :=
      sp_apply (stored op) (nrows op)
        [f 0; f' 0; f (1 # 2); f' (1 # 2); f 1; f' 1] in
    Forall2 Qeq (sp_apply jv 3 coeffs) [f 0; f (1 # 2); f 1] /\
    Forall2 Qeq (sp_apply jd 3 coeffs) [f' 0; f' (1 # 2); f' 1].
Proof.
  apply (@cubic_round_trip Exact.linalg_inv
           (Examples.ready Examples.interval) _ 1 2 3 4
           (ready_initialized Examples.interval eq_refl) eq_refl).
  - reflexivity.
  - reflexivity.
  - reflexivity.
  - vm_compute. reflexivity.
Defined.

End RoundTripClaims.

(** ** 64-bit reduction of the counts *)

Module WrapFacts.
Import NumPy Counts NumPyFacts.
Local Open Scope Z_scope.

Lemma wrap_congr a b : a mod 2 ^ 64 = b mod 2 ^ 64 -> wrap a = wrap b.
Proof.
  intros H. unfold wrap.
  rewrite (Z.add_mod a), (Z.add_mod b), H by lia. reflexivity.
Qed.

Lemma wrap_mod z : wrap z mod 2 ^ 64 = z mod 2 ^ 64.
Proof.
  unfold wrap.
  rewrite <- Zminus_mod_idemp_l, Z.mod_mod by lia.
  rewrite Zminus_mod_idemp_l. f_equal. lia.
Qed.

Lemma wrap_mul_l a b : wrap (wrap a * b) = wrap (a * b).
Proof.
  apply wrap_congr. rewrite Z.mul_mod, wrap_mod, <- Z.mul_mod by lia.
  reflexivity.
Qed.

Lemma wrap_mul_r a b : wrap (a * wrap b) = wrap (a * b).
Proof. rewrite (Z.mul_comm a), wrap_mul_l, Z.mul_comm. reflexivity. Qed.

Lemma wrap_multiple k : wrap (2 ^ 64 * k) = 0.
Proof.
  unfold wrap. rewrite Z.add_comm, Z.mul_comm, Z.mod_add by lia.
  reflexivity.
Qed.

Lemma fold_mul_wrap l a : fold_left mul l (wrap a) = wrap (a * Zprod l).
Proof.
  revert a. induction l as [|e l IH]; intros a.
  - cbn [fold_left Zprod fold_right]. f_equal. lia.
  - cbn [fold_left]. rewrite Zprod_cons. unfold mul at 2.
    rewrite wrap_mul_l, IH. f_equal. ring.
Qed.

(** [np.prod] is the product reduced to 64 bits. *)
Lemma prod_wrap l : prod l = wrap (Zprod l).
Proof.
  unfold prod. change 1 with (wrap 1) at 1. rewrite fold_mul_wrap.
  f_equal. lia.
Qed.

Lemma fold_mul_shift l a :
  fold_left mul (shift l 1) (wrap a)
  = wrap (a * Zprod (map (fun e => e + 1) l)).
Proof.
  revert a. induction l as [|e l IH]; intros a.
  - cbn [shift map fold_left Zprod fold_right]. f_equal. lia.
  - cbn [shift map fold_left]. rewrite Zprod_cons.
    unfold mul at 2. unfold add. rewrite wrap_mul_l, wrap_mul_r.
    change (map (fun e0 => wrap (e0 + 1)) l) with (shift l 1).
    rewrite IH. f_equal. ring.
Qed.

Lemma prod_shift_wrap l :
  prod (shift l 1) = wrap (Zprod (map (fun e => e + 1) l)).
Proof.
  unfold prod. change 1 with (wrap 1) at 2. rewrite fold_mul_shift.
  f_equal. lia.
Qed.

Lemma term_wrap n : prod (scale 4 (ones n)) = wrap (4 ^ Z.of_nat n).
Proof. rewrite four_ones, prod_wrap, Zprod_repeat. reflexivity. Qed.

Lemma Zprod_zero l : In 0 l -> Zprod l = 0.
Proof.
  induction l as [|e l IH]; [contradiction|].
  rewrite Zprod_cons. intros [->|H]; [reflexivity|].
  rewrite (IH H). lia.
Qed.

End WrapFacts.

(** ** How [_initialize] ends, and what it stores *)

Module InitializeBehaviour.
Import NumPy Counts Runs NumPyFacts InitializeFacts WrapFacts.
Local Open Scope Z_scope.

(** The whole of [_initialize], by cases. *)
Lemma _initialize_run self :
  _initialize self
  = ([], match tp_lookup 0 (training_points self) with
         | None => Raise KeyError
         | Some (xt, yt) =>
             match converted_elements self (shape1 xt) with
             | Raise e => Raise e
             | Ok el =>
                 if fits (2 ^ Z.of_nat (shape1 xt))
                 then Ok {| options :=
                              {| smoothness :=
                                   normalize_option float_array (shape1 xt)
                                     (smoothness (options self));
                                 num_elements :=
                                   normalize_option int_array (shape1 xt)
                                     (num_elements (options self));
                                 max_print_depth :=
                                   max_print_depth (options self);
                                 xlimits := xlimits (options self) |};
                            training_points := training_points self;
                            printer_max_print_depth :=
                              max_print_depth (options self);
                            num :=
                              Some (num_of (shape1 xt) (shape1 yt)
                                      (rows_total (training_points self)) el
                                      (mul (prod (shift el 1))
                                           (2 ^ Z.of_nat (shape1 xt)))) |}
                 else Raise OverflowError
             end
         end).
Proof.
  unfold _initialize, converted_elements, configured_array.
  destruct (tp_lookup 0 (training_points self)) as [[xt yt]|]; [|reflexivity].
  cbn [lift bind fst snd].
  destruct (np_array_int _); [|reflexivity].
  cbn [bind]. unfold np_mul_pyint.
  destruct (fits (2 ^ Z.of_nat (shape1 xt))); reflexivity.
Qed.

Lemma returned_num self s' nm :
  outcome (_initialize self) = Ok s' -> num s' = Some nm ->
  exists y t dof,
    nm = num_of (num_x nm) y t (num_elem_list nm) dof /\
    dof = mul (prod (shift (num_elem_list nm) 1)) (2 ^ Z.of_nat (num_x nm)).
Proof.
  intros Ho Hn.
  destruct (_initialize_stored _ Ho)
    as (xt & yt & el & _ & _ & _ & _ & _ & Hnum).
  rewrite Hnum in Hn. injection Hn as <-.
  eexists _, _, _. split; reflexivity.
Qed.

Lemma discover_object z : discover z = object <-> in_64_bits z = false.
Proof.
  unfold discover, in_64_bits. destruct (fits z) eqn:Hf.
  - apply fits_iff in Hf. unfold int_min, int_max, uint_max in *.
    split; [discriminate|]. intros H. apply andb_false_iff in H.
    rewrite !Z.leb_gt in H. lia.
  - assert (Hn : ~ (int_min <= z <= int_max))
      by (rewrite <- fits_iff, Hf; discriminate).
    destruct ((0 <=? z) && (z <=? uint_max)) eqn:Hu.
    + apply andb_true_iff in Hu. rewrite !Z.leb_le in Hu.
      split; [discriminate|]. intros H. apply andb_false_iff in H.
      rewrite !Z.leb_gt in H. unfold int_min, int_max, uint_max in *. lia.
    + split; [intros _|reflexivity]. apply andb_false_iff in Hu.
      rewrite !Z.leb_gt in Hu. apply andb_false_iff. rewrite !Z.leb_gt.
      unfold int_min, int_max, uint_max in *. lia.
Qed.

Lemma promote_object a b :
  promote a b = object <-> a = object \/ b = object.
Proof. destruct a, b; cbn; intuition discriminate. Qed.

Lemma fold_promote_object l d :
  fold_left (fun d e => promote d (discover e)) l d = object
  <-> d = object \/ forallb in_64_bits l = false.
Proof.
  revert d. induction l as [|e l IH]; intros d; cbn [fold_left forallb].
  - intuition discriminate.
  - rewrite IH, promote_object, discover_object, andb_false_iff. tauto.
Qed.

Lemma result_type_object l :
  result_type l = object <-> forallb in_64_bits l = false.
Proof.
  destruct l as [|e l]; [cbn; intuition discriminate|].
  cbn [result_type forallb].
  rewrite fold_promote_object, discover_object, andb_false_iff. tauto.
Qed.

Lemma in_64_bits_fits l : forallb in_64_bits l = false -> forallb fits l = false.
Proof.
  induction l as [|e l IH]; [discriminate|]. cbn [forallb].
  rewrite !andb_false_iff. intros [H|H]; [left|right; exact (IH H)].
  destruct (fits e) eqn:Hf; [|reflexivity].
  apply fits_iff in Hf. unfold in_64_bits in H. apply andb_false_iff in H.
  rewrite !Z.leb_gt in H. unfold int_min, int_max, uint_max in *. lia.
Qed.

(** [np.array(np.array(l), int)] for a list of Python integers raises
    exactly when some entry is outside 64 bits. *)
Lemma list_converted l :
  if forallb in_64_bits l
  then exists el, np_array_int (int_array l) = Ok el
  else np_array_int (int_array l) = Raise OverflowError.
Proof.
  destruct (forallb in_64_bits l) eqn:H.
  - unfold int_array. destruct (result_type l) eqn:Hd; cbn; eauto.
    apply result_type_object in Hd. congruence.
  - unfold int_array. rewrite (proj2 (result_type_object l) H).
    cbn. rewrite (in_64_bits_fits _ H). reflexivity.
Qed.

Lemma configured_python self nx l :
  python_entries (num_elements (options self)) nx = Some l ->
  configured_array self nx = int_array l /\
  normalize_option int_array nx (num_elements (options self))
  = Array (fst (int_array l)) (snd (int_array l)).
Proof.
  unfold configured_array, normalize_option.
  destruct (num_elements (options self)); try discriminate;
    intros [= <-]; cbn [atleast_1d];
    destruct (int_array _) as [d l']; split; reflexivity.
Qed.

(** X1: [_initialize] calls no library routine. It raises KeyError
    exactly when the training data has no entry for the function values
    (key 0). With that entry present, fewer than 63 inputs and
    [num_elements] given in Python integers (one number or a list), it
    raises OverflowError exactly when some element count lies outside
    64 bits, below [-2**63] or above [2**64 - 1], and returns exactly
    when all of them lie inside. *)
Theorem initialize_raises self :
  calls (_initialize self) = [] /\
  (outcome (_initialize self) = Raise KeyError
   <-> tp_lookup 0 (training_points self) = None) /\
  forall xt yt l,
    tp_lookup 0 (training_points self) = Some (xt, yt) ->
    (shape1 xt < 63)%nat ->
    python_entries (num_elements (options self)) (shape1 xt) = Some l ->
    (outcome (_initialize self) = Raise OverflowError
     <-> forallb in_64_bits l = false) /\
    ((exists s', outcome (_initialize self) = Ok s')
     <-> forallb in_64_bits l = true).
Proof.
  rewrite _initialize_run. cbn [calls outcome fst snd].
  split; [reflexivity|]. split.
  - destruct (tp_lookup 0 (training_points self)) as [[xt yt]|].
    + split; [|discriminate].
      unfold converted_elements.
      destruct (configured_array self (shape1 xt)) as [d l].
      unfold np_array_int.
      destruct d; try (destruct (fits _); discriminate).
      destruct (forallb fits l); [destruct (fits _)|]; discriminate.
    + split; reflexivity.
  - intros xt yt l -> Hnx Hpy.
    rewrite (InitializeClaims.pow2_fits Hnx).
    unfold converted_elements.
    rewrite (proj1 (configured_python self _ Hpy)).
    pose proof (list_converted l) as Hc.
    destruct (forallb in_64_bits l).
    + destruct Hc as [el ->].
      split; split; try discriminate; eauto.
    + rewrite Hc. split; split; try reflexivity; try discriminate.
      intros [s' H]. discriminate.
Qed.

Lemma initialize_raises_witness :
  outcome (_initialize EdgeCases.derivatives_only) = Raise KeyError /\
  outcome (_initialize EdgeCases.huge_count) = Raise OverflowError /\
  exists s', outcome (_initialize EdgeCases.oversized) = Ok s'.
Proof.
  split; [|split].
  - apply (proj1 (proj2 (initialize_raises EdgeCases.derivatives_only))).
    reflexivity.
  - apply (proj2 (proj2 (initialize_raises EdgeCases.huge_count))
             (Examples.empty_array 5 2) (Examples.empty_array 5 1)
             [2 ^ 64; 2 ^ 64] eq_refl ltac:(simpl; lia) eq_refl).
    reflexivity.
  - apply (proj2 (proj2 (initialize_raises EdgeCases.oversized))
             (Examples.empty_array 5 1) (Examples.empty_array 5 1)
             [2 ^ 63] eq_refl ltac:(simpl; lia) eq_refl).
    reflexivity.
Defined.

Lemma fold_promote_same l d :
  Forall (fun e => discover e = d) l ->
  fold_left (fun d e => promote d (discover e)) l d = d.
Proof.
  induction 1 as [|e l He _ IH]; [reflexivity|].
  cbn [fold_left]. rewrite He, promote_same. exact IH.
Qed.

Lemma result_type_same l d :
  l <> [] -> Forall (fun e => discover e = d) l -> result_type l = d.
Proof.
  intros Hne H. destruct l as [|e l]; [congruence|].
  cbn [result_type]. inversion H as [|? ? He Hl]; subst.
  apply fold_promote_same, Hl.
Qed.

(** A list of entries inside the 64-bit integer becomes an array of
    these entries. *)
Lemma int_array_fits l : forallb fits l = true -> snd (int_array l) = l.
Proof.
  intros H. destruct l as [|e l]; [reflexivity|].
  unfold int_array. rewrite (@result_type_same _ int64); [reflexivity | discriminate |].
  apply Forall_forall. intros z Hz. rewrite forallb_forall in H.
  unfold discover. rewrite (H z Hz). reflexivity.
Qed.

(** A list of entries past the signed range becomes an unsigned array,
    and its conversion takes [2 ^ 64] off every entry. *)
Lemma int_array_unsigned l :
  l <> [] -> Forall (fun e => int_max < e <= uint_max) l ->
  np_array_int (int_array l) = Ok (map (fun e => e - 2 ^ 64) l).
Proof.
  intros Hne H. unfold int_array.
  rewrite (@result_type_same _ uint64 Hne).
  - cbn [np_array_int]. f_equal. apply map_ext_in. intros e He.
    rewrite Forall_forall in H. specialize (H e He).
    unfold wrap, int_max, uint_max in *.
    replace (e + 2 ^ 63) with ((e - 2 ^ 63) + 1 * 2 ^ 64) by lia.
    rewrite Z.mod_add, Z.mod_small by lia. lia.
  - apply Forall_forall. intros e He.
    rewrite Forall_forall in H. specialize (H e He).
    unfold discover.
    replace (fits e) with false.
    + replace ((0 <=? e) && (e <=? uint_max)) with true; [reflexivity|].
      symmetry. apply andb_true_iff. rewrite !Z.leb_le.
      unfold int_max in *. lia.
    + symmetry. destruct (fits e) eqn:Hf; [|reflexivity].
      apply fits_iff in Hf. lia.
Qed.

(** X2: options given as lists are not validated. With [smoothness] and
    [num_elements] both lists of Python numbers, [_initialize] returns as
    soon as the element counts fit the 64-bit integer (and nx < 63),
    whatever the length of the lists and the sign of the counts. When it
    returns, the training data is as it was, [max_print_depth] is copied
    to the printer, the options hold the arrays made of the lists, and
    [elem_list] is the conversion of that array to the 64-bit integer:
    the list itself when its entries fit, and for a list of entries from
    [2**63] to [2**64 - 1] the entries less [2**64]; [uniq_list] is
    [elem_list] plus one. *)
Theorem sequence_options_kept self xt yt l q :
  tp_lookup 0 (training_points self) = Some (xt, yt) ->
  num_elements (options self) = Sequence l ->
  smoothness (options self) = Sequence q ->
  (forallb fits l = true -> (shape1 xt < 63)%nat ->
   exists s', _initialize self = ([], Ok s')) /\
  forall s', outcome (_initialize self) = Ok s' ->
    smoothness (options s') = Array float64 q /\
    num_elements (options s')
    = Array (fst (int_array l)) (snd (int_array l)) /\
    max_print_depth (options s') = max_print_depth (options self) /\
    xlimits (options s') = xlimits (options self) /\
    training_points s' = training_points self /\
    printer_max_print_depth s' = max_print_depth (options self) /\
    exists nm, num s' = Some nm /\
      num_x nm = shape1 xt /\
      np_array_int (int_array l) = Ok (num_elem_list nm) /\
      (forallb fits l = true -> num_elem_list nm = l) /\
      (l <> [] -> Forall (fun e => int_max < e <= uint_max) l ->
       num_elem_list nm = map (fun e => e - 2 ^ 64) l) /\
      num_uniq_list nm = map (fun e => wrap (e + 1)) (num_elem_list nm).
Proof.
  intros Hl Hne Hsm.
  assert (Hpy : python_entries (num_elements (options self)) (shape1 xt)
                = Some l) by (rewrite Hne; reflexivity).
  destruct (configured_python self _ Hpy) as [Hca Hno].
  split.
  - intros Hf Hnx.
    apply (_initialize_total self Hl); [|exact (InitializeClaims.pow2_fits Hnx)].
    unfold configured_elements. rewrite Hno. cbn [values].
    rewrite (int_array_fits _ Hf). exact Hf.
  - intros s' Ho.
    destruct (_initialize_stored _ Ho)
      as (xt' & yt' & el & Hl' & Hel & _ & Hopt & Htp & Hnum).
    rewrite Hl in Hl'. injection Hl' as <- <-.
    unfold converted_elements in Hel. rewrite Hca in Hel.
    rewrite Hopt, Hno, Hsm.
    cbn [smoothness num_elements max_print_depth xlimits normalize_option
         atleast_1d float_array].
    repeat (split; [reflexivity|]). split; [exact Htp|]. split.
    + pose proof Ho as Ho'. rewrite _initialize_run, Hl in Ho'.
      cbn [outcome snd] in Ho'.
      destruct (converted_elements self (shape1 xt)); [|discriminate].
      destruct (fits _); [|discriminate].
      injection Ho' as <-. reflexivity.
    + eexists. split; [exact Hnum|].
      cbn [num_of num_x num_elem_list num_uniq_list].
      split; [reflexivity|]. split; [exact Hel|]. split; [|split].
      * intros Hf.
        rewrite (surjective_pairing (int_array l)), (int_array_fits _ Hf),
          (np_array_int_fits _ _ Hf) in Hel.
        injection Hel as <-. reflexivity.
      * intros Hne' Hu. rewrite (int_array_unsigned Hne' Hu) in Hel.
        injection Hel as <-. reflexivity.
      * reflexivity.
Qed.

Lemma sequence_options_kept_witness :
  (exists s' nm,
     _initialize EdgeCases.uneven = ([], Ok s') /\
     num s' = Some nm /\ num_x nm = 1%nat /\ num_elem_list nm = [3; -2]) /\
  (exists s' nm,
     outcome (_initialize EdgeCases.oversized) = Ok s' /\
     num s' = Some nm /\ num_elem_list nm = [- 2 ^ 63]).
Proof.
  split.
  - destruct (@sequence_options_kept EdgeCases.uneven
                (Examples.empty_array 5 1) (Examples.empty_array 5 1)
                [3; -2] [1%Q; 2%Q; 3%Q] eq_refl eq_refl eq_refl)
      as [Htotal Hkept].
    destruct (Htotal eq_refl ltac:(simpl; lia)) as [s' Hs'].
    destruct (Hkept s' ltac:(rewrite Hs'; reflexivity))
      as (_ & _ & _ & _ & _ & _ & nm & Hn & Hx & _ & He & _).
    exists s', nm. split; [exact Hs'|]. split; [exact Hn|].
    split; [exact Hx|]. exact (He eq_refl).
  - pose (self := {| options := {| smoothness := Sequence [1%Q];
                                   num_elements := Sequence [2 ^ 63];
                                   max_print_depth := 5;
                                   xlimits := [(0%Q, 1%Q)] |};
                     training_points :=
                       [(0%nat, (Examples.empty_array 5 1,
                                 Examples.empty_array 5 1))];
                     printer_max_print_depth := 0;
                     num := None |}).
    destruct (@sequence_options_kept self
                (Examples.empty_array 5 1) (Examples.empty_array 5 1)
                [2 ^ 63] [1%Q] eq_refl eq_refl eq_refl) as [_ Hkept].
    destruct (Hkept (Examples.ready EdgeCases.oversized) eq_refl)
      as (_ & _ & _ & _ & _ & _ & nm & Hn & _ & _ & _ & He & _).
    exists (Examples.ready EdgeCases.oversized), nm.
    split; [reflexivity|]. split; [exact Hn|].
    apply He; [discriminate|].
    repeat constructor; vm_compute; congruence.
Defined.

(** X3: [_initialize] is idempotent: run again on the object it
    returned, it returns that object unchanged (the options are already
    arrays and the counts are recomputed to the same values). *)
Theorem initialize_idempotent self s' :
  outcome (_initialize self) = Ok s' -> _initialize s' = ([], Ok s').
Proof.
  rewrite (_initialize_run self). cbn [outcome snd].
  destruct (tp_lookup 0 (training_points self)) as [[xt yt]|] eqn:Hl;
    [|discriminate].
  destruct (converted_elements self (shape1 xt)) as [el|] eqn:Hc;
    [|discriminate].
  destruct (fits _) eqn:Hf; [|discriminate]. intros [= <-].
  rewrite _initialize_run.
  cbn [options training_points smoothness num_elements max_print_depth
       xlimits].
  rewrite Hl. unfold converted_elements, configured_array in *.
  cbn [options num_elements].
  assert (Hn : forall A (f : list A -> dtype * list A) n v,
             normalize_option f n (normalize_option f n v)
             = normalize_option f n v).
  { intros A f n v. unfold normalize_option at 2 3.
    destruct (atleast_1d f _) as [d l]. reflexivity. }
  rewrite !Hn, Hc, Hf. reflexivity.
Qed.

Lemma initialize_idempotent_witness :
  _initialize (Examples.ready Examples.square_grid)
  = ([], Ok (Examples.ready Examples.square_grid)).
Proof.
  apply (@initialize_idempotent Examples.square_grid). reflexivity.
Defined.

Lemma returned_counts self s' nm :
  outcome (_initialize self) = Ok s' -> num s' = Some nm ->
  num_term nm = wrap (4 ^ Z.of_nat (num_x nm)) /\
  num_elem nm = wrap (Zprod (num_elem_list nm)) /\
  num_uniq nm = wrap (Zprod (map (fun e => e + 1) (num_elem_list nm))) /\
  num_coeff nm = wrap (4 ^ Z.of_nat (num_x nm) * Zprod (num_elem_list nm)) /\
  num_dof nm = wrap (Zprod (map (fun e => e + 1) (num_elem_list nm))
                     * 2 ^ Z.of_nat (num_x nm)) /\
  num_support nm = num_term nm /\
  num_uniq_list nm = map (fun e => wrap (e + 1)) (num_elem_list nm) /\
  num_term_list nm = repeat 4 (num_x nm).
Proof.
  intros Ho Hn.
  destruct (returned_num _ Ho Hn) as (y & t & dof & -> & ->).
  cbn [num_of num_term num_x num_elem num_elem_list num_uniq num_coeff
       num_dof num_support num_uniq_list num_term_list].
  rewrite term_wrap, prod_wrap, prod_shift_wrap, four_ones.
  unfold mul. rewrite wrap_mul_l, wrap_mul_r, wrap_mul_l.
  repeat split.
Qed.

(** X4: in every run of [_initialize] that returns, whatever the
    configuration, each stored count is the true count reduced to 64-bit
    two's complement ([wrap]): [term] is [4**nx], [elem] the product of
    [elem_list], [uniq] the product of [elem_list + 1], [coeff] is
    [4**nx * elem] and [dof] is [uniq * 2**nx], each modulo [2**64];
    [support] is [term], [uniq_list] is [elem_list + 1] entry by entry
    and [term_list] is nx fours. *)
Theorem stored_counts_are_reduced self s' nm :
  outcome (_initialize self) = Ok s' -> num s' = Some nm ->
  num_term nm = wrap (4 ^ Z.of_nat (num_x nm)) /\
  num_elem nm = wrap (Zprod (num_elem_list nm)) /\
  num_uniq nm = wrap (Zprod (map (fun e => e + 1) (num_elem_list nm))) /\
  num_coeff nm = wrap (4 ^ Z.of_nat (num_x nm) * Zprod (num_elem_list nm)) /\
  num_dof nm = wrap (Zprod (map (fun e => e + 1) (num_elem_list nm))
                     * 2 ^ Z.of_nat (num_x nm)) /\
  num_support nm = num_term nm /\
  num_uniq_list nm = map (fun e => wrap (e + 1)) (num_elem_list nm) /\
  num_term_list nm = repeat 4 (num_x nm).
Proof. exact (@returned_counts self s' nm). Qed.

Lemma stored_counts_are_reduced_witness :
  exists nm,
    num (Examples.ready Examples.wide) = Some nm /\
    num_term nm = wrap (4 ^ Z.of_nat (num_x nm)) /\
    num_dof nm = wrap (Zprod (map (fun e => e + 1) (num_elem_list nm))
                       * 2 ^ Z.of_nat (num_x nm)).
Proof.
  eexists. split; [reflexivity|].
  destruct (@stored_counts_are_reduced Examples.wide
              (Examples.ready Examples.wide) _ eq_refl eq_refl)
    as (Ht & _ & _ & _ & Hd & _).
  split; assumption.
Defined.

(** X5: the number of terms per element silently overflows from 32
    inputs on. Whenever [_initialize] returns, [term] is exactly [4**nx]
    for nx < 32, and for nx >= 32 the stored [term], [support] and
    [coeff] are all 0, whatever the element counts. *)
Theorem term_count_exact_below_32_inputs self s' nm :
  outcome (_initialize self) = Ok s' -> num s' = Some nm ->
  ((num_x nm < 32)%nat -> num_term nm = 4 ^ Z.of_nat (num_x nm)) /\
  ((32 <= num_x nm)%nat ->
   num_term nm = 0 /\ num_support nm = 0 /\ num_coeff nm = 0).
Proof.
  intros Ho Hn.
  destruct (returned_counts _ Ho Hn) as (Ht & _ & _ & Hc & _ & Hs & _).
  rewrite Hs, Hc, Ht. split.
  - intros Hlt. apply wrap_small. unfold int_min, int_max.
    assert (4 ^ Z.of_nat (num_x nm) <= 4 ^ 31)
      by (apply Z.pow_le_mono_r; lia).
    assert (0 < 4 ^ Z.of_nat (num_x nm)) by (apply Z.pow_pos_nonneg; lia).
    lia.
  - intros Hge.
    assert (E : 4 ^ Z.of_nat (num_x nm)
                = 2 ^ 64 * 4 ^ (Z.of_nat (num_x nm) - 32)).
    { change (2 ^ 64) with (4 ^ 32). rewrite <- Z.pow_add_r by lia.
      f_equal. lia. }
    rewrite E, <- Z.mul_assoc, !wrap_multiple. repeat split.
Qed.

Lemma term_count_exact_below_32_inputs_witness :
  exists nm,
    num (Examples.ready Examples.wide) = Some nm /\
    num_term nm = 0 /\ num_support nm = 0 /\ num_coeff nm = 0.
Proof.
  eexists. split; [reflexivity|].
  apply (proj2 (@term_count_exact_below_32_inputs Examples.wide
                  (Examples.ready Examples.wide) _ eq_refl eq_refl)).
  simpl. lia.
Defined.

(** X6: an element count of 0 is not rejected: if [_initialize] returns
    and some entry of [elem_list] is 0, the stored [elem] and [coeff] are
    0 (a grid without elements). *)
Theorem zero_element_count_gives_empty_grid self s' nm :
  outcome (_initialize self) = Ok s' -> num s' = Some nm ->
  In 0 (num_elem_list nm) -> num_elem nm = 0 /\ num_coeff nm = 0.
Proof.
  intros Ho Hn Hz.
  destruct (returned_counts _ Ho Hn) as (_ & He & _ & Hc & _).
  rewrite He, Hc, (Zprod_zero _ Hz), Z.mul_0_r. split; reflexivity.
Qed.

Lemma zero_element_count_gives_empty_grid_witness :
  exists s' nm,
    _initialize EdgeCases.flat = ([], Ok s') /\
    num s' = Some nm /\ num_elem nm = 0 /\ num_coeff nm = 0.
Proof.
  eexists. eexists. split; [reflexivity|]. split; [reflexivity|].
  apply (@zero_element_count_gives_empty_grid EdgeCases.flat
           _ _ eq_refl eq_refl).
  simpl. tauto.
Defined.

Lemma tp_lookup_perm k (tp1 tp2 : training_set) :
  Permutation tp1 tp2 -> NoDup (map fst tp1) ->
  tp_lookup k tp1 = tp_lookup k tp2.
Proof.
  induction 1 as [|[k1 v] l l' Hp IH|[k1 v1] [k2 v2] l|l l' l'' H1 IH1 H2 IH2];
    intros Hnd.
  - reflexivity.
  - cbn [tp_lookup]. destruct (Nat.eqb k1 k); [reflexivity|].
    apply IH. cbn in Hnd. inversion Hnd; assumption.
  - cbn [tp_lookup].
    destruct (Nat.eqb_spec k1 k) as [E1|], (Nat.eqb_spec k2 k) as [E2|];
      try reflexivity.
    exfalso. cbn in Hnd. inversion Hnd as [|? ? Hin _]. apply Hin. left.
    congruence.
  - rewrite IH1, IH2; [reflexivity | | exact Hnd].
    apply (Permutation_NoDup (Permutation_map fst H1) Hnd).
Qed.

Lemma rows_total_sum (tp : training_set) :
  rows_total tp = list_sum (map (fun kv => shape0 (fst (snd kv))) tp).
Proof.
  unfold rows_total.
  assert (H : forall a,
             fold_left (fun acc kv => (acc + shape0 (fst (snd kv)))%nat) tp a
             = (a + list_sum (map (fun kv => shape0 (fst (snd kv))) tp))%nat).
  { induction tp as [|kv tp IH]; intros a; cbn [fold_left map list_sum fold_right].
    - lia.
    - rewrite IH. fold (list_sum (map (fun kv => shape0 (fst (snd kv))) tp)).
      lia. }
  apply H.
Qed.

Lemma list_sum_perm l1 l2 : Permutation l1 l2 -> list_sum l1 = list_sum l2.
Proof.
  induction 1; cbn [list_sum fold_right] in *; try lia.
  fold (list_sum l) in *. fold (list_sum l') in *. lia.
Qed.

Lemma rows_total_perm (tp1 tp2 : training_set) :
  Permutation tp1 tp2 -> rows_total tp1 = rows_total tp2.
Proof.
  intros H. rewrite !rows_total_sum. apply list_sum_perm.
  apply Permutation_map. exact H.
Qed.

(** X7: the order in which the training data was entered does not
    matter. An object with the same options and the same entries of
    [training_points] in another order (keys distinct, as in a dict) is
    initialized whenever the first is, to the same options and the same
    [num]; and [num['t']] is the sum of the row counts of the inputs over
    all keys, derivatives included. *)
Theorem training_order_irrelevant self other s' :
  Permutation (training_points self) (training_points other) ->
  NoDup (map fst (training_points self)) ->
  options other = options self ->
  outcome (_initialize self) = Ok s' ->
  exists o' nm,
    _initialize other = ([], Ok o') /\
    num o' = Some nm /\ num s' = Some nm /\ options o' = options s' /\
    num_t nm = list_sum (map (fun kv => shape0 (fst (snd kv)))
                             (training_points self)).
Proof.
  intros Hp Hnd Hopt. rewrite !_initialize_run. cbn [outcome snd].
  rewrite <- (tp_lookup_perm 0 Hp Hnd), <- (rows_total_perm Hp).
  unfold converted_elements, configured_array. rewrite Hopt.
  destruct (tp_lookup 0 (training_points self)) as [[xt yt]|]; [|discriminate].
  destruct (np_array_int _); [|discriminate].
  destruct (fits _); [|discriminate]. intros [= <-].
  eexists. eexists. split; [reflexivity|]. cbn [num options].
  split; [reflexivity|]. split; [reflexivity|]. split; [reflexivity|].
  cbn [num_of num_t]. apply rows_total_sum.
Qed.

Lemma training_order_irrelevant_witness :
  exists o' nm,
    _initialize EdgeCases.reordered = ([], Ok o') /\
    num o' = Some nm /\
    num (Examples.ready Examples.interval_again) = Some nm /\
    num_t nm = 6%nat.
Proof.
  destruct (@training_order_irrelevant Examples.interval_again
              EdgeCases.reordered (Examples.ready Examples.interval_again))
    as (o' & nm & Hrun & Hno & Hns & _ & Ht).
  - apply Permutation_rev.
  - cbn. constructor; [intros [H|[]]; discriminate|].
    constructor; [intros []|constructor].
  - reflexivity.
  - reflexivity.
  - exists o', nm. repeat split; assumption.
Defined.

Lemma shared_nodes_bound l :
  Forall (fun e => 0 < e) l ->
  0 < Zprod (map (fun e => e + 1) l) * 2 ^ Z.of_nat (length l)
  /\ Zprod (map (fun e => e + 1) l) * 2 ^ Z.of_nat (length l)
     <= 4 ^ Z.of_nat (length l) * Zprod l
  /\ (Zprod (map (fun e => e + 1) l) * 2 ^ Z.of_nat (length l)
      = 4 ^ Z.of_nat (length l) * Zprod l -> Forall (fun e => e = 1) l).
Proof.
  induction 1 as [|e l He Hl (IHpos & IHle & IHeq)].
  - cbn. repeat split; [lia | constructor].
  - cbn [map length].
    rewrite !Zprod_cons, Nat2Z.inj_succ, !Z.pow_succ_r by lia.
    remember (Zprod (map (fun e => e + 1) l) * 2 ^ Z.of_nat (length l)) as A.
    remember (4 ^ Z.of_nat (length l) * Zprod l) as B.
    replace ((e + 1) * Zprod (map (fun e0 => e0 + 1) l)
             * (2 * 2 ^ Z.of_nat (length l)))
      with (2 * (e + 1) * A) by (subst A; ring).
    replace (4 * 4 ^ Z.of_nat (length l) * (e * Zprod l))
      with (4 * e * B) by (subst B; ring).
    split; [nia|]. split; [nia|].
    intros E.
    assert (E1 : e = 1) by nia. subst e.
    constructor; [reflexivity|]. apply IHeq. lia.
Qed.

Lemma single_elements_bound l :
  Forall (fun e => e = 1) l ->
  Zprod (map (fun e => e + 1) l) * 2 ^ Z.of_nat (length l)
  = 4 ^ Z.of_nat (length l) * Zprod l.
Proof.
  induction 1 as [|e l -> Hl IH].
  - reflexivity.
  - cbn [map length].
    rewrite !Zprod_cons, Nat2Z.inj_succ, !Z.pow_succ_r by lia.
    replace ((1 + 1) * Zprod (map (fun e0 => e0 + 1) l)
             * (2 * 2 ^ Z.of_nat (length l)))
      with (4 * (Zprod (map (fun e => e + 1) l) * 2 ^ Z.of_nat (length l)))
      by ring.
    rewrite IH. ring.
Qed.

(** X8: for a valid configuration it is enough that [coeff] fits the
    64-bit integer: then every stored count is exact, and the number of
    degrees of freedom is positive and at most the number of
    coefficients, [dof <= coeff], with equality exactly when every axis
    has a single element. *)
Theorem dof_at_most_coeff self s' nm :
  outcome (_initialize self) = Ok s' -> num s' = Some nm ->
  valid_configuration (num_x nm) (num_elem_list nm) ->
  4 ^ Z.of_nat (num_x nm) * Zprod (num_elem_list nm) <= int_max ->
  derived_counts nm /\
  0 < num_dof nm <= num_coeff nm /\
  (num_dof nm = num_coeff nm <-> Forall (fun e => e = 1) (num_elem_list nm)).
Proof.
  intros Ho Hn Hv Hc. pose proof Hv as (Hnx & Hlen & Hpos).
  destruct (shared_nodes_bound Hpos) as (Hdpos & Hle & Heq).
  rewrite Hlen in Hdpos, Hle, Heq.
  assert (Hrep : representable (num_x nm) (num_elem_list nm))
    by (split; lia).
  assert (Hd : derived_counts nm).
  { apply (@InitializeClaims.initialized_counts s' nm); trivial.
    exists self. exact Ho. }
  split; [exact Hd|].
  destruct Hd as (Ht & Hu & Hdof & He & Hco & _).
  rewrite Hdof, Hco, Ht, Hu, He. split; [lia|]. split.
  - exact Heq.
  - intros H1. rewrite <- Hlen. apply single_elements_bound. exact H1.
Qed.

Lemma dof_at_most_coeff_witness :
  exists nm,
    num (Examples.ready Examples.square_grid) = Some nm /\
    0 < num_dof nm <= num_coeff nm.
Proof.
  eexists. split; [reflexivity|].
  apply (@dof_at_most_coeff Examples.square_grid
           (Examples.ready Examples.square_grid) _ eq_refl eq_refl).
  - repeat split; [simpl; lia | repeat constructor].
  - vm_compute. discriminate.
Defined.

End InitializeBehaviour.

(** ** Applying a sparse product to a vector *)

Module ApplyFacts.
Import Runs SparseFacts.
Local Open Scope Q_scope.

Lemma sp_apply_component t m v r :
  (r < m)%nat ->
  component (sp_apply t m v) r
  = Qsum (map (fun e => e_val e * component v (e_col e)) (row_entries t r)).
Proof.
  intros H. unfold component, sp_apply.
  set (f := fun r0 => Qsum (map (fun e => e_val e * nth (e_col e) v 0)
                                (row_entries t r0))).
  rewrite (nth_indep _ 0 (f 0%nat)) by (rewrite length_map, length_seq; exact H).
  rewrite map_nth, seq_nth by exact H. reflexivity.
Qed.

Lemma row_entries_app t1 t2 r :
  row_entries (t1 ++ t2) r = row_entries t1 r ++ row_entries t2 r.
Proof. apply filter_app. Qed.

Lemma row_entries_cons e t r :
  row_entries (e :: t) r
  = if (e_row e =? r)%nat then e :: row_entries t r else row_entries t r.
Proof. reflexivity. Qed.

(** What one entry of the left factor contributes to row [r] of the
    product applied to a vector. *)
Lemma apply_terms a B (f : nat -> Q) r :
  Qsum (map (fun e => e_val e * f (e_col e)) (row_entries (sp_terms a B) r))
  == if (e_row a =? r)%nat
     then e_val a * Qsum (map (fun e => e_val e * f (e_col e))
                              (row_entries B (e_col a)))
     else 0.
Proof.
  induction B as [|b B IH].
  - cbn. destruct (e_row a =? r)%nat; ring.
  - change (sp_terms a (b :: B))
      with ((if (e_col a =? e_row b)%nat
             then [((e_val a * e_val b)%Q, (e_row a, e_col b))]
             else []) ++ sp_terms a B).
    rewrite row_entries_app, map_app, Qsum_app, IH, (row_entries_cons b B).
    rewrite (Nat.eqb_sym (e_row b) (e_col a)).
    destruct (e_col a =? e_row b)%nat.
    + rewrite row_entries_cons. cbn [e_row e_col e_val fst snd].
      destruct (e_row a =? r)%nat; cbn [row_entries filter map];
        rewrite ?Qsum_cons; cbn [Qsum fold_right e_val e_col fst snd]; ring.
    + cbn [row_entries filter map Qsum fold_right].
      destruct (e_row a =? r)%nat; ring.
Qed.

Lemma apply_product (A B : coo) (f : nat -> Q) r :
  Qsum (map (fun e => e_val e * f (e_col e))
            (row_entries (flat_map (fun a => sp_terms a B) A) r))
  == Qsum (map (fun a => e_val a
                         * Qsum (map (fun e => e_val e * f (e_col e))
                                     (row_entries B (e_col a))))
               (row_entries A r)).
Proof.
  induction A as [|a A IH].
  - reflexivity.
  - cbn [flat_map]. rewrite row_entries_app, map_app, Qsum_app, IH.
    rewrite apply_terms, row_entries_cons.
    destruct (e_row a =? r)%nat.
    + cbn [map]. rewrite Qsum_cons. reflexivity.
    + ring.
Qed.

(** Applying the product of two matrices is applying one after the
    other, when the columns of the left one are rows of the right one. *)
Lemma apply_in_two_steps (N U : csc) v r :
  (r < nrows N)%nat ->
  (forall e, In e (stored N) -> (e_col e < nrows U)%nat) ->
  component (sp_apply (stored (product N U)) (nrows (product N U)) v) r
  == component (sp_apply (stored N) (nrows N)
                  (sp_apply (stored U) (nrows U) v)) r.
Proof.
  intros Hr Hcol. unfold product. cbn [stored nrows].
  rewrite !sp_apply_component by exact Hr.
  rewrite (apply_product (stored N) (stored U) (component v)).
  apply Qsum_map_ext. intros a Ha.
  apply filter_In in Ha. destruct Ha as [Ha _].
  rewrite sp_apply_component by (apply Hcol; exact Ha). reflexivity.
Qed.

End ApplyFacts.

(** ** How the two methods end, for any library *)

Module MethodBehaviour.
Import NumPy Counts Runs NumPyFacts InitializeFacts WrapFacts MethodClaims.
Import InitializeBehaviour ApplyFacts.

Lemma csc_matrix_ok t m n A :
  csc_matrix t (m, n) = Ok A ->
  (0 <= m)%Z /\ (0 <= n)%Z /\
  nrows A = Z.to_nat m /\ ncols A = Z.to_nat n /\ stored A = t /\
  forall e, In e t -> (e_row e < nrows A)%nat /\ (e_col e < ncols A)%nat.
Proof.
  unfold csc_matrix.
  destruct (0 <=? m)%Z eqn:Hm; [|discriminate].
  destruct (0 <=? n)%Z eqn:Hn; [|discriminate].
  cbn [andb]. destruct (forallb _ t) eqn:Hall; [|discriminate].
  intros [= <-]. cbn [nrows ncols stored].
  apply Z.leb_le in Hm, Hn. repeat split; trivial.
  - rewrite forallb_forall in Hall. specialize (Hall e H).
    unfold in_shape in Hall. apply andb_true_iff in Hall.
    apply Nat.ltb_lt. tauto.
  - rewrite forallb_forall in Hall. specialize (Hall e H).
    unfold in_shape in Hall. apply andb_true_iff in Hall.
    apply Nat.ltb_lt. tauto.
Qed.

Section AnyLibrary.

Variable lib : RMTClib.
Variable linalg_inv : matrix -> option matrix.

(** Two matrices the method has built always have matching inner
    dimensions. *)
Lemma built_dimensions_agree nm b U N :
  full_uniq2elem lib nm = Ok U -> full_nodal2coeff lib nm b = Ok N ->
  sp_mul N U = Ok (product N U).
Proof.
  unfold full_uniq2elem, full_nodal2coeff, np_mul_pyint.
  destruct (fits _); [|discriminate]. intros HU HN.
  destruct (csc_matrix_ok _ _ _ HU) as (_ & _ & Hr & _).
  destruct (csc_matrix_ok _ _ _ HN) as (_ & _ & _ & Hc & _).
  unfold sp_mul. rewrite Hr, Hc, Nat.eqb_refl. reflexivity.
Qed.

Lemma assemble_run nm b :
  exists k, (k <= 2)%nat /\
    calls (assemble lib nm b)
    = firstn k [Call_compute_uniq2elem; Call_compute_full_from_block].
Proof.
  unfold assemble, calls, bind, traced, ret.
  step_result; cbn; [|exists 0%nat; split; [lia|reflexivity]].
  step_result; cbn; [|exists 1%nat; split; [lia|reflexivity]].
  step_result; cbn; [|exists 2%nat; split; [lia|reflexivity]].
  step_result; cbn; exists 2%nat; split; lia || reflexivity.
Qed.

Lemma dof2coeff_run self nm :
  num self = Some nm ->
  (exists k, (2 <= k <= 4)%nat /\
     calls (_compute_dof2coeff lib linalg_inv self) = firstn k complete_run) /\
  (forall b U N,
     linalg_inv (compute_coeff2nodal lib (num_x nm) (num_term nm)) = Some b ->
     full_uniq2elem lib nm = Ok U -> full_nodal2coeff lib nm b = Ok N ->
     _compute_dof2coeff lib linalg_inv self
     = (complete_run, Ok (product N U))) /\
  (forall op,
     outcome (_compute_dof2coeff lib linalg_inv self) = Ok op ->
     exists b U N,
       linalg_inv (compute_coeff2nodal lib (num_x nm) (num_term nm)) = Some b /\
       full_uniq2elem lib nm = Ok U /\ full_nodal2coeff lib nm b = Ok N /\
       op = product N U /\
       calls (_compute_dof2coeff lib linalg_inv self) = complete_run).
Proof.
  intros Hn. rewrite (_compute_dof2coeff_unfold lib linalg_inv _ Hn).
  split; [|split].
  - destruct (linalg_inv _) as [b|].
    + destruct (assemble_run nm b) as (k & Hk & E).
      exists (S (S k)). split; [lia|]. unfold calls in *.
      cbn [fst app]. rewrite E. reflexivity.
    + exists 2%nat. split; [lia|reflexivity].
  - intros b U N -> HU HN.
    assert (Ho : outcome (assemble lib nm b) = Ok (product N U)).
    { rewrite DofToCoeffClaims.assemble_outcome, HU, HN.
      apply (built_dimensions_agree _ _ HU HN). }
    rewrite (DofToCoeffClaims.assemble_calls _ _ _ Ho), Ho. reflexivity.
  - intros op. destruct (linalg_inv _) as [b|]; [|discriminate].
    cbn [outcome snd]. intros Ho.
    change (outcome (assemble lib nm b) = Ok op) in Ho.
    pose proof Ho as Ho'. rewrite DofToCoeffClaims.assemble_outcome in Ho'.
    destruct (full_uniq2elem lib nm) as [U|] eqn:HU; [|discriminate].
    destruct (full_nodal2coeff lib nm b) as [N|] eqn:HN; [|discriminate].
    rewrite (built_dimensions_agree _ _ HU HN) in Ho'. injection Ho' as <-.
    exists b, U, N. split; [reflexivity|]. split; [reflexivity|].
    split; [exact HN|]. split; [reflexivity|].
    pose proof (DofToCoeffClaims.assemble_calls _ _ _ Ho) as Hc.
    unfold calls in *. cbn [fst]. rewrite Hc. reflexivity.
Qed.

(** X9: the ways [_compute_dof2coeff] ends, for any library and any
    inversion routine. Before [_initialize] it raises AttributeError
    without calling anything. Otherwise its library calls are an initial
    segment, at least two long, of coeff2nodal, inv, uniq2elem,
    full_from_block, in this order. It returns exactly when the inversion
    and the two sparse constructions succeed, after all four calls, and
    then returns their product: the final multiplication never fails on
    a dimension mismatch. *)
Theorem dof2coeff_outcomes self :
  (num self = None ->
   _compute_dof2coeff lib linalg_inv self = ([], Raise AttributeError)) /\
  forall nm, num self = Some nm ->
    (exists k, (2 <= k <= 4)%nat /\
       calls (_compute_dof2coeff lib linalg_inv self)
       = firstn k complete_run) /\
    (forall b U N,
       linalg_inv (compute_coeff2nodal lib (num_x nm) (num_term nm))
       = Some b ->
       full_uniq2elem lib nm = Ok U -> full_nodal2coeff lib nm b = Ok N ->
       _compute_dof2coeff lib linalg_inv self
       = (complete_run, Ok (product N U))) /\
    (forall op,
       outcome (_compute_dof2coeff lib linalg_inv self) = Ok op ->
       exists b U N,
         linalg_inv (compute_coeff2nodal lib (num_x nm) (num_term nm))
         = Some b /\
         full_uniq2elem lib nm = Ok U /\ full_nodal2coeff lib nm b = Ok N /\
         op = product N U /\
         calls (_compute_dof2coeff lib linalg_inv self) = complete_run).
Proof.
  split.
  - intros Hn. unfold _compute_dof2coeff, the_num. rewrite Hn. reflexivity.
  - intros nm Hn. exact (dof2coeff_run self Hn).
Qed.

(** X10: the shape of the operator is the pair of counts that
    [_initialize] stored: whenever [_compute_dof2coeff] returns on an
    initialized object, the operator has [num['coeff']] rows and
    [num['dof']] columns, for any library. *)
Theorem operator_shape_is_stored_counts self s nm op :
  outcome (_initialize self) = Ok s -> num s = Some nm ->
  outcome (_compute_dof2coeff lib linalg_inv s) = Ok op ->
  Z.of_nat (nrows op) = num_coeff nm /\ Z.of_nat (ncols op) = num_dof nm.
Proof.
  intros Hi Hn Ho.
  destruct (dof2coeff_run s Hn) as (_ & _ & Hret).
  destruct (Hret op Ho) as (b & U & N & _ & HU & HN & -> & _).
  destruct (returned_num _ Hi Hn) as (y & t & dof & E & ->).
  unfold full_uniq2elem, full_nodal2coeff, np_mul_pyint in HU, HN.
  destruct (fits _); [|discriminate].
  destruct (csc_matrix_ok _ _ _ HU) as (_ & H0 & _ & Hc & _).
  destruct (csc_matrix_ok _ _ _ HN) as (H1 & _ & Hr & _).
  unfold product. cbn [nrows ncols]. rewrite Hr, Hc, !Z2Nat.id by assumption.
  rewrite E. cbn [num_of num_coeff num_dof num_term num_elem num_uniq num_x].
  split; reflexivity.
Qed.

(** X11: [_compute_jac_raw] raises AttributeError before [_initialize],
    without calling the library. On an initialized object it calls
    [compute_jac] once and returns its result unchanged; the routine
    receives the number of query rows n, nx and [elem_list] as stored,
    the [xlimits] the user configured, and [nnz = n * 4**nx] reduced to
    64 bits, which is [n * 4**nx] itself when that fits. *)
Theorem jac_raw_outcomes self ix1 ix2 x :
  (num self = None ->
   _compute_jac_raw lib self ix1 ix2 x = ([], Raise AttributeError)) /\
  forall s nm,
    outcome (_initialize self) = Ok s -> num s = Some nm ->
    fits (Z.of_nat (shape0 x)) = true ->
    _compute_jac_raw lib s ix1 ix2 x
    = ([Call_compute_jac],
       Ok (compute_jac lib ix1 ix2
             (wrap (Z.of_nat (shape0 x) * 4 ^ Z.of_nat (num_x nm)))
             (num_x nm) (shape0 x) (num_elem_list nm)
             (xlimits (options self)) x)) /\
    ((Z.of_nat (shape0 x) * 4 ^ Z.of_nat (num_x nm) <= int_max)%Z ->
     wrap (Z.of_nat (shape0 x) * 4 ^ Z.of_nat (num_x nm))
     = (Z.of_nat (shape0 x) * 4 ^ Z.of_nat (num_x nm))%Z).
Proof.
  split.
  - intros Hn. unfold _compute_jac_raw, the_num. rewrite Hn. reflexivity.
  - intros s nm Hi Hn Hf. split.
    + destruct (returned_counts _ Hi Hn) as (Ht & _).
      destruct (_initialize_stored _ Hi)
        as (xt & yt & el & _ & _ & _ & Hopt & _).
      unfold _compute_jac_raw, the_num. rewrite Hn.
      cbn [lift bind]. unfold np_mul_pyint. rewrite Hf.
      cbn [bind traced app]. rewrite Hopt. cbn [xlimits].
      unfold mul. rewrite Ht, wrap_mul_l, Z.mul_comm. reflexivity.
    + intros Hle. apply wrap_small. unfold int_min, int_max in *.
      assert (0 < 4 ^ Z.of_nat (num_x nm))%Z by (apply Z.pow_pos_nonneg; lia).
      nia.
Qed.

(** X12: applying the operator that [_compute_dof2coeff] returns to a
    vector of degrees of freedom is applying the Node Sharing Map first
    and the block-diagonal matrix to the result: every component of
    [op v] equals that of [full_nodal2coeff (full_uniq2elem v)], for any
    library. *)
Theorem operator_applies_in_two_steps self nm op v r :
  num self = Some nm ->
  outcome (_compute_dof2coeff lib linalg_inv self) = Ok op ->
  (r < nrows op)%nat ->
  exists b U N,
    linalg_inv (compute_coeff2nodal lib (num_x nm) (num_term nm)) = Some b /\
    full_uniq2elem lib nm = Ok U /\ full_nodal2coeff lib nm b = Ok N /\
    (component (sp_apply (stored op) (nrows op) v) r
     == component (sp_apply (stored N) (nrows N)
                     (sp_apply (stored U) (nrows U) v)) r)%Q.
Proof.
  intros Hn Ho Hr.
  destruct (dof2coeff_run self Hn) as (_ & _ & Hret).
  destruct (Hret op Ho) as (b & U & N & Hb & HU & HN & -> & _).
  exists b, U, N. split; [exact Hb|]. split; [exact HU|]. split; [exact HN|].
  apply apply_in_two_steps; [exact Hr|].
  pose proof HU as HU'. pose proof HN as HN'.
  unfold full_uniq2elem, full_nodal2coeff, np_mul_pyint in HU', HN'.
  destruct (fits _); [|discriminate].
  destruct (csc_matrix_ok _ _ _ HU') as (_ & _ & Hru & _).
  destruct (csc_matrix_ok _ _ _ HN') as (_ & _ & _ & Hcn & Hst & Hin).
  intros e He. rewrite Hst in He. rewrite Hru, <- Hcn. apply (Hin e He).
Qed.

End AnyLibrary.

Lemma dof2coeff_outcomes_witness :
  _compute_dof2coeff Lib.rmtclib Exact.linalg_inv Examples.interval
  = ([], Raise AttributeError) /\
  exists op,
    _compute_dof2coeff Lib.rmtclib Exact.linalg_inv
      (Examples.ready Examples.interval)
    = (complete_run, Ok op).
Proof.
  split.
  - apply (proj1 (dof2coeff_outcomes Lib.rmtclib Exact.linalg_inv
                    Examples.interval)).
    reflexivity.
  - destruct (proj2 (dof2coeff_outcomes Lib.rmtclib Exact.linalg_inv
                       (Examples.ready Examples.interval)) _ eq_refl)
      as (_ & Hrun & _).
    eexists. eapply Hrun; vm_compute; reflexivity.
Defined.

Lemma operator_shape_is_stored_counts_witness :
  Z.of_nat (nrows Examples.interval_dof2coeff) = 8%Z /\
  Z.of_nat (ncols Examples.interval_dof2coeff) = 6%Z.
Proof.
  apply (@operator_shape_is_stored_counts Lib.rmtclib Exact.linalg_inv
           Examples.interval (Examples.ready Examples.interval) _
           Examples.interval_dof2coeff eq_refl eq_refl).
  vm_compute. reflexivity.
Defined.

Lemma jac_raw_outcomes_witness :
  _compute_jac_raw Lib.rmtclib Examples.interval 0 0 Examples.nodes
  = ([], Raise AttributeError) /\
  _compute_jac_raw Lib.rmtclib (Examples.ready Examples.interval) 0 0
    Examples.nodes
  = ([Call_compute_jac],
     Ok (compute_jac Lib.rmtclib 0 0 12 1 3 [2%Z] [(0%Q, 1%Q)]
           Examples.nodes)).
Proof.
  split.
  - apply (proj1 (jac_raw_outcomes Lib.rmtclib Examples.interval 0 0
                    Examples.nodes)).
    reflexivity.
  - apply (proj1 (proj2 (jac_raw_outcomes Lib.rmtclib Examples.interval 0 0
                           Examples.nodes)
                    (Examples.ready Examples.interval) _
                    eq_refl eq_refl eq_refl)).
Defined.

Lemma operator_applies_in_two_steps_witness :
  exists b U N,
    Exact.linalg_inv (compute_coeff2nodal Lib.rmtclib 1 4) = Some b /\
    full_uniq2elem Lib.rmtclib
      (num_of 1 1 5 [2%Z] 6) = Ok U /\
    full_nodal2coeff Lib.rmtclib (num_of 1 1 5 [2%Z] 6) b = Ok N /\
    (component (sp_apply (stored Examples.interval_dof2coeff) 8
                  [1; 2; 3; 4; 5; 6]%Q) 5
     == component (sp_apply (stored N) (nrows N)
                     (sp_apply (stored U) (nrows U) [1; 2; 3; 4; 5; 6]%Q))
          5)%Q.
Proof.
  apply (@operator_applies_in_two_steps Lib.rmtclib Exact.linalg_inv
           (Examples.ready Examples.interval) _
           Examples.interval_dof2coeff [1; 2; 3; 4; 5; 6]%Q 5%nat eq_refl).
  - vm_compute. reflexivity.
  - vm_compute. lia.
Defined.

End MethodBehaviour.
